(** * Eve: the ante handler chain and the fee-market denom resolver

    A shallow embedding of [app/ante/ante.go]:

    - [Ante]: [HandlerOptions], [NewAnteHandler] and the decorator chain it
      assembles;
    - [Sdk]: the cosmos-sdk values the resolver computes with ([Int],
      [LegacyDec], [Coin], [Coins]);
    - [Resolver]: [DenomResolverImpl] with [ConvertToDenom], [ExtraDenoms],
      [getIBCCoinFromNative] and [verifyIBCCoins], over the feeabs keeper's
      store.

    Go's three outcomes of a call are kept apart: a returned value, a
    returned [error], and a run-time panic. *)

From stdpp Require Import gmap strings list fin_maps.
From Stdlib Require Import ZArith Lia.

#[local] Open Scope Z_scope.

(* ===================================================================== *)
(** ** Outcomes of a Go call *)
(* ===================================================================== *)

(** The [error] values the source builds or passes on. *)
Inductive Error : Type :=
| ErrorString (msg : string)
    (* errors.New(msg), fmt.Errorf(msg) without verbs *)
| ErrExpectedOneNativeCoin (got : nat)
    (* fmt.Errorf("expected exactly one native coin, got %d", got) *)
| ErrInvalidIBCFees
    (* feeabstypes.ErrInvalidIBCFees *)
| ErrUnsupportedDenom (denom : string)
    (* feeabstypes.ErrUnsupportedDenom.Wrapf("unsupported denom: %s", denom) *)
| ErrInvalidExchangeRate
    (* the feeabs keeper has no TWAP rate stored for the denom *)
| ErrKeeper (msg : string).
    (* an error raised inside a keeper and passed on unchanged *)

Inductive Res (A : Type) : Type :=
| Ok (a : A)
| Err (e : Error)
| Panic (msg : string).

Arguments Ok {A} a.
Arguments Err {A} e.
Arguments Panic {A} msg.

Definition isOk {A} (r : Res A) : bool :=
  match r with Ok _ => true | _ => false end.

Definition isErr {A} (r : Res A) : bool :=
  match r with Err _ => true | _ => false end.

(* ===================================================================== *)
(** ** The decorator chain of [NewAnteHandler] *)
(* ===================================================================== *)

Module Ante.

(** Collaborators that the constructor only stores: each is a handle. *)
Variant AccountKeeper := AccountKeeperRef (id : nat).
Variant BankKeeper := BankKeeperRef (id : nat).
Variant FeegrantKeeper := FeegrantKeeperRef (id : nat).
Variant SignModeHandler := SignModeHandlerRef (id : nat).
Variant ExtensionOptionChecker := ExtensionOptionCheckerRef (id : nat).
Variant SigGasConsumer := SigGasConsumerRef (id : nat).
Variant TxFeeChecker := TxFeeCheckerRef (id : nat).
Variant IBCKeeper := IBCKeeperRef (id : nat).
Variant KVStoreService := KVStoreServiceRef (id : nat).
Variant CircuitKeeper := CircuitKeeperRef (id : nat).
Variant FeeMarketKeeper := FeeMarketKeeperRef (id : nat).
Variant GasRegister := GasRegisterRef (id : nat).

(** [wasmTypes.WasmConfig]: the one field the constructor reads, a [*uint64]. *)
Record WasmConfig := mkWasmConfig {
  SimulationGasLimit : option Z
}.

(** [wasmkeeper.Keeper]: the one field [GetGasRegister] returns. *)
Record WasmKeeper := mkWasmKeeper {
  gasRegister : GasRegister
}.

(** [ante.HandlerOptions] of the SDK, embedded in the repository's own
    [HandlerOptions]. Interfaces, pointers and funcs may be nil: [option]. *)
Record SdkHandlerOptions := mkSdkHandlerOptions {
  sdk_AccountKeeper : option AccountKeeper;
  BankKeeper_ : option BankKeeper;
  ExtensionOptionChecker_ : option ExtensionOptionChecker;
  FeegrantKeeper_ : option FeegrantKeeper;
  SignModeHandler_ : option SignModeHandler;
  SigGasConsumer_ : option SigGasConsumer;
  TxFeeChecker_ : option TxFeeChecker
}.

(** [HandlerOptions]. It declares an [AccountKeeper] field of its own, which
    shadows the embedded one: [options.AccountKeeper] is the outer field.
    (The by-value [FeeAbskeeper] field is never read by the constructor.) *)
Record HandlerOptions := mkHandlerOptions {
  embedded : SdkHandlerOptions;
  IBCKeeper_ : option IBCKeeper;
  WasmConfig_ : option WasmConfig;
  WasmKeeper_ : option WasmKeeper;
  TXCounterStoreService_ : option KVStoreService;
  CircuitKeeper_ : option CircuitKeeper;
  FeeMarketKeeper_ : option FeeMarketKeeper;
  AccountKeeper_ : option AccountKeeper
}.

(** The decorators, as built by the constructors called in the slice literal.
    Each constructor records its arguments; what a decorator does with them
    when the chain runs is the dependency's code. *)
Inductive Decorator : Type :=
| SetUpContextDecorator
| LimitSimulationGasDecorator (gasLimit : option Z)
| CountTXDecorator (s : option KVStoreService)
| GasRegisterDecorator (gr : GasRegister)
| CircuitBreakerDecorator (ck : option CircuitKeeper)
| ExtensionOptionsDecorator (checker : option ExtensionOptionChecker)
| FeeMarketCheckDecorator (fmk : option FeeMarketKeeper) (fallback : Decorator)
| DeductFeeDecorator (ak : option AccountKeeper) (bk : option BankKeeper)
    (fk : option FeegrantKeeper) (tfc : option TxFeeChecker)
| ValidateBasicDecorator
| TxTimeoutHeightDecorator
| ValidateMemoDecorator (ak : option AccountKeeper)
| ConsumeGasForTxSizeDecorator (ak : option AccountKeeper)
| SetPubKeyDecorator (ak : option AccountKeeper)
| ValidateSigCountDecorator (ak : option AccountKeeper)
| SigGasConsumeDecorator (ak : option AccountKeeper) (sgc : option SigGasConsumer)
| SigVerificationDecorator (ak : option AccountKeeper) (smh : option SignModeHandler)
| IncrementSequenceDecorator (ak : option AccountKeeper)
| RedundantRelayDecorator (k : option IBCKeeper).

(** [sdk.AnteHandler] as returned by [sdk.ChainAnteDecorators]: nil for an
    empty chain, otherwise the handler that runs the chain from its head. *)
Variant AnteHandler : Type :=
| nilAnteHandler
| chainedAnteHandler (chain : list Decorator).

Definition ChainAnteDecorators (chain : list Decorator) : AnteHandler :=
  match chain with
  | [] => nilAnteHandler
  | _ => chainedAnteHandler chain
  end.

Definition decorators (h : AnteHandler) : list Decorator :=
  match h with
  | nilAnteHandler => []
  | chainedAnteHandler chain => chain
  end.

(** [options.WasmKeeper.GetGasRegister()]: a method call through a pointer
    that no check has shown to be non-nil. *)
Definition GetGasRegister (k : option WasmKeeper) : Res GasRegister :=
  match k with
  | Some wk => Ok (gasRegister wk)
  | None => Panic "invalid memory address or nil pointer dereference"
  end.

Definition NewAnteHandler (options : HandlerOptions) : Res AnteHandler :=
  match AccountKeeper_ options with
  | None => Err (ErrorString "account keeper is required for ante builder")
  | Some _ =>
  match BankKeeper_ (embedded options) with
  | None => Err (ErrorString "bank keeper is required for ante builder")
  | Some _ =>
  match SignModeHandler_ (embedded options) with
  | None => Err (ErrorString "sign mode handler is required for ante builder")
  | Some _ =>
  match WasmConfig_ options with
  | None => Err (ErrorString "wasm config is required for ante builder")
  | Some wasmConfig =>
  match TXCounterStoreService_ options with
  | None => Err (ErrorString "wasm store service is required for ante builder")
  | Some _ =>
  match CircuitKeeper_ options with
  | None => Err (ErrorString "circuit keeper is required for ante builder")
  | Some _ =>
  match GetGasRegister (WasmKeeper_ options) with
  | Panic msg => Panic msg
  | Err e => Err e
  | Ok gr =>
    let anteDecorators :=
      [ SetUpContextDecorator;
        LimitSimulationGasDecorator (SimulationGasLimit wasmConfig);
        CountTXDecorator (TXCounterStoreService_ options);
        GasRegisterDecorator gr;
        CircuitBreakerDecorator (CircuitKeeper_ options);
        ExtensionOptionsDecorator (ExtensionOptionChecker_ (embedded options));
        FeeMarketCheckDecorator
          (FeeMarketKeeper_ options)
          (DeductFeeDecorator
             (AccountKeeper_ options)
             (BankKeeper_ (embedded options))
             (FeegrantKeeper_ (embedded options))
             (TxFeeChecker_ (embedded options)));
        ValidateBasicDecorator;
        TxTimeoutHeightDecorator;
        ValidateMemoDecorator (AccountKeeper_ options);
        ConsumeGasForTxSizeDecorator (AccountKeeper_ options);
        DeductFeeDecorator
          (AccountKeeper_ options)
          (BankKeeper_ (embedded options))
          (FeegrantKeeper_ (embedded options))
          (TxFeeChecker_ (embedded options));
        SetPubKeyDecorator (AccountKeeper_ options);
        ValidateSigCountDecorator (AccountKeeper_ options);
        SigGasConsumeDecorator (AccountKeeper_ options)
          (SigGasConsumer_ (embedded options));
        SigVerificationDecorator (AccountKeeper_ options)
          (SignModeHandler_ (embedded options));
        IncrementSequenceDecorator (AccountKeeper_ options);
        RedundantRelayDecorator (IBCKeeper_ options) ]
    in Ok (ChainAnteDecorators anteDecorators)
  end end end end end end end.

(** *** Reading the chain as data *)

(** The stage a decorator implements, without its arguments. *)
Variant Stage : Type :=
| SetUpContext | LimitSimulationGas | CountTX | GasRegisterStage
| CircuitBreaker | ExtensionOptions | FeeMarketCheck | DeductFee
| ValidateBasic | TxTimeoutHeight | ValidateMemo | ConsumeGasForTxSize
| SetPubKey | ValidateSigCount | SigGasConsume | SigVerification
| IncrementSequence | RedundantRelay.

#[global] Instance Stage_eq_dec : EqDecision Stage.
Proof. solve_decision. Defined.

Definition stageOf (d : Decorator) : Stage :=
  match d with
  | SetUpContextDecorator => SetUpContext
  | LimitSimulationGasDecorator _ => LimitSimulationGas
  | CountTXDecorator _ => CountTX
  | GasRegisterDecorator _ => GasRegisterStage
  | CircuitBreakerDecorator _ => CircuitBreaker
  | ExtensionOptionsDecorator _ => ExtensionOptions
  | FeeMarketCheckDecorator _ _ => FeeMarketCheck
  | DeductFeeDecorator _ _ _ _ => DeductFee
  | ValidateBasicDecorator => ValidateBasic
  | TxTimeoutHeightDecorator => TxTimeoutHeight
  | ValidateMemoDecorator _ => ValidateMemo
  | ConsumeGasForTxSizeDecorator _ => ConsumeGasForTxSize
  | SetPubKeyDecorator _ => SetPubKey
  | ValidateSigCountDecorator _ => ValidateSigCount
  | SigGasConsumeDecorator _ _ => SigGasConsume
  | SigVerificationDecorator _ _ => SigVerification
  | IncrementSequenceDecorator _ => IncrementSequence
  | RedundantRelayDecorator _ => RedundantRelay
  end.




(** Positions of the top-level decorators of stage [s] (wrapped ones apart). *)
Fixpoint topPositionsFrom (i : nat) (s : Stage) (chain : list Decorator) : list nat :=
  match chain with
  | [] => []
  | d :: rest =>
      if bool_decide (stageOf d = s)
      then i :: topPositionsFrom (S i) s rest
      else topPositionsFrom (S i) s rest
  end.

Definition topPositions (s : Stage) (chain : list Decorator) : list nat :=
  topPositionsFrom 0 s chain.

(** Every top-level occurrence of [a] comes before every one of [b], and
    both occur. *)
Definition precedes (a b : Stage) (chain : list Decorator) : Prop :=
  topPositions a chain ≠ [] ∧ topPositions b chain ≠ [] ∧
  ∀ i j, i ∈ topPositions a chain → j ∈ topPositions b chain → (i < j)%nat.

(** The signer-related stages of the chain. *)
Definition signerStages : list Stage :=
  [SetPubKey; ValidateSigCount; SigGasConsume; SigVerification; IncrementSequence].

(** Options the type allows: the six checked dependencies are set, the
    wasm keeper pointer is nil. *)
Definition optionsWithoutWasmKeeper : HandlerOptions :=
  {| embedded :=
       {| sdk_AccountKeeper := None;
          BankKeeper_ := Some (BankKeeperRef 0);
          ExtensionOptionChecker_ := None;
          FeegrantKeeper_ := None;
          SignModeHandler_ := Some (SignModeHandlerRef 0);
          SigGasConsumer_ := None;
          TxFeeChecker_ := None |};
     IBCKeeper_ := None;
     WasmConfig_ := Some (mkWasmConfig None);
     WasmKeeper_ := None;
     TXCounterStoreService_ := Some (KVStoreServiceRef 0);
     CircuitKeeper_ := Some (CircuitKeeperRef 0);
     FeeMarketKeeper_ := None;
     AccountKeeper_ := Some (AccountKeeperRef 0) |}.

(** The same options with a wasm keeper: the constructor succeeds. *)
Definition optionsComplete : HandlerOptions :=
  {| embedded := embedded optionsWithoutWasmKeeper;
     IBCKeeper_ := Some (IBCKeeperRef 0);
     WasmConfig_ := Some (mkWasmConfig None);
     WasmKeeper_ := Some (mkWasmKeeper (GasRegisterRef 0));
     TXCounterStoreService_ := Some (KVStoreServiceRef 0);
     CircuitKeeper_ := Some (CircuitKeeperRef 0);
     FeeMarketKeeper_ := Some (FeeMarketKeeperRef 0);
     AccountKeeper_ := Some (AccountKeeperRef 0) |}.

(** The six dependencies the constructor checks. *)
Definition requiredPresent (options : HandlerOptions) : bool :=
  bool_decide (is_Some (AccountKeeper_ options))
  && bool_decide (is_Some (BankKeeper_ (embedded options)))
  && bool_decide (is_Some (SignModeHandler_ (embedded options)))
  && bool_decide (is_Some (WasmConfig_ options))
  && bool_decide (is_Some (TXCounterStoreService_ options))
  && bool_decide (is_Some (CircuitKeeper_ options)).

End Ante.

(* ===================================================================== *)
(** ** cosmos-sdk values used by the resolver *)
(* ===================================================================== *)

(** These are the SDK's [math.Int], [math.LegacyDec], [types.Coin] and
    [types.Coins] with the operations [ante.go] calls on them. Integers are
    [big.Int]s, here [Z]; the SDK's 256-bit range panics are left out:
    amounts are taken within range. *)
Module Sdk.

(** [math.Int]. *)
Definition Int : Type := Z.

(** [math.LegacyDec]: a [big.Int] holding the value scaled by [10^18]. *)
Record LegacyDec := mkDec { rawDec : Z }.

(* 10^LegacyPrecision *)
Definition precisionReuse : Z := 1000000000000000000.
(* precisionReuse / 2 *)
Definition fivePrecision : Z := 500000000000000000.
(* precisionReuse * precisionReuse *)
Definition squaredPrecisionReuse : Z :=
  1000000000000000000000000000000000000.

(** The non-negative branch of [chopPrecisionAndRound]: drop the last 18
    digits and round the remainder, a tie going to the even quotient. *)
Definition chopPrecisionAndRoundNonNeg (d : Z) : Z :=
  let quo := Z.quot d precisionReuse in
  let rem := Z.rem d precisionReuse in
  if rem =? 0 then quo
  else match rem ?= fivePrecision with
       | Lt => quo
       | Gt => quo + 1
       | Eq => if negb (Z.testbit quo 0) then quo else quo + 1
       end.

(** [chopPrecisionAndRound]: a negative input is negated, chopped and
    negated back. *)
Definition chopPrecisionAndRound (d : Z) : Z :=
  if d <? 0 then - chopPrecisionAndRoundNonNeg (- d)
  else chopPrecisionAndRoundNonNeg d.

(** [Int.ToLegacyDec]. *)
Definition ToLegacyDec (i : Int) : LegacyDec := mkDec (i * precisionReuse).

(** [LegacyDec.TruncateInt]: [big.Int.Quo] by [10^18], towards zero. *)
Definition TruncateInt (d : LegacyDec) : Int := Z.quot (rawDec d) precisionReuse.

(** [LegacyDec.RoundInt]. *)
Definition RoundInt (d : LegacyDec) : Int := chopPrecisionAndRound (rawDec d).

(** [LegacyDec.Quo]: scale by [10^36], divide towards zero ([big.Int.Quo],
    which panics on a zero divisor), then chop and round back to 18 digits. *)
Definition Quo (d d2 : LegacyDec) : Res LegacyDec :=
  if rawDec d2 =? 0 then Panic "division by zero"
  else Ok (mkDec (chopPrecisionAndRound
                    (Z.quot (rawDec d * squaredPrecisionReuse) (rawDec d2)))).

(** [LegacyDec.MulInt]: exact. *)
Definition MulInt (d : LegacyDec) (i : Int) : LegacyDec := mkDec (rawDec d * i).

(** [types.Coin] and [types.DecCoin]. *)
Record Coin := mkCoin { Denom : string; Amount : Int }.
Record DecCoin := mkDecCoin { DecDenom : string; DecAmount : LegacyDec }.

(** [types.Coins]. *)
Definition Coins : Type := list Coin.

(** *** Denominations: the SDK's default pattern
    [[a-zA-Z][a-zA-Z0-9/:._-]{2,127}]. *)

Definition isLetter (c : Ascii.ascii) : bool :=
  let n := Ascii.N_of_ascii c in
  ((65 <=? n) && (n <=? 90) || (97 <=? n) && (n <=? 122))%N.

Definition isDenomChar (c : Ascii.ascii) : bool :=
  let n := Ascii.N_of_ascii c in
  (isLetter c || (48 <=? n) && (n <=? 57)
   || (n =? 47) || (n =? 58) || (n =? 46) || (n =? 95) || (n =? 45))%N.

Definition ValidateDenom (denom : string) : bool :=
  match denom with
  | EmptyString => false
  | String c rest =>
      isLetter c && forallb isDenomChar (String.list_ascii_of_string rest)
      && (2 <=? String.length rest)%nat && (String.length rest <=? 127)%nat
  end.

(** [NewCoin] panics on an invalid denomination or a negative amount. *)
Definition NewCoin (denom : string) (amount : Int) : Res Coin :=
  if negb (ValidateDenom denom) then Panic "invalid denom"
  else if amount <? 0 then Panic "negative coin amount"
  else Ok (mkCoin denom amount).

(** [NewDecCoinFromDec] panics likewise. *)
Definition NewDecCoinFromDec (denom : string) (amount : LegacyDec) : Res DecCoin :=
  if negb (ValidateDenom denom) then Panic "invalid denom"
  else if rawDec amount <? 0 then Panic "negative decimal coin amount"
  else Ok (mkDecCoin denom amount).

(** [removeZeroCoins]. *)
Definition removeZeroCoins (coins : list Coin) : list Coin :=
  List.filter (fun c => negb (Amount c =? 0)) coins.

(** [Coins.Sort]: by denomination, bytewise. *)
Fixpoint insertCoin (c : Coin) (sorted : list Coin) : list Coin :=
  match sorted with
  | [] => [c]
  | x :: rest =>
      if String.ltb (Denom x) (Denom c) then x :: insertCoin c rest
      else c :: x :: rest
  end.

Definition sortCoins (coins : list Coin) : list Coin :=
  List.fold_right insertCoin [] coins.

Definition sanitizeCoins (coins : list Coin) : Coins :=
  sortCoins (removeZeroCoins coins).

(** [Coins.Validate]: valid denominations, strictly increasing, positive
    amounts. *)
Fixpoint validateFrom (lowDenom : option string) (coins : list Coin) : bool :=
  match coins with
  | [] => true
  | c :: rest =>
      ValidateDenom (Denom c)
      && match lowDenom with
         | None => true
         | Some low => String.ltb low (Denom c)
         end
      && (0 <? Amount c)
      && validateFrom (Some (Denom c)) rest
  end.

Definition ValidateCoins (coins : Coins) : bool := validateFrom None coins.

(** [NewCoins]: zero coins are dropped, the rest sorted and validated; an
    invalid set panics. *)
Definition NewCoins (coins : list Coin) : Res Coins :=
  let newCoins := sanitizeCoins coins in
  if ValidateCoins newCoins then Ok newCoins else Panic "invalid coin set".

End Sdk.

(* ===================================================================== *)
(** ** The denom resolver *)
(* ===================================================================== *)

Module Resolver.
Import Sdk.

(** *** Calls into the keepers, and the monad that records them *)

(** A read of keeper state made through [ctx]. *)
Variant Lookup : Type :=
| LookupBondDenom
| LookupGetHostZoneConfig (denom : string)
| LookupHasHostZoneConfig (denom : string)
| LookupGetTwapRate (denom : string)
| LookupGetAllHostZoneConfig.

(** A computation yields its outcome and the keeper reads it made, in
    order. An error or a panic ends it. *)
Definition M (A : Type) : Type := (list Lookup * Res A)%type.

Definition ret {A} (a : A) : M A := ([], Ok a).
Definition fail {A} (e : Error) : M A := ([], Err e).
Definition lift {A} (r : Res A) : M A := ([], r).
Definition call {A} (k : Lookup) (r : Res A) : M A := ([k], r).

Definition bind {A B} (m : M A) (f : A -> M B) : M B :=
  match m with
  | (l, Ok a) => let '(l', r) := f a in (l ++ l', r)
  | (l, Err e) => (l, Err e)
  | (l, Panic msg) => (l, Panic msg)
  end.

Notation "x <- m ;; f" := (bind m (fun x => f))
  (at level 20, m at level 99, f at level 200, only parsing).

Definition lookups {A} (m : M A) : list Lookup := fst m.
Definition outcome {A} (m : M A) : Res A := snd m.

(** *** Keeper state *)

(** Modelled from the spec: the feeabs type [HostChainFeeAbsConfig], whose
    declaration is not among this repository's sources. The source reads
    [IbcDenom] only; [enabled] is the allow-list flag of the spec's data
    model. The exchange rate is not a field: the source fetches it with
    [GetTwapRate]. *)
Record HostChainFeeAbsConfig := mkHostZone {
  IbcDenom : string;
  enabled : bool
}.

(** [feeabstypes.StakingKeeper], an interface: its one method used here. *)
Record StakingKeeper := mkStakingKeeper {
  BondDenom : Res string
}.

(** [feeabskeeper.Keeper] with the store it reads through [ctx]: the Host
    Zone Configs by denomination, the TWAP rates by denomination, and its
    own staking keeper. *)
Record FeeabsKeeper := mkFeeabsKeeper {
  hostZoneConfigs : gmap string HostChainFeeAbsConfig;
  twapRates : gmap string LegacyDec;
  sk : StakingKeeper
}.

Definition GetHostZoneConfig (k : FeeabsKeeper) (denom : string)
  : M (option HostChainFeeAbsConfig) :=
  call (LookupGetHostZoneConfig denom) (Ok (hostZoneConfigs k !! denom)).

Definition HasHostZoneConfig (k : FeeabsKeeper) (denom : string) : M bool :=
  call (LookupHasHostZoneConfig denom)
       (Ok (bool_decide (is_Some (hostZoneConfigs k !! denom)))).

Definition GetTwapRate (k : FeeabsKeeper) (denom : string) : M LegacyDec :=
  call (LookupGetTwapRate denom)
       (match twapRates k !! denom with
        | Some rate => Ok rate
        | None => Err ErrInvalidExchangeRate
        end).

Definition GetAllHostZoneConfig (k : FeeabsKeeper) : M (list HostChainFeeAbsConfig) :=
  call LookupGetAllHostZoneConfig (Ok (snd <$> map_to_list (hostZoneConfigs k))).

(** [coins[0]]: an index out of range panics. *)
Definition first (coins : Coins) : Res Coin :=
  match coins with
  | c :: _ => Ok c
  | [] => Panic "index out of range [0] with length 0"
  end.

(** The keeper's own check of a fee bundle, which the source's
    [verifyIBCCoins] copies. *)
Definition keeper_verifyIBCCoins (k : FeeabsKeeper) (ibcCoins : Coins) : M unit :=
  if negb (length ibcCoins =? 1)%nat then fail ErrInvalidIBCFees
  else
    c <- lift (first ibcCoins) ;;
    has <- HasHostZoneConfig k (Denom c) ;;
    if has then ret tt else fail (ErrUnsupportedDenom (Denom c)).

(** [Keeper.CalculateNativeFromIBCCoins] of the feeabs module (a
    dependency), the counterpart of [getIBCCoinFromNative] with the same
    rounding and the same registry check: verify the bundle, fetch the rate,
    multiply and round, and return the amount as a coin of the bond
    denomination. *)
Definition CalculateNativeFromIBCCoins (k : FeeabsKeeper) (ibcCoins : Coins)
    (chainConfig : HostChainFeeAbsConfig) : M Coins :=
  _ <- keeper_verifyIBCCoins k ibcCoins ;;
  twapRate <- GetTwapRate k (IbcDenom chainConfig) ;;
  coin <- lift (first ibcCoins) ;;
  let nativeFeeAmount := RoundInt (MulInt twapRate (Amount coin)) in
  bondDenom <- call LookupBondDenom (BondDenom (sk k)) ;;
  nativeFee <- lift (NewCoin bondDenom nativeFeeAmount) ;;
  lift (NewCoins [nativeFee]).

(** *** [DenomResolverImpl] *)

Record DenomResolverImpl := mkDenomResolverImpl {
  FeeabsKeeper_ : FeeabsKeeper;
  StakingKeeper_ : StakingKeeper
}.

(* return err if IBC token isn't in allowed_list *)
Definition verifyIBCCoins (r : DenomResolverImpl) (ibcCoins : Coins) : M unit :=
  if negb (length ibcCoins =? 1)%nat then fail ErrInvalidIBCFees
  else
    c <- lift (first ibcCoins) ;;
    let ibcDenom := Denom c in
    has <- HasHostZoneConfig (FeeabsKeeper_ r) ibcDenom ;;
    if has then ret tt else fail (ErrUnsupportedDenom ibcDenom).

Definition getIBCCoinFromNative (r : DenomResolverImpl) (nativeCoins : Coins)
    (chainConfig : HostChainFeeAbsConfig) : M Coins :=
  if negb (length nativeCoins =? 1)%nat
  then fail (ErrExpectedOneNativeCoin (length nativeCoins))
  else
    nativeCoin <- lift (first nativeCoins) ;;
    twapRate <- GetTwapRate (FeeabsKeeper_ r) (IbcDenom chainConfig) ;;
    (* Divide native amount by twap rate to get IBC amount *)
    quotient <- lift (Quo (ToLegacyDec (Amount nativeCoin)) twapRate) ;;
    let ibcAmount := RoundInt quotient in
    ibcCoin <- lift (NewCoin (IbcDenom chainConfig) ibcAmount) ;;
    (* Verify the resulting IBC coin *)
    checked <- lift (NewCoins [ibcCoin]) ;;
    _ <- verifyIBCCoins r checked ;;
    lift (NewCoins [ibcCoin]).

(** [ConvertToDenom] returns the equivalent [DecCoin] in a given denom. *)
Definition ConvertToDenom (r : DenomResolverImpl) (coin : DecCoin) (denom : string)
  : M DecCoin :=
  bondDenom <- call LookupBondDenom (BondDenom (StakingKeeper_ r)) ;;
  if String.eqb denom bondDenom then
    (* the denom is the bond denom: convert `coin` to the native denom *)
    found <- GetHostZoneConfig (FeeabsKeeper_ r) (DecDenom coin) ;;
    match found with
    | None => fail (ErrorString "error resolving denom")
    | Some hostZoneConfig =>
        c <- lift (NewCoin (DecDenom coin) (TruncateInt (DecAmount coin))) ;;
        nativeCoins <- lift (NewCoins [c]) ;;
        amount <- getIBCCoinFromNative r nativeCoins hostZoneConfig ;;
        a0 <- lift (first amount) ;;
        lift (NewDecCoinFromDec denom (ToLegacyDec (Amount a0)))
    end
  else
    (* the denom is not the bond denom: convert `coin` to the given denom *)
    found <- GetHostZoneConfig (FeeabsKeeper_ r) denom ;;
    match found with
    | None => fail (ErrorString "error resolving denom")
    | Some hostZoneConfig =>
        c <- lift (NewCoin denom (TruncateInt (DecAmount coin))) ;;
        ibcCoins <- lift (NewCoins [c]) ;;
        amount <- CalculateNativeFromIBCCoins (FeeabsKeeper_ r) ibcCoins hostZoneConfig ;;
        a0 <- lift (first amount) ;;
        lift (NewDecCoinFromDec denom (ToLegacyDec (Amount a0)))
    end.

(* extra denoms should be all denoms that have been registered via
   governance(host zone) *)
Definition ExtraDenoms (r : DenomResolverImpl) : M (list string) :=
  allHostZoneConfigs <- GetAllHostZoneConfig (FeeabsKeeper_ r) ;;
  ret (List.fold_left (fun denoms hostZoneConfig => denoms ++ [IbcDenom hostZoneConfig])
                      allHostZoneConfigs []).

(** *** Registries under the keeper's own discipline *)

(** [SetHostZoneConfig] stores a config under its own [IbcDenom]. *)
Definition registryKeyed (k : FeeabsKeeper) : Prop :=
  map_Forall (fun denom cfg => IbcDenom cfg = denom) (hostZoneConfigs k).

#[global] Instance registryKeyed_dec k : Decision (registryKeyed k).
Proof. unfold registryKeyed. apply _. Defined.

(** *** The spec's words, for comparison *)

(** The integer nearest to [a / b] for [0 < b], a tie going away from zero:
    the rounding the spec names. *)
Definition round_half_away (a b : Z) : Z :=
  if a <? 0 then - ((2 * (- a) + b) / (2 * b))
  else (2 * a + b) / (2 * b).

(** The integer nearest to [a / b] for [0 < b], a tie going to the even
    neighbour. *)
Definition round_half_even (a b : Z) : Z :=
  let q := a / b in
  let rem := a mod b in
  if 2 * rem <? b then q
  else if b <? 2 * rem then q + 1
  else if Z.even q then q else q + 1.

(** *** What the code computes, in closed form *)

(** [Quo] of an integer amount by a rate, as a raw 18-digit decimal: the
    quotient is cut at 36 digits, then rounded to 18, ties to even. *)
Definition quotient18 (amount rate : Z) : Z :=
  round_half_even
    (amount * precisionReuse * squaredPrecisionReuse / rate) precisionReuse.

(** The amount [getIBCCoinFromNative] computes: the 18-digit quotient
    rounded to an integer, ties to even. *)
Definition dividedAmount (amount rate : Z) : Z :=
  round_half_even (quotient18 amount rate) precisionReuse.

(** The amount [CalculateNativeFromIBCCoins] computes: the exact product
    rounded to an integer, ties to even. *)
Definition multipliedAmount (amount rate : Z) : Z :=
  round_half_even (rate * amount) precisionReuse.

(** The denominations of a bundle. *)
Definition denominations (coins : Coins) : list string :=
  remove_dups (Denom <$> coins).

(** [l] followed by the reads of [m]. *)
Definition prepend {A} (l : list Lookup) (m : M A) : M A :=
  (l ++ lookups m, outcome m).

(** *** Changing the flags of a registry *)

Definition withFlag (flag : string -> bool) (cfg : HostChainFeeAbsConfig)
  : HostChainFeeAbsConfig :=
  {| IbcDenom := IbcDenom cfg; enabled := flag (IbcDenom cfg) |}.

(** The same resolver over a registry whose flags are set by [flag]. *)
Definition reflag (flag : string -> bool) (r : DenomResolverImpl) : DenomResolverImpl :=
  {| FeeabsKeeper_ :=
       {| hostZoneConfigs := withFlag flag <$> hostZoneConfigs (FeeabsKeeper_ r);
          twapRates := twapRates (FeeabsKeeper_ r);
          sk := sk (FeeabsKeeper_ r) |};
     StakingKeeper_ := StakingKeeper_ r |}.

(** *** Sample states *)

Definition sampleStaking : StakingKeeper := mkStakingKeeper (Ok "ueve").

(** A decimal from its integer part and its 18-digit fraction. *)
Definition decimal (units fraction : Z) : LegacyDec :=
  mkDec (units * precisionReuse + fraction).

(** One Host Zone Config, for ["ibc/XYZ"], with the given flag and rate. *)
Definition sampleKeeper (flag : bool) (rate : LegacyDec) : FeeabsKeeper :=
  {| hostZoneConfigs := {[ "ibc/XYZ" := mkHostZone "ibc/XYZ" flag ]};
     twapRates := {[ "ibc/XYZ" := rate ]};
     sk := sampleStaking |}.

Definition sampleResolver (flag : bool) (rate : LegacyDec) : DenomResolverImpl :=
  {| FeeabsKeeper_ := sampleKeeper flag rate; StakingKeeper_ := sampleStaking |}.

End Resolver.

(* ===================================================================== *)
(** ** More of the constructor's options *)
(* ===================================================================== *)

Module AnteMore.
Import Ante.

(** The options with the embedded (shadowed) account keeper replaced. *)
Definition withEmbeddedAccountKeeper (ak : option AccountKeeper)
    (options : HandlerOptions) : HandlerOptions :=
  {| embedded :=
       {| sdk_AccountKeeper := ak;
          BankKeeper_ := BankKeeper_ (embedded options);
          ExtensionOptionChecker_ := ExtensionOptionChecker_ (embedded options);
          FeegrantKeeper_ := FeegrantKeeper_ (embedded options);
          SignModeHandler_ := SignModeHandler_ (embedded options);
          SigGasConsumer_ := SigGasConsumer_ (embedded options);
          TxFeeChecker_ := TxFeeChecker_ (embedded options) |};
     IBCKeeper_ := IBCKeeper_ options;
     WasmConfig_ := WasmConfig_ options;
     WasmKeeper_ := WasmKeeper_ options;
     TXCounterStoreService_ := TXCounterStoreService_ options;
     CircuitKeeper_ := CircuitKeeper_ options;
     FeeMarketKeeper_ := FeeMarketKeeper_ options;
     AccountKeeper_ := AccountKeeper_ options |}.

(** Options as a caller fills them who sets the account keeper of the
    embedded SDK options only. *)
Definition optionsEmbeddedKeeperOnly : HandlerOptions :=
  {| embedded :=
       {| sdk_AccountKeeper := Some (AccountKeeperRef 0);
          BankKeeper_ := Some (BankKeeperRef 0);
          ExtensionOptionChecker_ := None;
          FeegrantKeeper_ := Some (FeegrantKeeperRef 0);
          SignModeHandler_ := Some (SignModeHandlerRef 0);
          SigGasConsumer_ := Some (SigGasConsumerRef 0);
          TxFeeChecker_ := None |};
     IBCKeeper_ := Some (IBCKeeperRef 0);
     WasmConfig_ := Some (mkWasmConfig None);
     WasmKeeper_ := Some (mkWasmKeeper (GasRegisterRef 0));
     TXCounterStoreService_ := Some (KVStoreServiceRef 0);
     CircuitKeeper_ := Some (CircuitKeeperRef 0);
     FeeMarketKeeper_ := None;
     AccountKeeper_ := None |}.

End AnteMore.

(* ===================================================================== *)
(** ** Running the decorator chain *)
(* ===================================================================== *)

Module AnteRun.
Import Ante.

(** [NewAnteHandler] returns [sdk.ChainAnteDecorators(anteDecorators...)]:
    the handler that calls [AnteHandle] of the first decorator with the
    handler of the rest of the chain as [next]; after the last decorator
    [next] returns without an error. The bodies of [AnteHandle] are code of
    the dependencies. Of a decorator's work on a transaction a run keeps the
    control flow: the decorator returns an error, or it hands over to
    [next]. *)














End AnteRun.

(* ===================================================================== *)
(** ** The airdrop utilities ([airdrop/utils/utils.go]) *)
(* ===================================================================== *)

Module Utils.

(** *** [FindValidatorInfo] and [FindValidatorInfoCustomType] *)

Section FindValidator.

(** The validator type ([stakingtypes.Validator] for the first function,
    [config.Validator] for the second) enters through the one field the
    loops read. *)
Variable Validator : Type.
Variable OperatorAddress : Validator -> string.

(** [for key, v := range validators]: the loop from index [key] on. *)
Fixpoint FindValidatorInfoFrom (key : Z) (validators : list Validator)
    (address : string) : Z :=
  match validators with
  | [] => -1
  | v :: rest =>
      if String.eqb (OperatorAddress v) address then key
      else FindValidatorInfoFrom (key + 1) rest address
  end.

Definition FindValidatorInfo (validators : list Validator) (address : string) : Z :=
  FindValidatorInfoFrom 0 validators address.

Definition FindValidatorInfoCustomType (validators : list Validator)
    (address : string) : Z :=
  FindValidatorInfoFrom 0 validators address.

End FindValidator.

Arguments FindValidatorInfoFrom {Validator} OperatorAddress key validators address.
Arguments FindValidatorInfo {Validator} OperatorAddress validators address.
Arguments FindValidatorInfoCustomType {Validator} OperatorAddress validators address.

(** *** [RetryableBalanceFunc] *)

Section Retry.

(** [banktypes.Balance], [config.Reward] and the errors of the wrapped
    function are carried, never inspected. *)
Variables Balance Reward FnError : Type.

(** What the wrapped function acts on when called: the world it queries. *)
Variable World : Type.

(** [config.MaxRetries], a constant of the config package. *)
Variable MaxRetries : Z.

(** [BalanceFunction]: a call changes the world and yields balances,
    rewards and a length, or an error. *)
Definition BalanceFunction : Type :=
  World -> World * (list Balance * list Reward * Z + FnError).

(** The error of the wrapper, naming the function. *)
Variant RetryError : Type :=
| MaximumRetriesReached (functionName : string).

(** A line printed for a failed attempt: its number, the function's name
    and the error. *)
Record FailedAttempt := mkFailedAttempt {
  attemptNumber : Z;
  attemptFunction : string;
  attemptError : FnError
}.

(** The loop [for attempt := 1; attempt <= MaxRetries; attempt++], with
    [remaining] the number of iterations still allowed by its bound. *)
Fixpoint retryLoop (remaining : nat) (attempt : Z) (fn : BalanceFunction)
    (functionName : string) (w : World) (printed : list FailedAttempt)
  : World * list FailedAttempt * (list Balance * list Reward * Z + RetryError) :=
  match remaining with
  | O => (w, printed, inr (MaximumRetriesReached functionName))
  | S remaining' =>
      let '(w', result) := fn w in
      match result with
      | inl values => (w', printed, inl values)
      | inr err =>
          retryLoop remaining' (attempt + 1) fn functionName w'
            (printed ++ [mkFailedAttempt attempt functionName err])
      end
  end.

(** [RetryableBalanceFunc fn], called in world [w]; [functionName] is what
    [GetFunctionName fn] returns. *)
Definition RetryableBalanceFunc (fn : BalanceFunction) (functionName : string)
    (w : World)
  : World * list FailedAttempt * (list Balance * list Reward * Z + RetryError) :=
  retryLoop (Z.to_nat MaxRetries) 1 fn functionName w [].

(** The first [k] calls of [fn] from [w], if they all fail: the world they
    leave and their errors, in order. *)
Fixpoint failing (k : nat) (fn : BalanceFunction) (w : World)
  : option (World * list FnError) :=
  match k with
  | O => Some (w, [])
  | S k' =>
      let '(w', result) := fn w in
      match result with
      | inl _ => None
      | inr err =>
          match failing k' fn w' with
          | Some (w'', errs) => Some (w'', err :: errs)
          | None => None
          end
      end
  end.

(** The lines printed for these errors, numbered from [first]. *)
Fixpoint printedFrom (first : Z) (functionName : string) (errs : list FnError)
  : list FailedAttempt :=
  match errs with
  | [] => []
  | err :: rest =>
      mkFailedAttempt first functionName err :: printedFrom (first + 1) functionName rest
  end.

End Retry.

Arguments BalanceFunction : clear implicits.
Arguments mkFailedAttempt {FnError} attemptNumber attemptFunction attemptError.
Arguments retryLoop {Balance Reward FnError World}
  remaining attempt fn functionName w printed.
Arguments RetryableBalanceFunc {Balance Reward FnError World}
  MaxRetries fn functionName w.
Arguments failing {Balance Reward FnError World} k fn w.
Arguments printedFrom {FnError} first functionName errs.

(** *** Sample inputs *)

(** A query that fails twice, then answers; the world counts the calls. *)
Definition flakyQuery : BalanceFunction string string string nat :=
  fun calls =>
    (S calls,
     if (calls <? 2)%nat then inr "unavailable"%string
     else inl (["balance"%string], ["reward"%string], 1)).

(** A query that always fails. *)
Definition deadQuery : BalanceFunction string string string nat :=
  fun calls => (S calls, inr "unavailable"%string).

End Utils.

(* ===================================================================== *)
(** ** The claim messages on the wire (generated from [eve/claim/v1beta1/tx.proto]) *)
(* ===================================================================== *)

(** The generated code of [eve/claim/v1beta1/tx.proto]: the string
    messages [MsgInitialClaim] and [MsgClaim] with [Size], [Marshal],
    [MarshalToSizedBuffer] and [Unmarshal], and the helpers
    [encodeVarintTx], [sovTx], [sozTx] and [skipTx]. Go's [int] and
    [uint64] are integers with their wrap-around written out; a buffer is
    a list of bytes; writing to a buffer returns the new buffer. *)

Module ClaimTx.

(** *** Machine integers and bytes *)

(** A byte as a number, and [uint8(x)]. *)
Definition byteZ (b : Byte.byte) : Z := Z.of_N (Byte.to_N b).

Definition uint8 (x : Z) : Byte.byte :=
  match Byte.of_N (Z.to_N (x mod 256)) with
  | Some b => b
  | None => Byte.x00
  end.

(** Conversions to [uint64], [int] (64 bits) and [int32]: the low bits are
    kept. *)
Definition uint64 (x : Z) : Z := x mod 2 ^ 64.
Definition int (x : Z) : Z := (x + 2 ^ 63) mod 2 ^ 64 - 2 ^ 63.
Definition int32 (x : Z) : Z := (x + 2 ^ 31) mod 2 ^ 32 - 2 ^ 31.

(** [len] of a slice, and of a string. *)
Definition len {A} (s : list A) : Z := Z.of_nat (length s).
Definition lenString (s : string) : Z := Z.of_nat (String.length s).

(** *** Outcomes *)

Inductive ProtoError : Type :=
| ErrInvalidLengthTx
    (* "proto: negative length found during unmarshaling" *)
| ErrIntOverflowTx
    (* "proto: integer overflow" *)
| ErrUnexpectedEndOfGroupTx
    (* "proto: unexpected end of group" *)
| ErrUnexpectedEOF
    (* io.ErrUnexpectedEOF *)
| ErrWiretypeEndGroup (message : string)
    (* "proto: <message>: wiretype end group for non-group" *)
| ErrIllegalTag (message : string) (fieldNum wire : Z)
    (* "proto: <message>: illegal tag %d (wire type %d)" *)
| ErrWrongWireType (wireType : Z) (field : string)
    (* "proto: wrong wireType = %d for field <field>" *)
| ErrIllegalWireType (wireType : Z).
    (* "proto: illegal wireType %d" *)

(** A call returns, returns an error, panics, or is cut short by the
    bound put on its loops here. *)
Inductive Run (A : Type) : Type :=
| Done (a : A)
| Fail (e : ProtoError)
| Crash (msg : string)
| OutOfFuel.

Arguments Done {A} a.
Arguments Fail {A} e.
Arguments Crash {A} msg.
Arguments OutOfFuel {A}.

(** The call ends as the source's does: with a value or with an error. *)
Definition returns {A} (r : Run A) : bool :=
  match r with
  | Done _ | Fail _ => true
  | Crash _ | OutOfFuel => false
  end.

(** [dAtA[i]]. *)
Definition index (dAtA : list Byte.byte) (i : Z) : option Byte.byte :=
  if i <? 0 then None else dAtA !! Z.to_nat i.

(** [dAtA[i] = b]. *)
Definition setByte (dAtA : list Byte.byte) (i : Z) (b : Byte.byte)
  : Run (list Byte.byte) :=
  if (0 <=? i) && (i <? len dAtA) then Done (<[Z.to_nat i := b]> dAtA)
  else Crash "index out of range".

(** [copy(dAtA[i:], src)]: the slice expression panics out of range; [copy]
    writes as many bytes as fit. *)
Definition copyAt (dAtA : list Byte.byte) (i : Z) (src : list Byte.byte)
  : Run (list Byte.byte) :=
  if (0 <=? i) && (i <=? len dAtA) then
    let n := Nat.min (length src) (length dAtA - Z.to_nat i) in
    Done (take (Z.to_nat i) dAtA ++ take n src ++ drop (Z.to_nat i + n) dAtA)
  else Crash "slice bounds out of range".

(** [dAtA[lo:hi]]. *)
Definition slice (dAtA : list Byte.byte) (lo hi : Z) : Run (list Byte.byte) :=
  if (0 <=? lo) && (lo <=? hi) && (hi <=? len dAtA)
  then Done (take (Z.to_nat (hi - lo)) (drop (Z.to_nat lo) dAtA))
  else Crash "slice bounds out of range".

(** *** Sizes of varints *)

(** [math/bits.Len64]: the number of bits needed to write [x]. *)
Definition Len64 (x : Z) : Z := if x =? 0 then 0 else Z.log2 x + 1.

Definition sovTx (x : Z) : Z := (Len64 (Z.lor x 1) + 6) / 7.

Definition sozTx (x : Z) : Z :=
  sovTx (uint64 (Z.lxor (uint64 (Z.shiftl x 1)) (uint64 (Z.shiftr (int x) 63)))).

(** *** Writing a varint *)

(** The loop of [encodeVarintTx]: [for v >= 1<<7 { ... }], then the last
    byte. A [uint64] has at most ten groups of seven bits. *)
Fixpoint encodeVarintLoop (fuel : nat) (dAtA : list Byte.byte) (offset v : Z)
  : Run (list Byte.byte) :=
  match fuel with
  | O => OutOfFuel
  | S fuel' =>
      if 128 <=? v then
        match setByte dAtA offset (uint8 (Z.lor (Z.land v 127) 128)) with
        | Done dAtA' => encodeVarintLoop fuel' dAtA' (offset + 1) (Z.shiftr v 7)
        | other => other
        end
      else setByte dAtA offset (uint8 v)
  end.

(** [encodeVarintTx]: the buffer as written, and [base]. *)
Definition encodeVarintTx (dAtA : list Byte.byte) (offset v : Z)
  : Run (list Byte.byte * Z) :=
  let offset := offset - sovTx v in
  let base := offset in
  match encodeVarintLoop 10 dAtA offset v with
  | Done dAtA' => Done (dAtA', base)
  | Fail e => Fail e
  | Crash msg => Crash msg
  | OutOfFuel => OutOfFuel
  end.

(** *** Reading varints *)

(** The loop [for shift := uint(0); ; shift += 7] that reads a [uint64]:
    the value read and the index after it. It ends by the eleventh round,
    where [shift >= 64]. *)
Fixpoint readUvarint (fuel : nat) (dAtA : list Byte.byte) (l iNdEx shift acc : Z)
  : Run (Z * Z) :=
  match fuel with
  | O => OutOfFuel
  | S fuel' =>
      if 64 <=? shift then Fail ErrIntOverflowTx
      else if l <=? iNdEx then Fail ErrUnexpectedEOF
      else
        match index dAtA iNdEx with
        | None => Crash "index out of range"
        | Some b =>
            let iNdEx := iNdEx + 1 in
            let acc := Z.lor acc (uint64 (Z.shiftl (Z.land (byteZ b) 127) shift)) in
            if byteZ b <? 128 then Done (acc, iNdEx)
            else readUvarint fuel' dAtA l iNdEx (shift + 7) acc
        end
  end.

(** The same loop in [skipTx], case 0: the bytes are passed over. *)
Fixpoint skipVarint (fuel : nat) (dAtA : list Byte.byte) (l iNdEx shift : Z)
  : Run Z :=
  match fuel with
  | O => OutOfFuel
  | S fuel' =>
      if 64 <=? shift then Fail ErrIntOverflowTx
      else if l <=? iNdEx then Fail ErrUnexpectedEOF
      else
        let iNdEx := iNdEx + 1 in
        match index dAtA (iNdEx - 1) with
        | None => Crash "index out of range"
        | Some b =>
            if byteZ b <? 128 then Done iNdEx
            else skipVarint fuel' dAtA l iNdEx (shift + 7)
        end
  end.

(** The same loop in [skipTx], case 2: the length is gathered in an [int]. *)
Fixpoint readLength (fuel : nat) (dAtA : list Byte.byte) (l iNdEx shift length : Z)
  : Run (Z * Z) :=
  match fuel with
  | O => OutOfFuel
  | S fuel' =>
      if 64 <=? shift then Fail ErrIntOverflowTx
      else if l <=? iNdEx then Fail ErrUnexpectedEOF
      else
        match index dAtA iNdEx with
        | None => Crash "index out of range"
        | Some b =>
            let iNdEx := iNdEx + 1 in
            let length := Z.lor length (int (Z.shiftl (Z.land (byteZ b) 127) shift)) in
            if byteZ b <? 128 then Done (length, iNdEx)
            else readLength fuel' dAtA l iNdEx (shift + 7) length
        end
  end.

(** *** [skipTx] *)

(** One round of the loop of [skipTx] after the tag is read: the index and
    the depth it leaves. *)
Definition skipField (dAtA : list Byte.byte) (l iNdEx depth wireType : Z)
  : Run (Z * Z) :=
  if wireType =? 0 then
    match skipVarint 11 dAtA l iNdEx 0 with
    | Done iNdEx' => Done (iNdEx', depth)
    | Fail e => Fail e
    | Crash msg => Crash msg
    | OutOfFuel => OutOfFuel
    end
  else if wireType =? 1 then Done (int (iNdEx + 8), depth)
  else if wireType =? 2 then
    match readLength 11 dAtA l iNdEx 0 0 with
    | Done (length, iNdEx') =>
        if length <? 0 then Fail ErrInvalidLengthTx
        else Done (int (iNdEx' + length), depth)
    | Fail e => Fail e
    | Crash msg => Crash msg
    | OutOfFuel => OutOfFuel
    end
  else if wireType =? 3 then Done (iNdEx, int (depth + 1))
  else if wireType =? 4 then
    if depth =? 0 then Fail ErrUnexpectedEndOfGroupTx
    else Done (iNdEx, int (depth - 1))
  else if wireType =? 5 then Done (int (iNdEx + 4), depth)
  else Fail (ErrIllegalWireType wireType).

(** The loop [for iNdEx < l] of [skipTx]; every round reads at least the
    byte of a tag. *)
Fixpoint skipLoop (fuel : nat) (dAtA : list Byte.byte) (l iNdEx depth : Z)
  : Run Z :=
  if negb (iNdEx <? l) then Fail ErrUnexpectedEOF
  else
    match fuel with
    | O => OutOfFuel
    | S fuel' =>
        match readUvarint 11 dAtA l iNdEx 0 0 with
        | Done (wire, iNdEx) =>
            let wireType := int (Z.land wire 7) in
            match skipField dAtA l iNdEx depth wireType with
            | Done (iNdEx, depth) =>
                if iNdEx <? 0 then Fail ErrInvalidLengthTx
                else if depth =? 0 then Done iNdEx
                else skipLoop fuel' dAtA l iNdEx depth
            | Fail e => Fail e
            | Crash msg => Crash msg
            | OutOfFuel => OutOfFuel
            end
        | Fail e => Fail e
        | Crash msg => Crash msg
        | OutOfFuel => OutOfFuel
        end
    end.

Definition skipTx (dAtA : list Byte.byte) : Run Z :=
  skipLoop (length dAtA) dAtA (len dAtA) 0 0.

(** *** Blocks shared by the [Unmarshal] methods *)

(** A string field: its length, the bounds checks, the bytes. *)
Definition readStringField (dAtA : list Byte.byte) (l iNdEx : Z) : Run (string * Z) :=
  match readUvarint 11 dAtA l iNdEx 0 0 with
  | Done (stringLen, iNdEx) =>
      let intStringLen := int stringLen in
      if intStringLen <? 0 then Fail ErrInvalidLengthTx
      else
        let postIndex := int (iNdEx + intStringLen) in
        if postIndex <? 0 then Fail ErrInvalidLengthTx
        else if l <? postIndex then Fail ErrUnexpectedEOF
        else
          match slice dAtA iNdEx postIndex with
          | Done bytes => Done (String.string_of_list_byte bytes, postIndex)
          | Fail e => Fail e
          | Crash msg => Crash msg
          | OutOfFuel => OutOfFuel
          end
  | Fail e => Fail e
  | Crash msg => Crash msg
  | OutOfFuel => OutOfFuel
  end.

(** The [default] case: an unknown field is skipped from [preIndex]. *)
Definition skipUnknown (dAtA : list Byte.byte) (l preIndex : Z) : Run Z :=
  let iNdEx := preIndex in
  match slice dAtA iNdEx (len dAtA) with
  | Done rest =>
      match skipTx rest with
      | Done skippy =>
          if (skippy <? 0) || (int (iNdEx + skippy) <? 0) then Fail ErrInvalidLengthTx
          else if l <? int (iNdEx + skippy) then Fail ErrUnexpectedEOF
          else Done (int (iNdEx + skippy))
      | Fail e => Fail e
      | Crash msg => Crash msg
      | OutOfFuel => OutOfFuel
      end
  | Fail e => Fail e
  | Crash msg => Crash msg
  | OutOfFuel => OutOfFuel
  end.

(** A string field written by [MarshalToSizedBuffer], from index [i]
    backwards: the bytes, the length, the tag. *)
Definition writeStringField (dAtA : list Byte.byte) (i : Z) (s : string)
    (tag : Byte.byte) : Run (list Byte.byte * Z) :=
  let i := int (i - lenString s) in
  match copyAt dAtA i (String.list_byte_of_string s) with
  | Done dAtA =>
      match encodeVarintTx dAtA i (uint64 (lenString s)) with
      | Done (dAtA, i) =>
          let i := int (i - 1) in
          match setByte dAtA i tag with
          | Done dAtA => Done (dAtA, i)
          | Fail e => Fail e
          | Crash msg => Crash msg
          | OutOfFuel => OutOfFuel
          end
      | Fail e => Fail e
      | Crash msg => Crash msg
      | OutOfFuel => OutOfFuel
      end
  | Fail e => Fail e
  | Crash msg => Crash msg
  | OutOfFuel => OutOfFuel
  end.

(** The term a string field adds in [Size]. *)
Definition sizeStringField (s : string) : Z :=
  let l := lenString s in
  if 0 <? l then 1 + l + sovTx (uint64 l) else 0.

(** [make([]byte, size)]. *)
Definition make (size : Z) : list Byte.byte := replicate (Z.to_nat size) Byte.x00.

(** *** [MsgClaim] *)

Record MsgClaim := mkMsgClaim {
  Sender : string;
  Address : string
}.

(** [Size]; a nil receiver has size 0. *)
Definition MsgClaim_Size (m : option MsgClaim) : Z :=
  match m with
  | None => 0
  | Some m => int (int (0 + sizeStringField (Sender m)) + sizeStringField (Address m))
  end.

Definition MsgClaim_MarshalToSizedBuffer (m : MsgClaim) (dAtA : list Byte.byte)
  : Run (list Byte.byte * Z) :=
  let i := len dAtA in
  let afterAddress :=
    if 0 <? lenString (Address m)
    then writeStringField dAtA i (Address m) Byte.x12
    else Done (dAtA, i) in
  match afterAddress with
  | Done (dAtA', i) =>
      let afterSender :=
        if 0 <? lenString (Sender m)
        then writeStringField dAtA' i (Sender m) Byte.x0a
        else Done (dAtA', i) in
      match afterSender with
      | Done (dAtA'', i) => Done (dAtA'', len dAtA - i)
      | other => other
      end
  | other => other
  end.

Definition MsgClaim_Marshal (m : MsgClaim) : Run (list Byte.byte) :=
  let size := MsgClaim_Size (Some m) in
  let dAtA := make size in
  match slice dAtA 0 size with
  | Done buffer =>
      match MsgClaim_MarshalToSizedBuffer m buffer with
      | Done (written, n) => slice written 0 n
      | Fail e => Fail e
      | Crash msg => Crash msg
      | OutOfFuel => OutOfFuel
      end
  | other => other
  end.

(** The loop [for iNdEx < l] of [Unmarshal]; every round reads at least
    the byte of a tag. The message is returned as the call leaves it, also
    on an error. *)
Fixpoint MsgClaim_unmarshalLoop (fuel : nat) (dAtA : list Byte.byte) (l iNdEx : Z)
    (m : MsgClaim) : MsgClaim * Run unit :=
  if negb (iNdEx <? l) then
    if l <? iNdEx then (m, Fail ErrUnexpectedEOF) else (m, Done tt)
  else
    match fuel with
    | O => (m, OutOfFuel)
    | S fuel' =>
        let preIndex := iNdEx in
        match readUvarint 11 dAtA l iNdEx 0 0 with
        | Done (wire, iNdEx) =>
            let fieldNum := int32 (Z.shiftr wire 3) in
            let wireType := int (Z.land wire 7) in
            if wireType =? 4 then (m, Fail (ErrWiretypeEndGroup "MsgClaim"))
            else if fieldNum <=? 0 then (m, Fail (ErrIllegalTag "MsgClaim" fieldNum wire))
            else if fieldNum =? 1 then
              if negb (wireType =? 2) then (m, Fail (ErrWrongWireType wireType "Sender"))
              else
                match readStringField dAtA l iNdEx with
                | Done (s, postIndex) =>
                    MsgClaim_unmarshalLoop fuel' dAtA l postIndex
                      {| Sender := s; Address := Address m |}
                | Fail e => (m, Fail e)
                | Crash msg => (m, Crash msg)
                | OutOfFuel => (m, OutOfFuel)
                end
            else if fieldNum =? 2 then
              if negb (wireType =? 2) then (m, Fail (ErrWrongWireType wireType "Address"))
              else
                match readStringField dAtA l iNdEx with
                | Done (s, postIndex) =>
                    MsgClaim_unmarshalLoop fuel' dAtA l postIndex
                      {| Sender := Sender m; Address := s |}
                | Fail e => (m, Fail e)
                | Crash msg => (m, Crash msg)
                | OutOfFuel => (m, OutOfFuel)
                end
            else
              match skipUnknown dAtA l preIndex with
              | Done iNdEx => MsgClaim_unmarshalLoop fuel' dAtA l iNdEx m
              | Fail e => (m, Fail e)
              | Crash msg => (m, Crash msg)
              | OutOfFuel => (m, OutOfFuel)
              end
        | Fail e => (m, Fail e)
        | Crash msg => (m, Crash msg)
        | OutOfFuel => (m, OutOfFuel)
        end
    end.

Definition MsgClaim_Unmarshal (m : MsgClaim) (dAtA : list Byte.byte)
  : MsgClaim * Run unit :=
  MsgClaim_unmarshalLoop (length dAtA) dAtA (len dAtA) 0 m.

(** *** [MsgInitialClaim] *)

Record MsgInitialClaim := mkMsgInitialClaim {
  InitialSender : string   (* the field [Sender] *)
}.

Definition MsgInitialClaim_Size (m : option MsgInitialClaim) : Z :=
  match m with
  | None => 0
  | Some m => int (0 + sizeStringField (InitialSender m))
  end.

Definition MsgInitialClaim_MarshalToSizedBuffer (m : MsgInitialClaim)
    (dAtA : list Byte.byte) : Run (list Byte.byte * Z) :=
  let i := len dAtA in
  let afterSender :=
    if 0 <? lenString (InitialSender m)
    then writeStringField dAtA i (InitialSender m) Byte.x0a
    else Done (dAtA, i) in
  match afterSender with
  | Done (dAtA', i) => Done (dAtA', len dAtA - i)
  | other => other
  end.

Definition MsgInitialClaim_Marshal (m : MsgInitialClaim) : Run (list Byte.byte) :=
  let size := MsgInitialClaim_Size (Some m) in
  let dAtA := make size in
  match slice dAtA 0 size with
  | Done buffer =>
      match MsgInitialClaim_MarshalToSizedBuffer m buffer with
      | Done (written, n) => slice written 0 n
      | Fail e => Fail e
      | Crash msg => Crash msg
      | OutOfFuel => OutOfFuel
      end
  | other => other
  end.

Fixpoint MsgInitialClaim_unmarshalLoop (fuel : nat) (dAtA : list Byte.byte)
    (l iNdEx : Z) (m : MsgInitialClaim) : MsgInitialClaim * Run unit :=
  if negb (iNdEx <? l) then
    if l <? iNdEx then (m, Fail ErrUnexpectedEOF) else (m, Done tt)
  else
    match fuel with
    | O => (m, OutOfFuel)
    | S fuel' =>
        let preIndex := iNdEx in
        match readUvarint 11 dAtA l iNdEx 0 0 with
        | Done (wire, iNdEx) =>
            let fieldNum := int32 (Z.shiftr wire 3) in
            let wireType := int (Z.land wire 7) in
            if wireType =? 4 then (m, Fail (ErrWiretypeEndGroup "MsgInitialClaim"))
            else if fieldNum <=? 0
            then (m, Fail (ErrIllegalTag "MsgInitialClaim" fieldNum wire))
            else if fieldNum =? 1 then
              if negb (wireType =? 2) then (m, Fail (ErrWrongWireType wireType "Sender"))
              else
                match readStringField dAtA l iNdEx with
                | Done (s, postIndex) =>
                    MsgInitialClaim_unmarshalLoop fuel' dAtA l postIndex
                      {| InitialSender := s |}
                | Fail e => (m, Fail e)
                | Crash msg => (m, Crash msg)
                | OutOfFuel => (m, OutOfFuel)
                end
            else
              match skipUnknown dAtA l preIndex with
              | Done iNdEx => MsgInitialClaim_unmarshalLoop fuel' dAtA l iNdEx m
              | Fail e => (m, Fail e)
              | Crash msg => (m, Crash msg)
              | OutOfFuel => (m, OutOfFuel)
              end
        | Fail e => (m, Fail e)
        | Crash msg => (m, Crash msg)
        | OutOfFuel => (m, OutOfFuel)
        end
    end.

Definition MsgInitialClaim_Unmarshal (m : MsgInitialClaim) (dAtA : list Byte.byte)
  : MsgInitialClaim * Run unit :=
  MsgInitialClaim_unmarshalLoop (length dAtA) dAtA (len dAtA) 0 m.

(** *** The wire format, in closed form *)

(** The bytes of a varint of [groups + 1] groups: seven bits a byte, low
    groups first, the high bit set on all but the last. *)
Fixpoint varintBytes (groups : nat) (v : Z) : list Byte.byte :=
  match groups with
  | O => [uint8 v]
  | S groups' => uint8 (v mod 128 + 128) :: varintBytes groups' (v / 128)
  end.

Definition varint (v : Z) : list Byte.byte :=
  varintBytes (Z.to_nat (sovTx v - 1)) v.

(** The buffer [d] with [xs] written over it from index [j] on. *)
Definition splice {A} (d : list A) (j : nat) (xs : list A) : list A :=
  take j d ++ xs ++ drop (j + length xs) d.

(** A string field on the wire: nothing for the empty string, else the
    tag, the length and the bytes. *)
Definition stringField (tag : Byte.byte) (s : string) : list Byte.byte :=
  if String.eqb s "" then []
  else tag :: varint (lenString s) ++ String.list_byte_of_string s.

Definition MsgClaim_wire (m : MsgClaim) : list Byte.byte :=
  stringField Byte.x0a (Sender m) ++ stringField Byte.x12 (Address m).

(** What decoding [m] over [old] leaves: the fields [m] sets, the others
    as they were. *)
Definition overString (new old : string) : string :=
  if String.eqb new "" then old else new.

Definition MsgClaim_over (m old : MsgClaim) : MsgClaim :=
  {| Sender := overString (Sender m) (Sender old);
     Address := overString (Address m) (Address old) |}.

Definition MsgInitialClaim_wire (m : MsgInitialClaim) : list Byte.byte :=
  stringField Byte.x0a (InitialSender m).

(** The value of a field that a message does not have, by wire type. *)
Inductive Payload : Type :=
| Varint (v : Z)                      (* wire type 0 *)
| Fixed64 (bytes : list Byte.byte)    (* wire type 1: eight bytes *)
| Bytes (bytes : list Byte.byte)      (* wire type 2: a length, then the bytes *)
| Fixed32 (bytes : list Byte.byte).   (* wire type 5: four bytes *)

Definition wireTypeOf (p : Payload) : Z :=
  match p with
  | Varint _ => 0
  | Fixed64 _ => 1
  | Bytes _ => 2
  | Fixed32 _ => 5
  end.

Definition payloadBytes (p : Payload) : list Byte.byte :=
  match p with
  | Varint v => varint v
  | Fixed64 bytes => bytes
  | Bytes bytes => varint (len bytes) ++ bytes
  | Fixed32 bytes => bytes
  end.

Definition wellFormed (p : Payload) : Prop :=
  match p with
  | Varint v => 0 <= v < 2 ^ 64
  | Fixed64 bytes => length bytes = 8%nat
  | Bytes _ => True
  | Fixed32 bytes => length bytes = 4%nat
  end.

(** A field on the wire: the tag, then the value. *)
Definition field (fieldNum : Z) (p : Payload) : list Byte.byte :=
  varint (fieldNum * 8 + wireTypeOf p) ++ payloadBytes p.

(** Messages decoded one after the other over [old], and their encodings
    one after the other. *)
Definition MsgClaim_merge (old : MsgClaim) (ms : list MsgClaim) : MsgClaim :=
  foldl (fun old m => MsgClaim_over m old) old ms.

Definition MsgClaim_wires (ms : list MsgClaim) : list Byte.byte :=
  concat (MsgClaim_wire <$> ms).

(** Sample values. *)
Definition sampleClaim : MsgClaim := mkMsgClaim "eve1abc" "cosmos1xyz".

Definition sampleSender : MsgClaim := mkMsgClaim "eve1def" "".

Definition sampleInitialClaim : MsgInitialClaim := mkMsgInitialClaim "eve1abc".

End ClaimTx.

(* ===================================================================== *)
(** ** Facts about the decorator chain *)
(* ===================================================================== *)

Module AnteFacts.
Import Ante AnteRun.

(** Whenever the constructor returns a handler, its chain is the slice
    literal of the source, in order. *)
Lemma NewAnteHandler_chain options h :
  NewAnteHandler options = Ok h ->
  exists gasLimit gr,
    decorators h =
      [ SetUpContextDecorator;
        LimitSimulationGasDecorator gasLimit;
        CountTXDecorator (TXCounterStoreService_ options);
        GasRegisterDecorator gr;
        CircuitBreakerDecorator (CircuitKeeper_ options);
        ExtensionOptionsDecorator (ExtensionOptionChecker_ (embedded options));
        FeeMarketCheckDecorator
          (FeeMarketKeeper_ options)
          (DeductFeeDecorator (AccountKeeper_ options) (BankKeeper_ (embedded options))
             (FeegrantKeeper_ (embedded options)) (TxFeeChecker_ (embedded options)));
        ValidateBasicDecorator;
        TxTimeoutHeightDecorator;
        ValidateMemoDecorator (AccountKeeper_ options);
        ConsumeGasForTxSizeDecorator (AccountKeeper_ options);
        DeductFeeDecorator (AccountKeeper_ options) (BankKeeper_ (embedded options))
          (FeegrantKeeper_ (embedded options)) (TxFeeChecker_ (embedded options));
        SetPubKeyDecorator (AccountKeeper_ options);
        ValidateSigCountDecorator (AccountKeeper_ options);
        SigGasConsumeDecorator (AccountKeeper_ options) (SigGasConsumer_ (embedded options));
        SigVerificationDecorator (AccountKeeper_ options) (SignModeHandler_ (embedded options));
        IncrementSequenceDecorator (AccountKeeper_ options);
        RedundantRelayDecorator (IBCKeeper_ options) ].
Proof.
  unfold NewAnteHandler. intros H.
  destruct (AccountKeeper_ options); [|discriminate].
  destruct (BankKeeper_ (embedded options)); [|discriminate].
  destruct (SignModeHandler_ (embedded options)); [|discriminate].
  destruct (WasmConfig_ options) as [wasmConfig|]; [|discriminate].
  destruct (TXCounterStoreService_ options); [|discriminate].
  destruct (CircuitKeeper_ options); [|discriminate].
  destruct (GetGasRegister (WasmKeeper_ options)) as [gr| |]; [|discriminate..].
  injection H as <-. exists (SimulationGasLimit wasmConfig), gr. reflexivity.
Qed.

(** The constructor returns an error exactly when one of the six checked
    dependencies is nil. *)
Lemma NewAnteHandler_error_iff options :
  isErr (NewAnteHandler options) = negb (requiredPresent options).
Proof.
  unfold NewAnteHandler, requiredPresent.
  destruct (AccountKeeper_ options); [|reflexivity].
  destruct (BankKeeper_ (embedded options)); [|reflexivity].
  destruct (SignModeHandler_ (embedded options)); [|reflexivity].
  destruct (WasmConfig_ options); [|reflexivity].
  destruct (TXCounterStoreService_ options); [|reflexivity].
  destruct (CircuitKeeper_ options); [|reflexivity].
  destruct (WasmKeeper_ options); reflexivity.
Qed.

(** With the six and the wasm keeper set, the constructor returns a handler. *)
Lemma NewAnteHandler_returns options :
  requiredPresent options = true ->
  is_Some (WasmKeeper_ options) ->
  isOk (NewAnteHandler options) = true.
Proof.
  unfold NewAnteHandler, requiredPresent. intros Hreq [wk Hwk].
  destruct (AccountKeeper_ options); [|discriminate].
  destruct (BankKeeper_ (embedded options)); [|discriminate].
  destruct (SignModeHandler_ (embedded options)); [|discriminate].
  destruct (WasmConfig_ options); [|discriminate].
  destruct (TXCounterStoreService_ options); [|discriminate].
  destruct (CircuitKeeper_ options); [|discriminate].
  rewrite Hwk. reflexivity.
Qed.

(** Deciding [precedes] on a chain whose positions are known. *)
Lemma precedes_singletons a b chain i j :
  topPositions a chain = [i] ->
  topPositions b chain = [j] ->
  (i < j)%nat ->
  precedes a b chain.
Proof.
  intros Ha Hb Hlt. unfold precedes. rewrite Ha, Hb.
  split; [discriminate|]. split; [discriminate|].
  intros i' j' Hi Hj.
  apply list_elem_of_singleton in Hi, Hj. subst. exact Hlt.
Qed.


(** *** The specification's statements about the chain *)

(** Positions are read off the chain by computation. *)
Ltac by_positions Hchain i j :=
  rewrite Hchain;
  apply (precedes_singletons _ _ _ i j); [reflexivity | reflexivity | lia].




(** C7: whenever [NewAnteHandler] returns a handler, the public-key stage
    comes before the signature-count, signature-gas, signature-verification
    and sequence-increment stages; the sequence increment comes after
    signature verification, and after every other signer-related stage. *)
Theorem C7_pubkey_first_sequence_last options h :
  NewAnteHandler options = Ok h ->
  (forall s, s ∈ [ValidateSigCount; SigGasConsume; SigVerification; IncrementSequence] ->
     precedes SetPubKey s (decorators h)) /\
  precedes SigVerification IncrementSequence (decorators h) /\
  (forall s, s ∈ signerStages -> s ≠ IncrementSequence ->
     precedes s IncrementSequence (decorators h)).
Proof.
  intros H. destruct (NewAnteHandler_chain _ _ H) as (gasLimit & gr & Hc).
  split; [|split].
  - intros s Hs.
    repeat (apply elem_of_cons in Hs as [->|Hs]);
      [ by_positions Hc 12%nat 13%nat | by_positions Hc 12%nat 14%nat
      | by_positions Hc 12%nat 15%nat | by_positions Hc 12%nat 16%nat | ].
    by apply elem_of_nil in Hs.
  - by_positions Hc 15%nat 16%nat.
  - intros s Hs Hne. unfold signerStages in Hs.
    repeat (apply elem_of_cons in Hs as [->|Hs]);
      [ by_positions Hc 12%nat 16%nat | by_positions Hc 13%nat 16%nat
      | by_positions Hc 14%nat 16%nat | by_positions Hc 15%nat 16%nat
      | done | ].
    by apply elem_of_nil in Hs.
Qed.

Lemma C7_pubkey_first_sequence_last_witness :
  exists h, NewAnteHandler optionsComplete = Ok h /\
    (forall s, s ∈ [ValidateSigCount; SigGasConsume; SigVerification; IncrementSequence] ->
       precedes SetPubKey s (decorators h)) /\
    precedes SigVerification IncrementSequence (decorators h) /\
    (forall s, s ∈ signerStages -> s ≠ IncrementSequence ->
       precedes s IncrementSequence (decorators h)).
Proof.
  eexists. split; [reflexivity|].
  apply (C7_pubkey_first_sequence_last optionsComplete _ eq_refl).
Defined.

(** C9 (at the failing input): with the six checked dependencies set and a
    nil wasm keeper, [NewAnteHandler] returns neither a handler nor an
    error: building the gas-register decorator dereferences the nil pointer
    and panics. *)
Theorem C9_nil_wasm_keeper_panics :
  requiredPresent optionsWithoutWasmKeeper = true /\
  WasmKeeper_ optionsWithoutWasmKeeper = None /\
  NewAnteHandler optionsWithoutWasmKeeper
    = Panic "invalid memory address or nil pointer dereference" /\
  isOk (NewAnteHandler optionsWithoutWasmKeeper) = false /\
  isErr (NewAnteHandler optionsWithoutWasmKeeper) = false.
Proof. repeat split. Qed.

(** *** Runs of the chain *)





End AnteFacts.

(* ===================================================================== *)
(** ** Facts about the SDK's decimal arithmetic *)
(* ===================================================================== *)

Module SdkFacts.
Import Sdk Resolver.

Lemma precisionReuse_pos : 0 < precisionReuse.
Proof. reflexivity. Qed.

Lemma fivePrecision_half : 2 * fivePrecision = precisionReuse.
Proof. reflexivity. Qed.

Lemma squaredPrecisionReuse_eq :
  squaredPrecisionReuse = precisionReuse * precisionReuse.
Proof. reflexivity. Qed.

(** On a non-negative input, chopping is rounding to the nearest integer,
    ties to even. *)
Lemma chopPrecisionAndRoundNonNeg_half_even d :
  0 <= d ->
  chopPrecisionAndRoundNonNeg d = round_half_even d precisionReuse.
Proof.
  intros Hd. unfold chopPrecisionAndRoundNonNeg, round_half_even.
  rewrite Z.quot_div_nonneg, Z.rem_mod_nonneg by (done || reflexivity).
  pose proof (Z.mod_pos_bound d precisionReuse precisionReuse_pos) as Hb.
  pose proof fivePrecision_half as H5.
  set (q := d / precisionReuse) in *. set (rem := d mod precisionReuse) in *.
  destruct (Z.eqb_spec rem 0) as [E0|N0].
  - destruct (Z.ltb_spec (2 * rem) precisionReuse); [reflexivity | lia].
  - destruct (Z.compare_spec rem fivePrecision) as [E|L|G].
    + destruct (Z.ltb_spec (2 * rem) precisionReuse); [lia|].
      destruct (Z.ltb_spec precisionReuse (2 * rem)); [lia|].
      rewrite Z.bit0_odd, Z.negb_odd. reflexivity.
    + destruct (Z.ltb_spec (2 * rem) precisionReuse); [reflexivity | lia].
    + destruct (Z.ltb_spec (2 * rem) precisionReuse); [lia|].
      destruct (Z.ltb_spec precisionReuse (2 * rem)); [reflexivity | lia].
Qed.

(** Rounding to even commutes with negation. *)
Lemma round_half_even_opp a b :
  0 < b -> round_half_even (- a) b = - round_half_even a b.
Proof.
  intros Hb. unfold round_half_even.
  pose proof (Z.div_mod a b ltac:(lia)) as Ha.
  pose proof (Z.mod_pos_bound a b Hb) as Hra.
  pose proof (Z.div_mod (- a) b ltac:(lia)) as Hn.
  pose proof (Z.mod_pos_bound (- a) b Hb) as Hrn.
  set (q := a / b) in *. set (r := a mod b) in *.
  set (q' := (- a) / b) in *. set (r' := (- a) mod b) in *.
  assert ((r = 0 /\ r' = 0 /\ q' = - q) \/ (0 < r /\ r' = b - r /\ q' = - q - 1))
    as [(-> & -> & ->) | (Hr & -> & ->)].
  { destruct (Z.eq_dec r 0) as [E|N].
    - left. assert (b * (q' + q) + r' = 0) by lia.
      assert (q' + q = 0) by nia. lia.
    - right. assert (b * (q' + q + 1) + (r' + r - b) = 0) by lia.
      assert (q' + q + 1 = 0) by nia. lia. }
  - destruct (Z.ltb_spec (2 * 0) b); [reflexivity | lia].
  - replace (- q - 1) with (- (q + 1)) by lia. rewrite Z.even_opp.
    replace (q + 1) with (Z.succ q) by lia. rewrite Z.even_succ, <- Z.negb_even.
    destruct (Z.ltb_spec (2 * (b - r)) b), (Z.ltb_spec b (2 * (b - r))),
      (Z.ltb_spec (2 * r) b), (Z.ltb_spec b (2 * r)); try lia.
    destruct (Z.even q); simpl; lia.
Qed.

(** [chopPrecisionAndRound] rounds to the nearest integer, ties to even. *)
Lemma chopPrecisionAndRound_half_even d :
  chopPrecisionAndRound d = round_half_even d precisionReuse.
Proof.
  unfold chopPrecisionAndRound. destruct (Z.ltb_spec d 0).
  - rewrite chopPrecisionAndRoundNonNeg_half_even by lia.
    rewrite round_half_even_opp by reflexivity. lia.
  - apply chopPrecisionAndRoundNonNeg_half_even. done.
Qed.

(** What rounding to even guarantees: the result is within half a unit. *)
Lemma round_half_even_near a b :
  0 < b -> Z.abs (2 * (round_half_even a b * b - a)) <= b.
Proof.
  intros Hb. unfold round_half_even.
  pose proof (Z.div_mod a b ltac:(lia)) as Ha.
  pose proof (Z.mod_pos_bound a b Hb) as Hr.
  set (q := a / b) in *. set (r := a mod b) in *.
  destruct (Z.ltb_spec (2 * r) b); [nia|].
  destruct (Z.ltb_spec b (2 * r)); [nia|].
  destruct (Z.even q); nia.
Qed.

Lemma round_half_even_nonneg a b :
  0 < b -> 0 <= a -> 0 <= round_half_even a b.
Proof.
  intros Hb Ha. unfold round_half_even.
  pose proof (Z.div_pos a b Ha Hb).
  destruct (Z.ltb_spec (2 * (a mod b)) b); [done|].
  destruct (Z.ltb_spec b (2 * (a mod b))); [lia|].
  destruct (Z.even (a / b)); lia.
Qed.

(** An exact quotient is left as it is. *)
Lemma round_half_even_exact n b :
  0 < b -> round_half_even (n * b) b = n.
Proof.
  intros Hb. unfold round_half_even.
  rewrite Z.div_mul, Z.mod_mul by lia.
  destruct (Z.ltb_spec (2 * 0) b); [reflexivity | lia].
Qed.

Lemma TruncateInt_ToLegacyDec n : TruncateInt (ToLegacyDec n) = n.
Proof.
  unfold TruncateInt, ToLegacyDec. simpl.
  apply Z.quot_mul. discriminate.
Qed.

End SdkFacts.

(* ===================================================================== *)
(** ** Facts about the denom resolver *)
(* ===================================================================== *)

Module ResolverFacts.
Import Sdk Resolver SdkFacts.

(** *** Laws of the recording monad *)

Lemma bind_Ok {A B} l (a : A) (f : A -> M B) :
  bind (l, Ok a) f = prepend l (f a).
Proof. unfold bind, prepend. destruct (f a). reflexivity. Qed.

Lemma bind_lift_Ok {A B} (a : A) (f : A -> M B) : bind (lift (Ok a)) f = f a.
Proof. unfold bind, lift. destruct (f a). reflexivity. Qed.

Lemma bind_call_Ok {A B} k (a : A) (f : A -> M B) :
  bind (call k (Ok a)) f = prepend [k] (f a).
Proof. apply bind_Ok. Qed.

Lemma bind_fail {A B} e (f : A -> M B) : bind (fail e) f = fail e.
Proof. reflexivity. Qed.

(** Two continuations that agree give the same computation. *)
Lemma bind_ext {A B} (m : M A) (f g : A -> M B) :
  (forall a, f a = g a) -> bind m f = bind m g.
Proof.
  intros H. destruct m as [l [a| |]]; simpl; [rewrite H|..]; reflexivity.
Qed.

(** An error or a panic cuts the rest off: nothing is read after it. *)
Lemma bind_not_Ok {A B} (m : M A) (f : A -> M B) :
  isOk (outcome m) = false ->
  lookups (bind m f) = lookups m /\ isOk (outcome (bind m f)) = false.
Proof. destruct m as [l [a| |]]; simpl; intros H; done. Qed.

(** *** The SDK constructors on well-formed arguments *)

Lemma NewCoin_valid denom amount :
  ValidateDenom denom = true -> 0 <= amount ->
  NewCoin denom amount = Ok (mkCoin denom amount).
Proof.
  intros Hd Ha. unfold NewCoin. rewrite Hd. simpl.
  destruct (Z.ltb_spec amount 0); [lia | reflexivity].
Qed.

(** A bundle built from one coin is empty when the coin is zero. *)
Lemma NewCoins_single c :
  ValidateDenom (Denom c) = true -> 0 <= Amount c ->
  NewCoins [c] = Ok (if Amount c =? 0 then [] else [c]).
Proof.
  intros Hd Ha. unfold NewCoins, sanitizeCoins, removeZeroCoins. simpl.
  destruct (Z.eqb_spec (Amount c) 0) as [E|N]; simpl; [reflexivity|].
  unfold ValidateCoins. simpl. rewrite Hd. simpl.
  destruct (Z.ltb_spec 0 (Amount c)); [reflexivity | lia].
Qed.

Lemma NewDecCoinFromDec_valid denom amount :
  ValidateDenom denom = true -> 0 <= amount ->
  NewDecCoinFromDec denom (ToLegacyDec amount)
  = Ok (mkDecCoin denom (ToLegacyDec amount)).
Proof.
  intros Hd Ha. unfold NewDecCoinFromDec. rewrite Hd.
  cbn [negb rawDec ToLegacyDec]. pose proof precisionReuse_pos.
  destruct (Z.ltb_spec (amount * precisionReuse) 0); [nia | reflexivity].
Qed.

Lemma TruncateInt_nonneg d : 0 <= rawDec d -> 0 <= TruncateInt d.
Proof.
  intros Hd. unfold TruncateInt.
  rewrite Z.quot_div_nonneg by (done || reflexivity).
  apply Z.div_pos; [done | reflexivity].
Qed.

(** [Quo] and [RoundInt] in closed form. *)
Lemma Quo_of_amount amount rate :
  0 <= amount -> 0 < rawDec rate ->
  Quo (ToLegacyDec amount) rate = Ok (mkDec (quotient18 amount (rawDec rate))).
Proof.
  intros Ha Hr. unfold Quo, quotient18.
  destruct (Z.eqb_spec (rawDec rate) 0); [lia|].
  rewrite chopPrecisionAndRound_half_even. unfold ToLegacyDec. cbn [rawDec].
  rewrite Z.quot_div_nonneg; [reflexivity| |lia].
  pose proof precisionReuse_pos. rewrite squaredPrecisionReuse_eq. nia.
Qed.

Lemma RoundInt_quotient18 amount rate :
  RoundInt (mkDec (quotient18 amount rate)) = dividedAmount amount rate.
Proof. unfold RoundInt. apply chopPrecisionAndRound_half_even. Qed.

Lemma quotient18_nonneg amount rate :
  0 <= amount -> 0 < rate -> 0 <= quotient18 amount rate.
Proof.
  intros Ha Hr. unfold quotient18.
  apply round_half_even_nonneg; [reflexivity|].
  apply Z.div_pos; [|done].
  pose proof precisionReuse_pos. rewrite squaredPrecisionReuse_eq. nia.
Qed.

Lemma dividedAmount_nonneg amount rate :
  0 <= amount -> 0 < rate -> 0 <= dividedAmount amount rate.
Proof.
  intros Ha Hr. apply round_half_even_nonneg; [reflexivity|].
  by apply quotient18_nonneg.
Qed.

Lemma dividedAmount_zero rate : dividedAmount 0 rate = 0.
Proof.
  unfold dividedAmount, quotient18. rewrite !Z.mul_0_l, Zdiv_0_l. reflexivity.
Qed.

Lemma multipliedAmount_nonneg amount rate :
  0 <= amount -> 0 <= rate -> 0 <= multipliedAmount amount rate.
Proof.
  intros Ha Hr. apply round_half_even_nonneg; [reflexivity | nia].
Qed.

(** *** How close the rounded amounts are *)

Lemma scaled_near x y b s :
  0 < s -> Z.abs (2 * (x * b - y)) <= b ->
  Z.abs (2 * (x * s * b - y * s)) <= b * s.
Proof. intros Hs H. nia. Qed.

(** The divided amount [m] is within [1/2 + 1/(2*10^18) + 10^-36] of
    [amount / rate]: three roundings, each linear once scaled by [rate]. *)
Lemma dividedAmount_near amount rate :
  0 <= amount -> 0 < rate ->
  2 * (precisionReuse * precisionReuse)
    * Z.abs (dividedAmount amount rate * rate - amount * precisionReuse)
  <= rate * (precisionReuse * precisionReuse + precisionReuse + 2).
Proof.
  intros Ha Hr. unfold dividedAmount, quotient18.
  set (t := amount * precisionReuse * squaredPrecisionReuse / rate).
  set (q := round_half_even t precisionReuse).
  set (m := round_half_even q precisionReuse).
  pose proof (round_half_even_near t precisionReuse precisionReuse_pos) as Hq.
  pose proof (round_half_even_near q precisionReuse precisionReuse_pos) as Hm.
  fold q in Hq. fold m in Hm.
  apply (scaled_near _ _ _ rate Hr) in Hq, Hm.
  assert (t * rate <= amount * precisionReuse * squaredPrecisionReuse
          /\ amount * precisionReuse * squaredPrecisionReuse < t * rate + rate)
    as [Hlo Hhi].
  { pose proof (Z.div_mod (amount * precisionReuse * squaredPrecisionReuse) rate
                  ltac:(lia)) as Hdm.
    pose proof (Z.mod_pos_bound (amount * precisionReuse * squaredPrecisionReuse)
                  rate Hr) as Hb.
    fold t in Hdm. lia. }
  revert Hq Hm Hlo Hhi.
  generalize (m * rate) (q * rate) (t * rate). intros A B C.
  unfold squaredPrecisionReuse, precisionReuse. lia.
Qed.

(** Dividing and multiplying back: the error of the division comes back
    scaled by the rate, plus half a unit for the last rounding. *)
Lemma round_trip_near amount rate :
  0 <= amount -> 0 < rate ->
  2 * (precisionReuse * precisionReuse * precisionReuse)
    * Z.abs (multipliedAmount (dividedAmount amount rate) rate - amount)
  <= precisionReuse * precisionReuse * precisionReuse
     + rate * (precisionReuse * precisionReuse + precisionReuse + 2).
Proof.
  intros Ha Hr.
  pose proof (dividedAmount_near amount rate Ha Hr) as Hd.
  unfold multipliedAmount.
  pose proof (round_half_even_near (rate * dividedAmount amount rate)
                precisionReuse precisionReuse_pos) as Hn.
  revert Hd Hn.
  generalize (round_half_even (rate * dividedAmount amount rate) precisionReuse).
  intros n'. replace (rate * dividedAmount amount rate)
    with (dividedAmount amount rate * rate) by lia.
  generalize (dividedAmount amount rate * rate). intros A.
  unfold precisionReuse. lia.
Qed.

Lemma round_trip_within_one amount rate :
  0 <= amount -> 0 < rate -> rate <= 2 * precisionReuse ->
  Z.abs (multipliedAmount (dividedAmount amount rate) rate - amount) <= 1.
Proof.
  intros Ha Hr H2. pose proof (round_trip_near amount rate Ha Hr) as H.
  revert H. generalize (multipliedAmount (dividedAmount amount rate) rate).
  intros n'. unfold precisionReuse in *. lia.
Qed.

(** *** The helpers on a bundle of one coin *)

Lemma verifyIBCCoins_single r c :
  verifyIBCCoins r [c] =
    ([LookupHasHostZoneConfig (Denom c)],
     if bool_decide (is_Some (hostZoneConfigs (FeeabsKeeper_ r) !! Denom c))
     then Ok tt else Err (ErrUnsupportedDenom (Denom c))).
Proof.
  unfold verifyIBCCoins. cbn [length Nat.eqb negb first].
  rewrite bind_lift_Ok. unfold HasHostZoneConfig. rewrite bind_call_Ok.
  destruct (bool_decide _); reflexivity.
Qed.

Lemma keeper_verifyIBCCoins_single k c :
  keeper_verifyIBCCoins k [c] =
    ([LookupHasHostZoneConfig (Denom c)],
     if bool_decide (is_Some (hostZoneConfigs k !! Denom c))
     then Ok tt else Err (ErrUnsupportedDenom (Denom c))).
Proof.
  unfold keeper_verifyIBCCoins. cbn [length Nat.eqb negb first].
  rewrite bind_lift_Ok. unfold HasHostZoneConfig. rewrite bind_call_Ok.
  destruct (bool_decide _); reflexivity.
Qed.

(** [getIBCCoinFromNative] on one positive coin: the rate is read, the
    amount divided; a result of zero leaves an empty bundle, which
    [verifyIBCCoins] rejects before reading the registry. *)
Lemma getIBCCoinFromNative_single r d a cfg rate :
  twapRates (FeeabsKeeper_ r) !! IbcDenom cfg = Some rate ->
  0 < rawDec rate -> 0 < a ->
  ValidateDenom (IbcDenom cfg) = true ->
  is_Some (hostZoneConfigs (FeeabsKeeper_ r) !! IbcDenom cfg) ->
  getIBCCoinFromNative r [mkCoin d a] cfg =
    if dividedAmount a (rawDec rate) =? 0
    then ([LookupGetTwapRate (IbcDenom cfg)], Err ErrInvalidIBCFees)
    else ([LookupGetTwapRate (IbcDenom cfg); LookupHasHostZoneConfig (IbcDenom cfg)],
          Ok [mkCoin (IbcDenom cfg) (dividedAmount a (rawDec rate))]).
Proof.
  intros Htwap Hrate Ha Hden Hreg.
  pose proof (dividedAmount_nonneg a (rawDec rate) ltac:(lia) Hrate) as Hm.
  unfold getIBCCoinFromNative. cbn [length Nat.eqb negb first Amount].
  rewrite bind_lift_Ok. unfold GetTwapRate. rewrite Htwap, bind_call_Ok.
  cbn [Amount]. rewrite Quo_of_amount by lia.
  rewrite bind_lift_Ok, RoundInt_quotient18.
  rewrite NewCoin_valid, bind_lift_Ok by done.
  rewrite NewCoins_single by done. cbn [Amount].
  destruct (Z.eqb_spec (dividedAmount a (rawDec rate)) 0) as [E|N].
  - rewrite bind_lift_Ok. reflexivity.
  - rewrite bind_lift_Ok, verifyIBCCoins_single. cbn [Denom].
    rewrite bool_decide_eq_true_2 by done. reflexivity.
Qed.

(** The keeper's multiplication on one positive coin of a registered
    denomination. A product that rounds to zero leaves an empty bundle. *)
Lemma CalculateNativeFromIBCCoins_single k d a cfg rate bond :
  twapRates k !! IbcDenom cfg = Some rate ->
  0 < rawDec rate -> 0 < a ->
  hostZoneConfigs k !! d = Some cfg ->
  BondDenom (sk k) = Ok bond ->
  ValidateDenom bond = true ->
  CalculateNativeFromIBCCoins k [mkCoin d a] cfg =
    ([LookupHasHostZoneConfig d; LookupGetTwapRate (IbcDenom cfg); LookupBondDenom],
     Ok (if multipliedAmount a (rawDec rate) =? 0 then []
         else [mkCoin bond (multipliedAmount a (rawDec rate))])).
Proof.
  intros Htwap Hrate Ha Hcfg Hbond Hvb.
  pose proof (multipliedAmount_nonneg a (rawDec rate) ltac:(lia) ltac:(lia)) as Hm.
  unfold CalculateNativeFromIBCCoins.
  rewrite keeper_verifyIBCCoins_single. cbn [Denom].
  rewrite bool_decide_eq_true_2 by (rewrite Hcfg; done).
  rewrite bind_Ok. unfold GetTwapRate. rewrite Htwap, bind_call_Ok.
  cbn [first Amount]. rewrite bind_lift_Ok.
  rewrite Hbond, bind_call_Ok.
  unfold RoundInt, MulInt. cbn [rawDec].
  rewrite chopPrecisionAndRound_half_even. fold (multipliedAmount a (rawDec rate)).
  rewrite NewCoin_valid, bind_lift_Ok by done.
  rewrite NewCoins_single by done. reflexivity.
Qed.

(** *** [ConvertToDenom], branch by branch *)

Section BondDenomKnown.

Variable r : DenomResolverImpl.
Variable bond : string.
Hypothesis bond_read : BondDenom (StakingKeeper_ r) = Ok bond.

(** Towards the bond denomination, an unregistered coin denomination is
    an error right after the registry lookup. *)
Lemma ConvertToDenom_absent_to_native coin :
  hostZoneConfigs (FeeabsKeeper_ r) !! DecDenom coin = None ->
  ConvertToDenom r coin bond =
    ([LookupBondDenom; LookupGetHostZoneConfig (DecDenom coin)],
     Err (ErrorString "error resolving denom")).
Proof.
  intros Hnone. unfold ConvertToDenom.
  rewrite bond_read, bind_call_Ok, String.eqb_refl.
  unfold GetHostZoneConfig. rewrite Hnone, bind_call_Ok. reflexivity.
Qed.

(** Towards another denomination, an unregistered target is one too. *)
Lemma ConvertToDenom_absent_from_native coin denom :
  denom ≠ bond ->
  hostZoneConfigs (FeeabsKeeper_ r) !! denom = None ->
  ConvertToDenom r coin denom =
    ([LookupBondDenom; LookupGetHostZoneConfig denom],
     Err (ErrorString "error resolving denom")).
Proof.
  intros Hne Hnone. unfold ConvertToDenom.
  rewrite bond_read, bind_call_Ok, (proj2 (String.eqb_neq denom bond) Hne).
  unfold GetHostZoneConfig. rewrite Hnone, bind_call_Ok. reflexivity.
Qed.

(** A registered denomination without a stored rate is an error at the
    rate read: no rate is made up. *)
Lemma ConvertToDenom_to_native_no_rate coin cfg :
  hostZoneConfigs (FeeabsKeeper_ r) !! DecDenom coin = Some cfg ->
  IbcDenom cfg = DecDenom coin ->
  ValidateDenom (DecDenom coin) = true ->
  twapRates (FeeabsKeeper_ r) !! DecDenom coin = None ->
  0 < TruncateInt (DecAmount coin) ->
  ConvertToDenom r coin bond =
    ([LookupBondDenom; LookupGetHostZoneConfig (DecDenom coin);
      LookupGetTwapRate (DecDenom coin)],
     Err ErrInvalidExchangeRate).
Proof.
  intros Hcfg Hkey Hvd Htwap Hn.
  unfold ConvertToDenom. rewrite bond_read, bind_call_Ok, String.eqb_refl.
  unfold GetHostZoneConfig. rewrite Hcfg, bind_call_Ok.
  rewrite NewCoin_valid, bind_lift_Ok by (done || lia).
  rewrite NewCoins_single by (done || (cbn [Amount]; lia)). cbn [Amount].
  rewrite bind_lift_Ok.
  destruct (Z.eqb_spec (TruncateInt (DecAmount coin)) 0) as [E|N]; [lia|].
  unfold getIBCCoinFromNative. cbn [length Nat.eqb negb first].
  rewrite bind_lift_Ok. unfold GetTwapRate. rewrite Hkey, Htwap. reflexivity.
Qed.

(** The same towards a registered denomination: the keeper finds the
    denomination registered and reads no rate. *)
Lemma ConvertToDenom_from_native_no_rate coin denom cfg :
  denom ≠ bond ->
  hostZoneConfigs (FeeabsKeeper_ r) !! denom = Some cfg ->
  IbcDenom cfg = denom ->
  ValidateDenom denom = true ->
  twapRates (FeeabsKeeper_ r) !! denom = None ->
  0 < TruncateInt (DecAmount coin) ->
  ConvertToDenom r coin denom =
    ([LookupBondDenom; LookupGetHostZoneConfig denom;
      LookupHasHostZoneConfig denom; LookupGetTwapRate denom],
     Err ErrInvalidExchangeRate).
Proof.
  intros Hne Hcfg Hkey Hvd Htwap Hn.
  unfold ConvertToDenom. rewrite bond_read, bind_call_Ok.
  rewrite (proj2 (String.eqb_neq denom bond) Hne).
  unfold GetHostZoneConfig. rewrite Hcfg, bind_call_Ok.
  rewrite NewCoin_valid, bind_lift_Ok by (done || lia).
  rewrite NewCoins_single by (done || (cbn [Amount]; lia)). cbn [Amount].
  rewrite bind_lift_Ok.
  destruct (Z.eqb_spec (TruncateInt (DecAmount coin)) 0) as [E|N]; [lia|].
  unfold CalculateNativeFromIBCCoins.
  rewrite keeper_verifyIBCCoins_single. cbn [Denom].
  rewrite bool_decide_eq_true_2 by (rewrite Hcfg; done).
  rewrite bind_Ok. unfold GetTwapRate. rewrite Hkey, Htwap. reflexivity.
Qed.

Hypothesis bond_valid : ValidateDenom bond = true.

(** Towards the bond denomination, for a registered coin denomination
    with a positive rate. *)
Lemma ConvertToDenom_to_native coin cfg rate :
  hostZoneConfigs (FeeabsKeeper_ r) !! DecDenom coin = Some cfg ->
  IbcDenom cfg = DecDenom coin ->
  ValidateDenom (DecDenom coin) = true ->
  twapRates (FeeabsKeeper_ r) !! DecDenom coin = Some rate ->
  0 < rawDec rate ->
  0 <= rawDec (DecAmount coin) ->
  ConvertToDenom r coin bond =
    if TruncateInt (DecAmount coin) =? 0
    then ([LookupBondDenom; LookupGetHostZoneConfig (DecDenom coin)],
          Err (ErrExpectedOneNativeCoin 0))
    else if dividedAmount (TruncateInt (DecAmount coin)) (rawDec rate) =? 0
    then ([LookupBondDenom; LookupGetHostZoneConfig (DecDenom coin);
           LookupGetTwapRate (DecDenom coin)],
          Err ErrInvalidIBCFees)
    else ([LookupBondDenom; LookupGetHostZoneConfig (DecDenom coin);
           LookupGetTwapRate (DecDenom coin);
           LookupHasHostZoneConfig (DecDenom coin)],
          Ok (mkDecCoin bond
                (ToLegacyDec
                   (dividedAmount (TruncateInt (DecAmount coin)) (rawDec rate))))).
Proof.
  intros Hcfg Hkey Hvd Htwap Hrate Hamt.
  pose proof (TruncateInt_nonneg _ Hamt) as Hn.
  pose proof (dividedAmount_nonneg _ (rawDec rate) Hn Hrate) as Hm.
  unfold ConvertToDenom. rewrite bond_read, bind_call_Ok, String.eqb_refl.
  unfold GetHostZoneConfig. rewrite Hcfg, bind_call_Ok.
  rewrite NewCoin_valid, bind_lift_Ok by done.
  rewrite NewCoins_single by done. cbn [Amount]. rewrite bind_lift_Ok.
  destruct (Z.eqb_spec (TruncateInt (DecAmount coin)) 0) as [E|N].
  - reflexivity.
  - rewrite getIBCCoinFromNative_single with (rate := rate);
      rewrite ?Hkey; try done; [|lia].
    destruct (Z.eqb_spec
                (dividedAmount (TruncateInt (DecAmount coin)) (rawDec rate)) 0).
    + reflexivity.
    + rewrite bind_Ok. cbn [first Amount].
      rewrite bind_lift_Ok, NewDecCoinFromDec_valid by done. reflexivity.
Qed.

Hypothesis keeper_bond_read : BondDenom (sk (FeeabsKeeper_ r)) = Ok bond.

(** Towards a registered denomination with a positive rate. A product
    that rounds to zero makes [amount[0]] panic. *)
Lemma ConvertToDenom_from_native coin denom cfg rate :
  denom ≠ bond ->
  hostZoneConfigs (FeeabsKeeper_ r) !! denom = Some cfg ->
  IbcDenom cfg = denom ->
  ValidateDenom denom = true ->
  twapRates (FeeabsKeeper_ r) !! denom = Some rate ->
  0 < rawDec rate ->
  0 <= rawDec (DecAmount coin) ->
  ConvertToDenom r coin denom =
    if TruncateInt (DecAmount coin) =? 0
    then ([LookupBondDenom; LookupGetHostZoneConfig denom], Err ErrInvalidIBCFees)
    else if multipliedAmount (TruncateInt (DecAmount coin)) (rawDec rate) =? 0
    then ([LookupBondDenom; LookupGetHostZoneConfig denom;
           LookupHasHostZoneConfig denom; LookupGetTwapRate denom;
           LookupBondDenom],
          Panic "index out of range [0] with length 0")
    else ([LookupBondDenom; LookupGetHostZoneConfig denom;
           LookupHasHostZoneConfig denom; LookupGetTwapRate denom;
           LookupBondDenom],
          Ok (mkDecCoin denom
                (ToLegacyDec
                   (multipliedAmount (TruncateInt (DecAmount coin)) (rawDec rate))))).
Proof.
  intros Hne Hcfg Hkey Hvd Htwap Hrate Hamt.
  pose proof (TruncateInt_nonneg _ Hamt) as Hn.
  pose proof (multipliedAmount_nonneg _ (rawDec rate) Hn ltac:(lia)) as Hm.
  unfold ConvertToDenom. rewrite bond_read, bind_call_Ok.
  rewrite (proj2 (String.eqb_neq denom bond) Hne).
  unfold GetHostZoneConfig. rewrite Hcfg, bind_call_Ok.
  rewrite NewCoin_valid, bind_lift_Ok by done.
  rewrite NewCoins_single by done. cbn [Amount]. rewrite bind_lift_Ok.
  destruct (Z.eqb_spec (TruncateInt (DecAmount coin)) 0) as [E|N].
  - reflexivity.
  - rewrite CalculateNativeFromIBCCoins_single with (rate := rate) (bond := bond);
      rewrite ?Hkey; try done; [|lia].
    rewrite bind_Ok.
    destruct (Z.eqb_spec
                (multipliedAmount (TruncateInt (DecAmount coin)) (rawDec rate)) 0).
    + reflexivity.
    + cbn [first Amount].
      rewrite bind_lift_Ok, NewDecCoinFromDec_valid by done. reflexivity.
Qed.

End BondDenomKnown.

(** *** The flags of the registry are never read *)

Section Reflag.

Variable flag : string -> bool.
Variable r : DenomResolverImpl.

Lemma HasHostZoneConfig_reflag d :
  HasHostZoneConfig (FeeabsKeeper_ (reflag flag r)) d
  = HasHostZoneConfig (FeeabsKeeper_ r) d.
Proof.
  unfold HasHostZoneConfig. cbn [reflag FeeabsKeeper_ hostZoneConfigs].
  rewrite lookup_fmap.
  destruct (hostZoneConfigs (FeeabsKeeper_ r) !! d) eqn:E; rewrite ?E; reflexivity.
Qed.

Lemma GetHostZoneConfig_reflag d :
  GetHostZoneConfig (FeeabsKeeper_ (reflag flag r)) d
  = call (LookupGetHostZoneConfig d)
         (Ok (withFlag flag <$> hostZoneConfigs (FeeabsKeeper_ r) !! d)).
Proof.
  unfold GetHostZoneConfig. cbn [reflag FeeabsKeeper_ hostZoneConfigs].
  rewrite lookup_fmap. reflexivity.
Qed.

Lemma verifyIBCCoins_reflag coins :
  verifyIBCCoins (reflag flag r) coins = verifyIBCCoins r coins.
Proof.
  unfold verifyIBCCoins. destruct (negb _); [reflexivity|].
  apply bind_ext. intros c. rewrite HasHostZoneConfig_reflag. reflexivity.
Qed.

Lemma keeper_verifyIBCCoins_reflag coins :
  keeper_verifyIBCCoins (FeeabsKeeper_ (reflag flag r)) coins
  = keeper_verifyIBCCoins (FeeabsKeeper_ r) coins.
Proof.
  unfold keeper_verifyIBCCoins. destruct (negb _); [reflexivity|].
  apply bind_ext. intros c. rewrite HasHostZoneConfig_reflag. reflexivity.
Qed.

Lemma getIBCCoinFromNative_reflag coins cfg :
  getIBCCoinFromNative (reflag flag r) coins (withFlag flag cfg)
  = getIBCCoinFromNative r coins cfg.
Proof.
  unfold getIBCCoinFromNative. destruct (negb _); [reflexivity|].
  do 5 (apply bind_ext; intros ?).
  rewrite verifyIBCCoins_reflag. reflexivity.
Qed.

Lemma CalculateNativeFromIBCCoins_reflag coins cfg :
  CalculateNativeFromIBCCoins (FeeabsKeeper_ (reflag flag r)) coins (withFlag flag cfg)
  = CalculateNativeFromIBCCoins (FeeabsKeeper_ r) coins cfg.
Proof.
  unfold CalculateNativeFromIBCCoins.
  rewrite keeper_verifyIBCCoins_reflag. reflexivity.
Qed.

(** Whatever the flags are set to, a conversion reads and returns the
    same. *)
Lemma ConvertToDenom_reflag coin denom :
  ConvertToDenom (reflag flag r) coin denom = ConvertToDenom r coin denom.
Proof.
  unfold ConvertToDenom. apply bind_ext. intros bondDenom.
  rewrite !GetHostZoneConfig_reflag. unfold GetHostZoneConfig.
  destruct (String.eqb denom bondDenom).
  - destruct (hostZoneConfigs (FeeabsKeeper_ r) !! DecDenom coin) as [cfg|];
      cbn [fmap option_fmap option_map]; rewrite !bind_call_Ok; [|reflexivity].
    f_equal. do 2 (apply bind_ext; intros ?).
    rewrite getIBCCoinFromNative_reflag. reflexivity.
  - destruct (hostZoneConfigs (FeeabsKeeper_ r) !! denom) as [cfg|];
      cbn [fmap option_fmap option_map]; rewrite !bind_call_Ok; [|reflexivity].
    f_equal. do 2 (apply bind_ext; intros ?).
    rewrite CalculateNativeFromIBCCoins_reflag. reflexivity.
Qed.

End Reflag.

(** *** [ExtraDenoms] *)

(** The loop appends one denomination per config. *)
Lemma fold_left_denoms (l : list HostChainFeeAbsConfig) (acc : list string) :
  fold_left (fun denoms hostZoneConfig => denoms ++ [IbcDenom hostZoneConfig]) l acc
  = acc ++ (IbcDenom <$> l).
Proof.
  revert acc. induction l as [|c l IH]; intros acc; simpl.
  - by rewrite app_nil_r.
  - rewrite IH, <- app_assoc. reflexivity.
Qed.

Lemma ExtraDenoms_eq r :
  ExtraDenoms r =
    ([LookupGetAllHostZoneConfig],
     Ok (IbcDenom <$> (snd <$> map_to_list (hostZoneConfigs (FeeabsKeeper_ r))))).
Proof.
  unfold ExtraDenoms, GetAllHostZoneConfig. rewrite bind_call_Ok.
  rewrite fold_left_denoms. reflexivity.
Qed.

Lemma elem_of_ExtraDenoms (m : gmap string HostChainFeeAbsConfig) d :
  d ∈ IbcDenom <$> (snd <$> map_to_list m)
  <-> exists key cfg, m !! key = Some cfg /\ IbcDenom cfg = d.
Proof.
  rewrite list_elem_of_fmap. split.
  - intros (cfg & -> & Hin).
    apply list_elem_of_fmap in Hin as ([key cfg'] & -> & Hin).
    apply elem_of_map_to_list in Hin. by exists key, cfg'.
  - intros (key & cfg & Hl & <-). exists cfg. split; [done|].
    apply list_elem_of_fmap. exists (key, cfg). split; [done|].
    by apply elem_of_map_to_list.
Qed.

(** Under the keeper's discipline no denomination is listed twice. *)
Lemma NoDup_ExtraDenoms k :
  registryKeyed k ->
  NoDup (IbcDenom <$> (snd <$> map_to_list (hostZoneConfigs k))).
Proof.
  intros Hkeyed.
  assert (IbcDenom <$> (snd <$> map_to_list (hostZoneConfigs k))
          = fst <$> map_to_list (hostZoneConfigs k)) as ->.
  { rewrite <- list_fmap_compose. apply list_fmap_ext.
    intros i [key cfg] Hi. apply list_elem_of_lookup_2, elem_of_map_to_list in Hi.
    simpl. exact (Hkeyed key cfg Hi). }
  apply NoDup_fst_map_to_list.
Qed.

(** *** Bundles *)

Lemma denominations_singleton (coins : Coins) :
  length coins = 1%nat -> length (denominations coins) = 1%nat.
Proof.
  destruct coins as [|c [|c' coins]]; try discriminate. reflexivity.
Qed.

(** *** The specification's statements about the resolver *)

(** C2 (counterexample): an asset that is registered but disabled is
    converted, in both directions, as if it were enabled. *)
Lemma C2_disabled_asset_is_converted :
  let r := sampleResolver false (decimal 2 0) in
  let coin := mkDecCoin "ibc/XYZ" (decimal 10 0) in
  (exists cfg, hostZoneConfigs (FeeabsKeeper_ r) !! DecDenom coin = Some cfg
               /\ enabled cfg = false) /\
  outcome (ConvertToDenom r coin "ueve") = Ok (mkDecCoin "ueve" (decimal 5 0)) /\
  isErr (outcome (ConvertToDenom r coin "ueve")) = false /\
  outcome (ConvertToDenom r (mkDecCoin "ueve" (decimal 5 0)) "ibc/XYZ")
    = Ok (mkDecCoin "ibc/XYZ" (decimal 10 0)).
Proof.
  split; [|repeat split].
  eexists. split; [vm_compute; reflexivity | reflexivity].
Qed.

(** C2 (amended): when the foreign asset of a conversion has no entry in
    the registry (the coin's denomination towards the bond denomination,
    the target denomination otherwise), [ConvertToDenom] returns an error
    after the bond-denom read and that one registry lookup, with no rate
    read and no coin. A registered asset without a stored rate is an error
    too, in both directions, at the rate read (for a valid denomination and
    an amount of at least one whole unit): no rate is made up. The
    [enabled] flag plays no part: whatever the flags of the registry are
    set to, every conversion has the same outcome. *)
Theorem C2_absent_asset_rejected r coin denom bond :
  BondDenom (StakingKeeper_ r) = Ok bond ->
  (denom = bond ->
   hostZoneConfigs (FeeabsKeeper_ r) !! DecDenom coin = None ->
   ConvertToDenom r coin denom =
     ([LookupBondDenom; LookupGetHostZoneConfig (DecDenom coin)],
      Err (ErrorString "error resolving denom"))) /\
  (denom ≠ bond ->
   hostZoneConfigs (FeeabsKeeper_ r) !! denom = None ->
   ConvertToDenom r coin denom =
     ([LookupBondDenom; LookupGetHostZoneConfig denom],
      Err (ErrorString "error resolving denom"))) /\
  (forall cfg,
     denom = bond ->
     hostZoneConfigs (FeeabsKeeper_ r) !! DecDenom coin = Some cfg ->
     IbcDenom cfg = DecDenom coin ->
     ValidateDenom (DecDenom coin) = true ->
     twapRates (FeeabsKeeper_ r) !! DecDenom coin = None ->
     0 < TruncateInt (DecAmount coin) ->
     ConvertToDenom r coin denom =
       ([LookupBondDenom; LookupGetHostZoneConfig (DecDenom coin);
         LookupGetTwapRate (DecDenom coin)],
        Err ErrInvalidExchangeRate)) /\
  (forall cfg,
     denom ≠ bond ->
     hostZoneConfigs (FeeabsKeeper_ r) !! denom = Some cfg ->
     IbcDenom cfg = denom ->
     ValidateDenom denom = true ->
     twapRates (FeeabsKeeper_ r) !! denom = None ->
     0 < TruncateInt (DecAmount coin) ->
     ConvertToDenom r coin denom =
       ([LookupBondDenom; LookupGetHostZoneConfig denom;
         LookupHasHostZoneConfig denom; LookupGetTwapRate denom],
        Err ErrInvalidExchangeRate)) /\
  (forall flag,
     ConvertToDenom (reflag flag r) coin denom = ConvertToDenom r coin denom).
Proof.
  intros Hbond. split; [|split; [|split; [|split]]].
  - intros -> Hnone. by apply ConvertToDenom_absent_to_native.
  - intros Hne Hnone. by apply ConvertToDenom_absent_from_native with (bond := bond).
  - intros cfg -> Hcfg Hkey Hvd Htwap Hn.
    by apply ConvertToDenom_to_native_no_rate with (cfg := cfg).
  - intros cfg Hne Hcfg Hkey Hvd Htwap Hn.
    by apply ConvertToDenom_from_native_no_rate with (bond := bond) (cfg := cfg).
  - intros flag. apply ConvertToDenom_reflag.
Qed.

Lemma C2_absent_asset_rejected_witness :
  let r := sampleResolver true (decimal 2 0) in
  let unknown := mkDecCoin "ibc/UNKNOWN" (decimal 10 0) in
  BondDenom (StakingKeeper_ r) = Ok "ueve" /\
  hostZoneConfigs (FeeabsKeeper_ r) !! "ibc/UNKNOWN" = None /\
  ConvertToDenom r unknown "ueve" =
    ([LookupBondDenom; LookupGetHostZoneConfig "ibc/UNKNOWN"],
     Err (ErrorString "error resolving denom")).
Proof.
  split; [reflexivity|]. split; [reflexivity|].
  apply (proj1 (C2_absent_asset_rejected (sampleResolver true (decimal 2 0))
                  (mkDecCoin "ibc/UNKNOWN" (decimal 10 0)) "ueve" "ueve" eq_refl));
    reflexivity.
Defined.

(** C3 (counterexample): for an enabled, registered asset the amount is not
    [n / r] rounded half away from zero. At 1.9 units and rate 1 the claim
    gives 2 and the code 1 (the amount is truncated first); at 5 units and
    rate 2 the claim gives 3 and the code 2 (a tie goes to the even
    neighbour); at 1 unit and rate 4 the claim gives 0 and the code an
    error. *)
Lemma C3_not_half_away_from_zero :
  (round_half_away (rawDec (decimal 1 900000000000000000)) (rawDec (decimal 1 0)) = 2 /\
   outcome (ConvertToDenom (sampleResolver true (decimal 1 0))
              (mkDecCoin "ibc/XYZ" (decimal 1 900000000000000000)) "ueve")
     = Ok (mkDecCoin "ueve" (decimal 1 0))) /\
  (round_half_away (rawDec (decimal 5 0)) (rawDec (decimal 2 0)) = 3 /\
   outcome (ConvertToDenom (sampleResolver true (decimal 2 0))
              (mkDecCoin "ibc/XYZ" (decimal 5 0)) "ueve")
     = Ok (mkDecCoin "ueve" (decimal 2 0))) /\
  (round_half_away (rawDec (decimal 1 0)) (rawDec (decimal 4 0)) = 0 /\
   outcome (ConvertToDenom (sampleResolver true (decimal 4 0))
              (mkDecCoin "ibc/XYZ" (decimal 1 0)) "ueve")
     = Err ErrInvalidIBCFees).
Proof. repeat split. Qed.

(** C3 (amended): for a registered foreign asset with a stored rate [r > 0]
    and a coin of that asset with amount [n >= 0], converting to the bond
    denomination truncates [n] to an integer, divides it by [r] to 18
    decimals and rounds the quotient to the nearest integer, a tie going to
    the even neighbour; the result is within [1/2 + 1/(2*10^18) + 10^-36]
    of [trunc n / r]. A truncated amount of zero, or a result of zero, is
    an error. *)
Theorem C3_to_native_rounds_half_even r coin bond cfg rate :
  BondDenom (StakingKeeper_ r) = Ok bond ->
  ValidateDenom bond = true ->
  hostZoneConfigs (FeeabsKeeper_ r) !! DecDenom coin = Some cfg ->
  IbcDenom cfg = DecDenom coin ->
  ValidateDenom (DecDenom coin) = true ->
  twapRates (FeeabsKeeper_ r) !! DecDenom coin = Some rate ->
  0 < rawDec rate ->
  0 <= rawDec (DecAmount coin) ->
  let n := rawDec (DecAmount coin) / precisionReuse in
  let m := round_half_even
             (round_half_even
                (n * precisionReuse * squaredPrecisionReuse / rawDec rate)
                precisionReuse)
             precisionReuse in
  outcome (ConvertToDenom r coin bond) =
    (if n =? 0 then Err (ErrExpectedOneNativeCoin 0)
     else if m =? 0 then Err ErrInvalidIBCFees
     else Ok (mkDecCoin bond (mkDec (m * precisionReuse)))) /\
  2 * (precisionReuse * precisionReuse)
    * Z.abs (m * rawDec rate - n * precisionReuse)
  <= rawDec rate * (precisionReuse * precisionReuse + precisionReuse + 2).
Proof.
  intros Hbond Hvb Hcfg Hkey Hvd Htwap Hrate Hamt n m.
  assert (TruncateInt (DecAmount coin) = n) as Hn.
  { unfold TruncateInt. apply Z.quot_div_nonneg; [done | reflexivity]. }
  assert (dividedAmount n (rawDec rate) = m) as Hm by reflexivity.
  split.
  - rewrite ConvertToDenom_to_native with (cfg := cfg) (rate := rate) by done.
    rewrite Hn, Hm.
    destruct (n =? 0); [reflexivity|]. destruct (m =? 0); reflexivity.
  - rewrite <- Hm. apply dividedAmount_near; [|done].
    rewrite <- Hn. by apply TruncateInt_nonneg.
Qed.

Lemma C3_to_native_rounds_half_even_witness :
  outcome (ConvertToDenom (sampleResolver true (decimal 2 0))
             (mkDecCoin "ibc/XYZ" (decimal 10 0)) "ueve")
  = Ok (mkDecCoin "ueve" (mkDec (5 * precisionReuse))) /\
  2 * (precisionReuse * precisionReuse)
    * Z.abs (5 * rawDec (decimal 2 0) - 10 * precisionReuse)
  <= rawDec (decimal 2 0) * (precisionReuse * precisionReuse + precisionReuse + 2).
Proof.
  apply (C3_to_native_rounds_half_even (sampleResolver true (decimal 2 0))
           (mkDecCoin "ibc/XYZ" (decimal 10 0)) "ueve"
           (mkHostZone "ibc/XYZ" true) (decimal 2 0));
    solve [reflexivity | vm_compute; reflexivity | vm_compute; discriminate].
Defined.

(** C4 (counterexample): at rate 10, 14 units of the foreign asset resolve
    to 1 native unit, which resolves back to 10 units: the round trip is
    off by 4 units, not by at most one. And at rate 4, 1 unit does not
    resolve to round(1/4) = 0 at all: the conversion is an error. *)
Lemma C4_round_trip_off_by_four :
  let r := sampleResolver true (decimal 10 0) in
  outcome (ConvertToDenom r (mkDecCoin "ibc/XYZ" (decimal 14 0)) "ueve")
    = Ok (mkDecCoin "ueve" (decimal 1 0)) /\
  outcome (ConvertToDenom r (mkDecCoin "ueve" (decimal 1 0)) "ibc/XYZ")
    = Ok (mkDecCoin "ibc/XYZ" (decimal 10 0)) /\
  ~ Z.abs (TruncateInt (decimal 10 0) - TruncateInt (decimal 14 0)) <= 1 /\
  isOk (outcome (ConvertToDenom (sampleResolver true (decimal 4 0))
                   (mkDecCoin "ibc/XYZ" (decimal 1 0)) "ueve")) = false.
Proof.
  split; [reflexivity|]. split; [reflexivity|]. split; [|reflexivity].
  vm_compute. intros H. apply H. reflexivity.
Qed.

(** C4 (amended): for a registered foreign asset [X] other than the bond
    denomination, with a stored rate [r > 0], and a coin of [X] with amount
    [n >= 0]: converting to the bond denomination gives [m], the quotient of
    [trunc n] by [r] rounded half to even; when [m] is not zero, converting
    [m] back multiplies by [r] and rounds half to even, giving [n']; when
    [n'] is not zero both conversions return, and [n'] differs from
    [trunc n] by at most [1/2 + r * (1/2 + 1/(2*10^18) + 10^-36)] units,
    hence by at most one unit whenever [r <= 2]. *)
Theorem C4_round_trip_bound r coin bond cfg rate :
  BondDenom (StakingKeeper_ r) = Ok bond ->
  BondDenom (sk (FeeabsKeeper_ r)) = Ok bond ->
  ValidateDenom bond = true ->
  DecDenom coin ≠ bond ->
  hostZoneConfigs (FeeabsKeeper_ r) !! DecDenom coin = Some cfg ->
  IbcDenom cfg = DecDenom coin ->
  ValidateDenom (DecDenom coin) = true ->
  twapRates (FeeabsKeeper_ r) !! DecDenom coin = Some rate ->
  0 < rawDec rate ->
  0 <= rawDec (DecAmount coin) ->
  let n := TruncateInt (DecAmount coin) in
  let m := dividedAmount n (rawDec rate) in
  let n' := multipliedAmount m (rawDec rate) in
  m ≠ 0 -> n' ≠ 0 ->
  outcome (ConvertToDenom r coin bond) = Ok (mkDecCoin bond (ToLegacyDec m)) /\
  outcome (ConvertToDenom r (mkDecCoin bond (ToLegacyDec m)) (DecDenom coin))
    = Ok (mkDecCoin (DecDenom coin) (ToLegacyDec n')) /\
  2 * (precisionReuse * precisionReuse * precisionReuse) * Z.abs (n' - n)
    <= precisionReuse * precisionReuse * precisionReuse
       + rawDec rate * (precisionReuse * precisionReuse + precisionReuse + 2) /\
  (rawDec rate <= 2 * precisionReuse -> Z.abs (n' - n) <= 1).
Proof.
  intros Hbond Hbond' Hvb Hne Hcfg Hkey Hvd Htwap Hrate Hamt n m n' Hm Hn'.
  pose proof (TruncateInt_nonneg _ Hamt) as Hn. fold n in Hn.
  pose proof (dividedAmount_nonneg n (rawDec rate) Hn Hrate) as Hm0. fold m in Hm0.
  assert (n ≠ 0) as Hn0.
  { intros E. apply Hm. unfold m. rewrite E. apply dividedAmount_zero. }
  split; [|split; [|split]].
  - rewrite ConvertToDenom_to_native with (cfg := cfg) (rate := rate) by done.
    fold n. fold m.
    destruct (Z.eqb_spec n 0); [done|]. destruct (Z.eqb_spec m 0); [done|].
    reflexivity.
  - rewrite ConvertToDenom_from_native with (bond := bond) (cfg := cfg) (rate := rate);
      try done.
    + cbn [DecAmount]. rewrite TruncateInt_ToLegacyDec. fold n'.
      destruct (Z.eqb_spec m 0); [done|]. destruct (Z.eqb_spec n' 0); [done|].
      reflexivity.
    + cbn [DecAmount ToLegacyDec rawDec]. pose proof precisionReuse_pos. nia.
  - by apply round_trip_near.
  - intros H2. by apply round_trip_within_one.
Qed.

Lemma C4_round_trip_bound_witness :
  let r := sampleResolver true (decimal 2 0) in
  outcome (ConvertToDenom r (mkDecCoin "ibc/XYZ" (decimal 7 0)) "ueve")
    = Ok (mkDecCoin "ueve" (ToLegacyDec 4)) /\
  outcome (ConvertToDenom r (mkDecCoin "ueve" (ToLegacyDec 4)) "ibc/XYZ")
    = Ok (mkDecCoin "ibc/XYZ" (ToLegacyDec 8)) /\
  2 * (precisionReuse * precisionReuse * precisionReuse) * Z.abs (8 - 7)
    <= precisionReuse * precisionReuse * precisionReuse
       + rawDec (decimal 2 0) * (precisionReuse * precisionReuse + precisionReuse + 2) /\
  (rawDec (decimal 2 0) <= 2 * precisionReuse -> Z.abs (8 - 7) <= 1).
Proof.
  apply (C4_round_trip_bound (sampleResolver true (decimal 2 0))
           (mkDecCoin "ibc/XYZ" (decimal 7 0)) "ueve"
           (mkHostZone "ibc/XYZ" true) (decimal 2 0));
    solve [reflexivity | vm_compute; reflexivity | vm_compute; discriminate].
Defined.

(** C5 (counterexample): a registry whose only entry is disabled still has
    its denomination listed. *)
Lemma C5_disabled_denom_is_listed :
  let r := sampleResolver false (decimal 2 0) in
  hostZoneConfigs (FeeabsKeeper_ r) !! "ibc/XYZ" = Some (mkHostZone "ibc/XYZ" false) /\
  outcome (ExtraDenoms r) = Ok ["ibc/XYZ"].
Proof. split; reflexivity. Qed.

(** C5 (amended): [ExtraDenoms] returns, after one read of all Host Zone
    Configs, the denomination of every entry now in the registry, once
    each, whether the entry is enabled or not. *)
Theorem C5_extra_denoms_are_registered r :
  registryKeyed (FeeabsKeeper_ r) ->
  exists denoms,
    ExtraDenoms r = ([LookupGetAllHostZoneConfig], Ok denoms) /\
    (forall d, d ∈ denoms <-> is_Some (hostZoneConfigs (FeeabsKeeper_ r) !! d)) /\
    NoDup denoms /\
    length denoms = size (hostZoneConfigs (FeeabsKeeper_ r)).
Proof.
  intros Hkeyed. eexists. split; [apply ExtraDenoms_eq|]. split; [|split].
  - intros d. rewrite elem_of_ExtraDenoms. split.
    + intros (key & cfg & Hl & <-).
      rewrite (Hkeyed key cfg Hl). by exists cfg.
    + intros [cfg Hl]. exists d, cfg. split; [done|]. exact (Hkeyed d cfg Hl).
  - by apply NoDup_ExtraDenoms.
  - rewrite !length_fmap. apply length_map_to_list.
Qed.

Lemma C5_extra_denoms_are_registered_witness :
  let r := sampleResolver false (decimal 2 0) in
  exists denoms,
    ExtraDenoms r = ([LookupGetAllHostZoneConfig], Ok denoms) /\
    (forall d, d ∈ denoms <-> is_Some (hostZoneConfigs (FeeabsKeeper_ r) !! d)) /\
    NoDup denoms /\
    length denoms = size (hostZoneConfigs (FeeabsKeeper_ r)).
Proof.
  apply (C5_extra_denoms_are_registered (sampleResolver false (decimal 2 0))).
  apply (bool_decide_unpack _). vm_compute. exact I.
Defined.

(** C6: a bundle that holds no denomination, or more than one, is rejected
    by [getIBCCoinFromNative] and by [verifyIBCCoins] with an error, before
    any read of the registry or of a rate. *)
Theorem C6_bundle_rejected_before_lookup r (coins : Coins) cfg :
  length (denominations coins) ≠ 1%nat ->
  getIBCCoinFromNative r coins cfg
    = ([], Err (ErrExpectedOneNativeCoin (length coins))) /\
  verifyIBCCoins r coins = ([], Err ErrInvalidIBCFees).
Proof.
  intros Hden.
  assert ((length coins =? 1)%nat = false) as Hlen.
  { apply Nat.eqb_neq. intros E. apply Hden. by apply denominations_singleton. }
  unfold getIBCCoinFromNative, verifyIBCCoins. rewrite Hlen. split; reflexivity.
Qed.

Lemma C6_bundle_rejected_before_lookup_witness :
  let r := sampleResolver true (decimal 2 0) in
  let coins := [mkCoin "ibc/ABC" 3; mkCoin "ibc/XYZ" 4] in
  getIBCCoinFromNative r coins (mkHostZone "ibc/XYZ" true)
    = ([], Err (ErrExpectedOneNativeCoin 2)) /\
  verifyIBCCoins r coins = ([], Err ErrInvalidIBCFees).
Proof.
  apply (C6_bundle_rejected_before_lookup (sampleResolver true (decimal 2 0))
           [mkCoin "ibc/ABC" 3; mkCoin "ibc/XYZ" 4] (mkHostZone "ibc/XYZ" true)).
  vm_compute. discriminate.
Defined.

End ResolverFacts.

(* ===================================================================== *)
(** ** Further properties of the decorator chain *)
(* ===================================================================== *)

Module AnteProperties.
Import Ante AnteFacts AnteMore.

(** X1: [NewAnteHandler] returns an error exactly when one of the six
    dependencies it checks is nil. *)
Theorem NewAnteHandler_error_iff_missing options :
  (exists e, NewAnteHandler options = Err e) <->
  (AccountKeeper_ options = None \/ BankKeeper_ (embedded options) = None \/
   SignModeHandler_ (embedded options) = None \/ WasmConfig_ options = None \/
   TXCounterStoreService_ options = None \/ CircuitKeeper_ options = None).
Proof.
  unfold NewAnteHandler.
  destruct (AccountKeeper_ options); [|split; eauto].
  destruct (BankKeeper_ (embedded options)); [|split; eauto].
  destruct (SignModeHandler_ (embedded options)); [|split; eauto 6].
  destruct (WasmConfig_ options); [|split; eauto 6].
  destruct (TXCounterStoreService_ options); [|split; eauto 7].
  destruct (CircuitKeeper_ options); [|split; eauto 8].
  destruct (WasmKeeper_ options); simpl;
    (split; [intros [e H]; discriminate | intros H; decompose [or] H; discriminate]).
Qed.

(** X2: a handler returned by [NewAnteHandler] is never the nil handler:
    its chain has 18 decorators, starts with the context set-up, ends with
    the redundant-relay decorator, and no two of its decorators are of the
    same stage. *)
Theorem NewAnteHandler_chain_shape options h :
  NewAnteHandler options = Ok h ->
  h ≠ nilAnteHandler /\
  length (decorators h) = 18%nat /\
  head (decorators h) = Some SetUpContextDecorator /\
  last (decorators h) = Some (RedundantRelayDecorator (IBCKeeper_ options)) /\
  NoDup (stageOf <$> decorators h).
Proof.
  intros H. destruct (NewAnteHandler_chain _ _ H) as (gasLimit & gr & Hc).
  split.
  { intros ->. discriminate Hc. }
  rewrite Hc. repeat split.
  apply (bool_decide_unpack _). vm_compute. exact I.
Qed.

Lemma NewAnteHandler_chain_shape_witness :
  exists h, NewAnteHandler optionsComplete = Ok h /\
    h ≠ nilAnteHandler /\
    length (decorators h) = 18%nat /\
    head (decorators h) = Some SetUpContextDecorator /\
    last (decorators h) = Some (RedundantRelayDecorator (IBCKeeper_ optionsComplete)) /\
    NoDup (stageOf <$> decorators h).
Proof.
  eexists. split; [reflexivity|].
  apply (NewAnteHandler_chain_shape optionsComplete _ eq_refl).
Defined.

(** X3: the account keeper of the embedded SDK options is shadowed by the
    outer field and never read: replacing it changes nothing, and options
    that set only the embedded one are refused. *)
Theorem NewAnteHandler_ignores_embedded_account_keeper options ak :
  NewAnteHandler (withEmbeddedAccountKeeper ak options) = NewAnteHandler options /\
  (AccountKeeper_ options = None ->
   NewAnteHandler (withEmbeddedAccountKeeper ak options)
   = Err (ErrorString "account keeper is required for ante builder")).
Proof.
  split.
  - reflexivity.
  - intros H. unfold NewAnteHandler. cbn [withEmbeddedAccountKeeper AccountKeeper_].
    rewrite H. reflexivity.
Qed.

Lemma NewAnteHandler_ignores_embedded_account_keeper_witness :
  sdk_AccountKeeper (embedded optionsEmbeddedKeeperOnly) = Some (AccountKeeperRef 0) /\
  NewAnteHandler optionsEmbeddedKeeperOnly
  = Err (ErrorString "account keeper is required for ante builder").
Proof.
  split; [reflexivity|].
  apply (proj2 (NewAnteHandler_ignores_embedded_account_keeper
                  optionsEmbeddedKeeperOnly (Some (AccountKeeperRef 0)))).
  reflexivity.
Defined.

End AnteProperties.

(* ===================================================================== *)
(** ** Further properties of the denom resolver *)
(* ===================================================================== *)

Module ResolverProperties.
Import Sdk Resolver SdkFacts ResolverFacts.

(** *** Reading a successful run backwards *)

Lemma bind_Ok_inv {A B} (m : M A) (f : A -> M B) b :
  outcome (bind m f) = Ok b ->
  exists a, outcome m = Ok a /\ outcome (f a) = Ok b.
Proof.
  destruct m as [l [a| |]]; simpl; try discriminate.
  intros H. exists a. split; [done|]. destruct (f a). exact H.
Qed.

Lemma NewCoin_Ok_inv denom amount c :
  NewCoin denom amount = Ok c ->
  c = mkCoin denom amount /\ ValidateDenom denom = true /\ 0 <= amount.
Proof.
  unfold NewCoin. destruct (ValidateDenom denom); simpl; [|discriminate].
  destruct (Z.ltb_spec amount 0); [discriminate|].
  intros [= <-]. done.
Qed.

Lemma NewCoins_single_Ok_inv c coins :
  NewCoins [c] = Ok coins ->
  (Amount c = 0 /\ coins = []) \/
  (0 < Amount c /\ ValidateDenom (Denom c) = true /\ coins = [c]).
Proof.
  unfold NewCoins, sanitizeCoins, removeZeroCoins. simpl.
  destruct (Z.eqb_spec (Amount c) 0) as [E|N]; simpl.
  - intros [= <-]. by left.
  - unfold ValidateCoins. simpl.
    destruct (ValidateDenom (Denom c)); simpl; [|discriminate].
    destruct (Z.ltb_spec 0 (Amount c)); simpl; [|discriminate].
    intros [= <-]. by right.
Qed.

Lemma NewDecCoinFromDec_Ok_inv denom amount c :
  NewDecCoinFromDec denom amount = Ok c ->
  c = mkDecCoin denom amount /\ ValidateDenom denom = true /\ 0 <= rawDec amount.
Proof.
  unfold NewDecCoinFromDec. destruct (ValidateDenom denom); simpl; [|discriminate].
  destruct (Z.ltb_spec (rawDec amount) 0); [discriminate|].
  intros [= <-]. done.
Qed.

Lemma verifyIBCCoins_Ok_inv r coins :
  outcome (verifyIBCCoins r coins) = Ok tt ->
  exists c, coins = [c] /\ is_Some (hostZoneConfigs (FeeabsKeeper_ r) !! Denom c).
Proof.
  destruct coins as [|c [|c' coins]]; try discriminate.
  rewrite verifyIBCCoins_single. simpl.
  destruct (bool_decide_reflect
              (is_Some (hostZoneConfigs (FeeabsKeeper_ r) !! Denom c))); [|discriminate].
  intros _. by exists c.
Qed.

(** X4: whenever [getIBCCoinFromNative] returns a bundle, it is one coin of
    the config's denomination, with a positive amount, and that
    denomination has a Host Zone Config. *)
Theorem getIBCCoinFromNative_returns_one_registered_coin r nativeCoins cfg coins :
  outcome (getIBCCoinFromNative r nativeCoins cfg) = Ok coins ->
  exists amount,
    0 < amount /\
    coins = [mkCoin (IbcDenom cfg) amount] /\
    ValidateDenom (IbcDenom cfg) = true /\
    is_Some (hostZoneConfigs (FeeabsKeeper_ r) !! IbcDenom cfg).
Proof.
  unfold getIBCCoinFromNative.
  destruct (negb (length nativeCoins =? 1)%nat); [discriminate|].
  intros H.
  apply bind_Ok_inv in H as (nativeCoin & _ & H).
  apply bind_Ok_inv in H as (twapRate & _ & H).
  apply bind_Ok_inv in H as (quotient & _ & H).
  apply bind_Ok_inv in H as (ibcCoin & Hcoin & H).
  apply bind_Ok_inv in H as (checked & Hchecked & H).
  apply bind_Ok_inv in H as ([] & Hverify & H).
  apply NewCoin_Ok_inv in Hcoin as (-> & Hvalid & Hnonneg).
  cbn [outcome lift snd] in Hchecked, H.
  apply NewCoins_single_Ok_inv in Hchecked as [(Hz & ->) | (Hpos & _ & ->)].
  - discriminate Hverify.
  - apply verifyIBCCoins_Ok_inv in Hverify as (c & [= <-] & Hreg).
    apply NewCoins_single_Ok_inv in H as [(Hz & ->) | (_ & _ & ->)];
      [cbn [Amount] in *; lia|].
    eexists. split; [exact Hpos|]. done.
Qed.

Lemma CalculateNativeFromIBCCoins_Ok_inv k ibcCoins cfg coins :
  outcome (CalculateNativeFromIBCCoins k ibcCoins cfg) = Ok coins ->
  coins = [] \/ exists c, coins = [c] /\ 0 < Amount c.
Proof.
  unfold CalculateNativeFromIBCCoins. intros H.
  apply bind_Ok_inv in H as (? & _ & H).
  apply bind_Ok_inv in H as (twapRate & _ & H).
  apply bind_Ok_inv in H as (coin & _ & H).
  apply bind_Ok_inv in H as (bondDenom & _ & H).
  apply bind_Ok_inv in H as (nativeFee & _ & H).
  cbn [outcome lift snd] in H.
  apply NewCoins_single_Ok_inv in H as [(_ & ->) | (Hpos & _ & ->)]; [by left|].
  right. by exists nativeFee.
Qed.

(** X5: whenever [ConvertToDenom] returns a coin, the coin is in the
    requested denomination, which is a valid one, and its amount is a
    positive whole number: never zero, never fractional. *)
Theorem ConvertToDenom_returns_whole_positive_amount r coin denom c :
  outcome (ConvertToDenom r coin denom) = Ok c ->
  DecDenom c = denom /\
  ValidateDenom denom = true /\
  exists k, 0 < k /\ DecAmount c = ToLegacyDec k.
Proof.
  unfold ConvertToDenom. intros H.
  apply bind_Ok_inv in H as (bondDenom & _ & H).
  destruct (String.eqb denom bondDenom).
  - apply bind_Ok_inv in H as ([cfg|] & _ & H); [|discriminate].
    apply bind_Ok_inv in H as (c0 & _ & H).
    apply bind_Ok_inv in H as (nativeCoins & _ & H).
    apply bind_Ok_inv in H as (amount & Hamount & H).
    apply bind_Ok_inv in H as (a0 & Hfirst & H).
    apply getIBCCoinFromNative_returns_one_registered_coin in Hamount
      as (k & Hk & -> & _).
    injection Hfirst as <-. cbn [outcome lift snd Amount] in H.
    apply NewDecCoinFromDec_Ok_inv in H as (-> & Hvalid & _).
    split; [done|]. split; [done|]. by exists k.
  - apply bind_Ok_inv in H as ([cfg|] & _ & H); [|discriminate].
    apply bind_Ok_inv in H as (c0 & _ & H).
    apply bind_Ok_inv in H as (ibcCoins & _ & H).
    apply bind_Ok_inv in H as (amount & Hamount & H).
    apply bind_Ok_inv in H as (a0 & Hfirst & H).
    apply CalculateNativeFromIBCCoins_Ok_inv in Hamount as [-> | (c1 & -> & Hpos)];
      [discriminate Hfirst|].
    injection Hfirst as <-. cbn [outcome lift snd] in H.
    apply NewDecCoinFromDec_Ok_inv in H as (-> & Hvalid & _).
    split; [done|]. split; [done|]. by exists (Amount c1).
Qed.

Lemma ConvertToDenom_returns_whole_positive_amount_witness :
  DecDenom (mkDecCoin "ueve" (ToLegacyDec 5)) = "ueve" /\
  ValidateDenom "ueve" = true /\
  exists k, 0 < k /\ DecAmount (mkDecCoin "ueve" (ToLegacyDec 5)) = ToLegacyDec k.
Proof.
  apply (ConvertToDenom_returns_whole_positive_amount
           (sampleResolver true (decimal 2 0))
           (mkDecCoin "ibc/XYZ" (decimal 10 900000000000000000)) "ueve").
  reflexivity.
Defined.

(** X6: the fractional part of the input amount plays no part: the coin
    and the coin cut to its whole amount convert alike, reads included. *)
Theorem ConvertToDenom_ignores_fraction r coin denom :
  ConvertToDenom r coin denom
  = ConvertToDenom r
      (mkDecCoin (DecDenom coin) (ToLegacyDec (TruncateInt (DecAmount coin)))) denom.
Proof.
  unfold ConvertToDenom. cbn [DecDenom DecAmount].
  rewrite TruncateInt_ToLegacyDec. reflexivity.
Qed.

(** A stored rate of zero makes the division panic. *)
Lemma getIBCCoinFromNative_zero_rate_panics r c cfg rate :
  twapRates (FeeabsKeeper_ r) !! IbcDenom cfg = Some rate ->
  rawDec rate = 0 ->
  getIBCCoinFromNative r [c] cfg
  = ([LookupGetTwapRate (IbcDenom cfg)], Panic "division by zero").
Proof.
  intros Htwap Hzero. unfold getIBCCoinFromNative.
  cbn [length Nat.eqb negb first]. rewrite bind_lift_Ok.
  unfold GetTwapRate. rewrite Htwap, bind_call_Ok.
  unfold Quo. rewrite Hzero. reflexivity.
Qed.

(** *** Order and exactness of the rounding *)

Lemma round_half_even_mono a1 a2 b :
  0 < b -> a1 <= a2 -> round_half_even a1 b <= round_half_even a2 b.
Proof.
  intros Hb Hle.
  destruct (Z.eq_dec a1 a2) as [->|Hne]; [lia|].
  pose proof (round_half_even_near a1 b Hb) as H1.
  pose proof (round_half_even_near a2 b Hb) as H2.
  revert H1 H2.
  generalize (round_half_even a1 b) (round_half_even a2 b). intros q1 q2 H1 H2.
  nia.
Qed.

Lemma dividedAmount_mono n1 n2 rate :
  0 < rate -> n1 <= n2 -> dividedAmount n1 rate <= dividedAmount n2 rate.
Proof.
  intros Hr Hle. unfold dividedAmount, quotient18.
  do 2 (apply round_half_even_mono; [reflexivity|]).
  apply Z.div_le_mono; [done|].
  unfold precisionReuse, squaredPrecisionReuse. lia.
Qed.

Lemma TruncateInt_mono d1 d2 :
  0 <= rawDec d1 -> rawDec d1 <= rawDec d2 -> TruncateInt d1 <= TruncateInt d2.
Proof.
  intros H0 Hle. unfold TruncateInt.
  rewrite !Z.quot_div_nonneg by (lia || reflexivity).
  apply Z.div_le_mono; [reflexivity | done].
Qed.

Lemma dividedAmount_exact n k rate :
  0 < rate -> n * precisionReuse = k * rate -> dividedAmount n rate = k.
Proof.
  intros Hr Heq. unfold dividedAmount, quotient18.
  replace (n * precisionReuse * squaredPrecisionReuse)
    with (k * precisionReuse * precisionReuse * rate)
    by (rewrite squaredPrecisionReuse_eq; nia).
  rewrite Z.div_mul by lia.
  rewrite !round_half_even_exact by reflexivity. reflexivity.
Qed.

Lemma multipliedAmount_exact n k rate :
  n * precisionReuse = k * rate -> multipliedAmount k rate = n.
Proof.
  intros Heq. unfold multipliedAmount.
  replace (rate * k) with (n * precisionReuse) by lia.
  apply round_half_even_exact. reflexivity.
Qed.

Section RegisteredAsset.

Variable r : DenomResolverImpl.
Variables bond denom : string.
Variable cfg : HostChainFeeAbsConfig.
Variable rate : LegacyDec.
Hypothesis bond_read : BondDenom (StakingKeeper_ r) = Ok bond.
Hypothesis bond_valid : ValidateDenom bond = true.
Hypothesis registered : hostZoneConfigs (FeeabsKeeper_ r) !! denom = Some cfg.
Hypothesis keyed : IbcDenom cfg = denom.
Hypothesis denom_valid : ValidateDenom denom = true.
Hypothesis rate_stored : twapRates (FeeabsKeeper_ r) !! denom = Some rate.

(** X7: with a stored rate of zero, converting a whole amount to the bond
    denomination is not an error but a panic: the division in
    [getIBCCoinFromNative] is unguarded. *)
Theorem ConvertToDenom_zero_rate_panics amount :
  rawDec rate = 0 ->
  0 < TruncateInt amount ->
  ConvertToDenom r (mkDecCoin denom amount) bond
  = ([LookupBondDenom; LookupGetHostZoneConfig denom; LookupGetTwapRate denom],
     Panic "division by zero").
Proof.
  intros Hzero Hn. unfold ConvertToDenom. cbn [DecDenom DecAmount].
  rewrite bond_read, bind_call_Ok, String.eqb_refl.
  unfold GetHostZoneConfig. rewrite registered, bind_call_Ok.
  rewrite NewCoin_valid, bind_lift_Ok by (done || lia).
  rewrite NewCoins_single by (done || (cbn [Amount]; lia)). cbn [Amount].
  destruct (Z.eqb_spec (TruncateInt amount) 0) as [E|N]; [lia|].
  rewrite bind_lift_Ok.
  rewrite (getIBCCoinFromNative_zero_rate_panics r _ cfg rate);
    rewrite ?keyed; done.
Qed.

Hypothesis rate_pos : 0 < rawDec rate.

(** X8: converting to the bond denomination is monotone in the amount: if
    a coin converts, every larger coin of the same denomination converts
    too, to at least as much. *)
Theorem ConvertToDenom_to_native_monotone a1 a2 c1 :
  0 <= rawDec a1 -> rawDec a1 <= rawDec a2 ->
  outcome (ConvertToDenom r (mkDecCoin denom a1) bond) = Ok c1 ->
  exists c2,
    outcome (ConvertToDenom r (mkDecCoin denom a2) bond) = Ok c2 /\
    rawDec (DecAmount c1) <= rawDec (DecAmount c2).
Proof.
  intros H0 Hle.
  pose proof (TruncateInt_nonneg _ H0) as Hn1.
  pose proof (TruncateInt_mono _ _ H0 Hle) as Hn.
  pose proof (dividedAmount_mono _ _ (rawDec rate) rate_pos Hn) as Hm.
  pose proof (dividedAmount_nonneg _ (rawDec rate) Hn1 rate_pos) as Hm1.
  rewrite !ConvertToDenom_to_native with (cfg := cfg) (rate := rate)
    by (done || (cbn [DecAmount]; lia)).
  cbn [DecDenom DecAmount].
  destruct (Z.eqb_spec (TruncateInt a1) 0); [discriminate|].
  destruct (Z.eqb_spec (dividedAmount (TruncateInt a1) (rawDec rate)) 0);
    [discriminate|].
  intros [= <-].
  destruct (Z.eqb_spec (TruncateInt a2) 0); [lia|].
  destruct (Z.eqb_spec (dividedAmount (TruncateInt a2) (rawDec rate)) 0); [lia|].
  eexists. split; [reflexivity|]. cbn [DecAmount ToLegacyDec rawDec].
  unfold precisionReuse. lia.
Qed.

Hypothesis keeper_bond_read : BondDenom (sk (FeeabsKeeper_ r)) = Ok bond.
Hypothesis foreign : denom ≠ bond.

(** X9: converting from the bond denomination to a registered one
    multiplies the whole amount by the rate and rounds half to even. A
    whole amount of zero is an error; a product that rounds to zero makes
    [amount[0]] panic. *)
Theorem ConvertToDenom_from_native_outcome amount :
  0 <= rawDec amount ->
  let n := TruncateInt amount in
  let n' := round_half_even (rawDec rate * n) precisionReuse in
  outcome (ConvertToDenom r (mkDecCoin bond amount) denom) =
    if n =? 0 then Err ErrInvalidIBCFees
    else if n' =? 0 then Panic "index out of range [0] with length 0"
    else Ok (mkDecCoin denom (ToLegacyDec n')).
Proof.
  intros H0 n n'.
  rewrite ConvertToDenom_from_native with (bond := bond) (cfg := cfg) (rate := rate)
    by done.
  cbn [DecAmount]. fold n. change (multipliedAmount n (rawDec rate)) with n'.
  destruct (n =? 0); [reflexivity|]. destruct (n' =? 0); reflexivity.
Qed.

(** X10: when the rate divides the whole amount exactly, both directions are
    exact and undo each other. *)
Theorem ConvertToDenom_exact_round_trip amount k :
  0 <= rawDec amount -> 0 < k ->
  TruncateInt amount * precisionReuse = k * rawDec rate ->
  outcome (ConvertToDenom r (mkDecCoin denom amount) bond)
    = Ok (mkDecCoin bond (ToLegacyDec k)) /\
  outcome (ConvertToDenom r (mkDecCoin bond (ToLegacyDec k)) denom)
    = Ok (mkDecCoin denom (ToLegacyDec (TruncateInt amount))).
Proof.
  intros H0 Hk Heq.
  pose proof (dividedAmount_exact _ _ _ rate_pos Heq) as Hd.
  pose proof (multipliedAmount_exact _ _ _ Heq) as Hm.
  assert (0 < TruncateInt amount) as Hn by (unfold precisionReuse in Heq; nia).
  split.
  - rewrite ConvertToDenom_to_native with (cfg := cfg) (rate := rate) by done.
    cbn [DecDenom DecAmount]. rewrite Hd.
    destruct (Z.eqb_spec (TruncateInt amount) 0); [lia|].
    destruct (Z.eqb_spec k 0); [lia|]. reflexivity.
  - rewrite ConvertToDenom_from_native with (bond := bond) (cfg := cfg) (rate := rate);
      try done.
    + cbn [DecAmount]. rewrite TruncateInt_ToLegacyDec, Hm.
      destruct (Z.eqb_spec k 0); [lia|].
      destruct (Z.eqb_spec (TruncateInt amount) 0); [lia|]. reflexivity.
    + cbn [DecAmount ToLegacyDec rawDec]. unfold precisionReuse. lia.
Qed.

End RegisteredAsset.

Lemma ConvertToDenom_zero_rate_panics_witness :
  ConvertToDenom (sampleResolver true (decimal 0 0))
    (mkDecCoin "ibc/XYZ" (decimal 3 0)) "ueve"
  = ([LookupBondDenom; LookupGetHostZoneConfig "ibc/XYZ"; LookupGetTwapRate "ibc/XYZ"],
     Panic "division by zero").
Proof.
  apply (ConvertToDenom_zero_rate_panics (sampleResolver true (decimal 0 0))
           "ueve" "ibc/XYZ" (mkHostZone "ibc/XYZ" true) (decimal 0 0));
    reflexivity.
Defined.

Lemma ConvertToDenom_to_native_monotone_witness :
  exists c2,
    outcome (ConvertToDenom (sampleResolver true (decimal 2 0))
               (mkDecCoin "ibc/XYZ" (decimal 11 0)) "ueve") = Ok c2 /\
    rawDec (DecAmount (mkDecCoin "ueve" (ToLegacyDec 5))) <= rawDec (DecAmount c2).
Proof.
  apply (ConvertToDenom_to_native_monotone (sampleResolver true (decimal 2 0))
           "ueve" "ibc/XYZ" (mkHostZone "ibc/XYZ" true) (decimal 2 0))
    with (a1 := decimal 10 0);
    solve [reflexivity | vm_compute; discriminate].
Defined.

Lemma ConvertToDenom_from_native_outcome_witness :
  outcome (ConvertToDenom (sampleResolver true (decimal 2 500000000000000000))
             (mkDecCoin "ueve" (decimal 3 0)) "ibc/XYZ")
  = Ok (mkDecCoin "ibc/XYZ" (ToLegacyDec 8)).
Proof.
  apply (ConvertToDenom_from_native_outcome
           (sampleResolver true (decimal 2 500000000000000000))
           "ueve" "ibc/XYZ" (mkHostZone "ibc/XYZ" true)
           (decimal 2 500000000000000000));
    solve [reflexivity | vm_compute; discriminate].
Defined.

Lemma ConvertToDenom_exact_round_trip_witness :
  outcome (ConvertToDenom (sampleResolver true (decimal 2 0))
             (mkDecCoin "ibc/XYZ" (decimal 10 0)) "ueve")
    = Ok (mkDecCoin "ueve" (ToLegacyDec 5)) /\
  outcome (ConvertToDenom (sampleResolver true (decimal 2 0))
             (mkDecCoin "ueve" (ToLegacyDec 5)) "ibc/XYZ")
    = Ok (mkDecCoin "ibc/XYZ" (ToLegacyDec (TruncateInt (decimal 10 0)))).
Proof.
  apply (ConvertToDenom_exact_round_trip (sampleResolver true (decimal 2 0))
           "ueve" "ibc/XYZ" (mkHostZone "ibc/XYZ" true) (decimal 2 0));
    solve [reflexivity | vm_compute; discriminate].
Defined.

(** X11: the advertised list and the verifier agree: under the keeper's
    discipline, a denomination is listed by [ExtraDenoms] exactly when
    [verifyIBCCoins] accepts a one-coin bundle of it. *)
Theorem ExtraDenoms_lists_what_verifyIBCCoins_accepts r d amount :
  registryKeyed (FeeabsKeeper_ r) ->
  exists denoms,
    outcome (ExtraDenoms r) = Ok denoms /\
    (d ∈ denoms <-> outcome (verifyIBCCoins r [mkCoin d amount]) = Ok tt).
Proof.
  intros Hkeyed. rewrite ExtraDenoms_eq, verifyIBCCoins_single.
  eexists. split; [reflexivity|]. cbn [outcome snd Denom].
  rewrite elem_of_ExtraDenoms.
  destruct (bool_decide_reflect
              (is_Some (hostZoneConfigs (FeeabsKeeper_ r) !! d))) as [Hs|Hn].
  - split; [done|]. intros _. destruct Hs as [cfg Hl].
    exists d, cfg. split; [done|]. exact (Hkeyed d cfg Hl).
  - split; [|discriminate].
    intros (key & cfg & Hl & <-). exfalso. apply Hn.
    rewrite (Hkeyed key cfg Hl). by exists cfg.
Qed.

Lemma ExtraDenoms_lists_what_verifyIBCCoins_accepts_witness :
  exists denoms,
    outcome (ExtraDenoms (sampleResolver false (decimal 2 0))) = Ok denoms /\
    ("ibc/XYZ" ∈ denoms <->
     outcome (verifyIBCCoins (sampleResolver false (decimal 2 0))
                [mkCoin "ibc/XYZ" 1]) = Ok tt).
Proof.
  apply (ExtraDenoms_lists_what_verifyIBCCoins_accepts
           (sampleResolver false (decimal 2 0)) "ibc/XYZ" 1).
  apply (bool_decide_unpack _). vm_compute. exact I.
Defined.

Lemma getIBCCoinFromNative_returns_one_registered_coin_witness :
  exists amount,
    0 < amount /\
    [mkCoin "ibc/XYZ" 5] = [mkCoin (IbcDenom (mkHostZone "ibc/XYZ" true)) amount] /\
    ValidateDenom (IbcDenom (mkHostZone "ibc/XYZ" true)) = true /\
    is_Some (hostZoneConfigs (FeeabsKeeper_ (sampleResolver true (decimal 2 0)))
               !! IbcDenom (mkHostZone "ibc/XYZ" true)).
Proof.
  apply (getIBCCoinFromNative_returns_one_registered_coin
           (sampleResolver true (decimal 2 0)) [mkCoin "ibc/XYZ" 10]
           (mkHostZone "ibc/XYZ" true)).
  reflexivity.
Defined.

End ResolverProperties.

(* ===================================================================== *)
(** ** Properties of the airdrop utilities *)
(* ===================================================================== *)

Module UtilsFacts.
Import Utils.

Section FindValidator.

Context {Validator : Type} (OperatorAddress : Validator -> string).

Lemma FindValidatorInfoFrom_spec key (validators : list Validator) address :
  let i := FindValidatorInfoFrom OperatorAddress key validators address in
  0 <= key ->
  (i = -1 /\ Forall (fun v => OperatorAddress v ≠ address) validators) \/
  (key <= i < key + Z.of_nat (length validators) /\
   exists v, validators !! Z.to_nat (i - key) = Some v /\
             OperatorAddress v = address /\
             Forall (fun w => OperatorAddress w ≠ address)
                    (take (Z.to_nat (i - key)) validators)).
Proof.
  revert key. induction validators as [|v rest IH]; intros key i Hkey.
  - left. split; [reflexivity | constructor].
  - subst i. simpl FindValidatorInfoFrom.
    destruct (String.eqb_spec (OperatorAddress v) address) as [E|N].
    + right. split; [simpl length; lia|].
      exists v. rewrite Z.sub_diag. simpl. repeat split; [done | constructor].
    + destruct (IH (key + 1) ltac:(lia)) as [(Hi & Hall) | (Hr & w & Hl & Hw & Hbefore)].
      * left. split; [done | by constructor].
      * right. split; [simpl length; lia|].
        exists w.
        replace (Z.to_nat (FindValidatorInfoFrom OperatorAddress (key + 1) rest address - key))
          with (S (Z.to_nat (FindValidatorInfoFrom OperatorAddress (key + 1) rest address - (key + 1))))
          by lia.
        simpl. repeat split; [done | done | by constructor].
Qed.

(** X12: [FindValidatorInfo] returns -1 exactly when no validator has the
    address; otherwise it returns the index of the first validator that
    has it. [FindValidatorInfoCustomType] does the same. *)
Theorem FindValidatorInfo_first_match (validators : list Validator) address :
  let i := FindValidatorInfo OperatorAddress validators address in
  FindValidatorInfoCustomType OperatorAddress validators address = i /\
  ((i = -1 /\ Forall (fun v => OperatorAddress v ≠ address) validators) \/
   (0 <= i < Z.of_nat (length validators) /\
    exists v, validators !! Z.to_nat i = Some v /\
              OperatorAddress v = address /\
              Forall (fun w => OperatorAddress w ≠ address)
                     (take (Z.to_nat i) validators))).
Proof.
  intros i. split; [reflexivity|].
  pose proof (FindValidatorInfoFrom_spec 0 validators address ltac:(lia)) as H.
  cbv zeta in H. fold (FindValidatorInfo OperatorAddress validators address) in H.
  fold i in H. rewrite Z.sub_0_r, Z.add_0_l in H. exact H.
Qed.

End FindValidator.

Section Retry.

Context {Balance Reward FnError World : Type} (MaxRetries : Z).

Lemma retryLoop_failing remaining k attempt (fn : BalanceFunction Balance Reward FnError World) name w printed w' errs :
  failing k fn w = Some (w', errs) ->
  (k <= remaining)%nat ->
  retryLoop remaining attempt fn name w printed
  = retryLoop (remaining - k) (attempt + Z.of_nat k)
      fn name w' (printed ++ printedFrom attempt name errs).
Proof.
  revert remaining attempt w printed errs.
  induction k as [|k IH]; intros remaining attempt w printed errs Hf Hle.
  - injection Hf as <- <-. simpl. rewrite Nat.sub_0_r, Z.add_0_r, app_nil_r.
    reflexivity.
  - simpl in Hf. destruct remaining as [|remaining]; [lia|].
    simpl retryLoop. destruct (fn w) as [w1 [values|err]]; [discriminate|].
    destruct (failing k fn w1) as [[w2 errs']|] eqn:Hk; [|discriminate].
    injection Hf as <- <-.
    rewrite (IH remaining (attempt + 1) w1 _ errs' Hk ltac:(lia)).
    simpl printedFrom. rewrite <- app_assoc. simpl.
    replace (attempt + 1 + Z.of_nat k) with (attempt + Z.of_nat (S k)) by lia.
    reflexivity.
Qed.

(** X13: the wrapper returns the values of the first call that succeeds,
    provided it is among the first [MaxRetries] calls: the calls before it
    are printed as failed attempts 1, 2, ..., and no call is made after
    it. *)
Theorem RetryableBalanceFunc_first_success (fn : BalanceFunction Balance Reward FnError World) name w k w' errs w'' values :
  failing k fn w = Some (w', errs) ->
  fn w' = (w'', inl values) ->
  Z.of_nat k < MaxRetries ->
  RetryableBalanceFunc MaxRetries fn name w
  = (w'', printedFrom 1 name errs, inl values).
Proof.
  intros Hf Hs Hk. unfold RetryableBalanceFunc.
  rewrite (retryLoop_failing _ k _ _ _ _ _ _ _ Hf) by lia.
  destruct (Z.to_nat MaxRetries - k)%nat as [|n] eqn:E; [lia|].
  simpl. rewrite Hs. reflexivity.
Qed.

(** X14: when the first [MaxRetries] calls all fail, the wrapper stops
    there: it has printed one line per call and returns the "maximum
    retries reached" error. With [MaxRetries <= 0] the function is never
    called. *)
Theorem RetryableBalanceFunc_exhausted (fn : BalanceFunction Balance Reward FnError World) name w w' errs :
  failing (Z.to_nat MaxRetries) fn w = Some (w', errs) ->
  RetryableBalanceFunc MaxRetries fn name w
  = (w', printedFrom 1 name errs, inr (MaximumRetriesReached name)) /\
  length errs = Z.to_nat MaxRetries /\
  (MaxRetries <= 0 -> w' = w /\ errs = []).
Proof.
  intros Hf. split; [|split].
  - unfold RetryableBalanceFunc.
    rewrite (retryLoop_failing _ _ _ _ _ _ _ _ _ Hf) by lia.
    rewrite Nat.sub_diag. reflexivity.
  - revert w w' errs Hf. induction (Z.to_nat MaxRetries) as [|n IH]; intros w w' errs Hf.
    + by injection Hf as <- <-.
    + simpl in Hf. destruct (fn w) as [w1 [values|err]]; [discriminate|].
      destruct (failing n fn w1) as [[w2 errs']|] eqn:Hk; [|discriminate].
      injection Hf as <- <-. simpl. f_equal. by apply (IH w1 w2).
  - intros Hle. replace (Z.to_nat MaxRetries) with 0%nat in Hf by lia.
    by injection Hf as <- <-.
Qed.

End Retry.

Lemma RetryableBalanceFunc_first_success_witness :
  RetryableBalanceFunc 3 flakyQuery "queryBalances" 0%nat
  = (3%nat,
     [mkFailedAttempt 1 "queryBalances" "unavailable"%string;
      mkFailedAttempt 2 "queryBalances" "unavailable"%string],
     inl (["balance"%string], ["reward"%string], 1)).
Proof.
  apply (RetryableBalanceFunc_first_success 3 flakyQuery "queryBalances" 0%nat 2%nat
           2%nat ["unavailable"%string; "unavailable"%string] 3%nat);
    [reflexivity | reflexivity | lia].
Defined.

Lemma RetryableBalanceFunc_exhausted_witness :
  RetryableBalanceFunc 3 deadQuery "queryBalances" 0%nat
  = (3%nat,
     [mkFailedAttempt 1 "queryBalances" "unavailable"%string;
      mkFailedAttempt 2 "queryBalances" "unavailable"%string;
      mkFailedAttempt 3 "queryBalances" "unavailable"%string],
     inr (MaximumRetriesReached "queryBalances")).
Proof.
  apply (proj1 (RetryableBalanceFunc_exhausted 3 deadQuery "queryBalances" 0%nat
                  3%nat ["unavailable"%string; "unavailable"%string; "unavailable"%string]
                  eq_refl)).
Defined.

End UtilsFacts.

(* ===================================================================== *)
(** ** Facts about the claim messages on the wire *)
(* ===================================================================== *)

Module ClaimTxFacts.
Import ClaimTx.

(** *** Bytes *)

Lemma byteZ_range b : 0 <= byteZ b < 256.
Proof. unfold byteZ. pose proof (Byte.to_N_bounded b). lia. Qed.

Lemma byteZ_uint8 x : byteZ (uint8 x) = x mod 256.
Proof.
  unfold uint8, byteZ.
  pose proof (Z.mod_pos_bound x 256 ltac:(lia)) as Hb.
  destruct (Byte.of_N (Z.to_N (x mod 256))) as [b|] eqn:E.
  - apply Byte.to_of_N in E. rewrite E. lia.
  - apply Byte.of_N_None_iff in E. lia.
Qed.

Lemma uint8_byteZ b : uint8 (byteZ b) = b.
Proof.
  unfold uint8. pose proof (byteZ_range b) as Hb.
  rewrite Z.mod_small by done. unfold byteZ. rewrite N2Z.id, Byte.of_to_N.
  reflexivity.
Qed.

Lemma length_list_byte_of_string s :
  length (String.list_byte_of_string s) = String.length s.
Proof.
  unfold String.list_byte_of_string. rewrite length_map.
  induction s as [|c s IH]; simpl; [reflexivity | by rewrite IH].
Qed.

(** *** Bits *)

Lemma land_127 x : Z.land x 127 = x mod 128.
Proof. change 127 with (Z.ones 7). rewrite Z.land_ones by lia. reflexivity. Qed.

Lemma land_7 x : Z.land x 7 = x mod 8.
Proof. change 7 with (Z.ones 3). rewrite Z.land_ones by lia. reflexivity. Qed.

Lemma lor_shiftl_add a b n :
  0 <= n -> 0 <= a < 2 ^ n -> Z.lor a (Z.shiftl b n) = a + b * 2 ^ n.
Proof.
  intros Hn Ha.
  assert (Z.land a (Z.shiftl b n) = 0) as Hdisj.
  { apply Z.bits_inj'. intros i Hi. rewrite Z.land_spec, Z.bits_0.
    destruct (Z.lt_ge_cases i n) as [Hlt|Hge].
    - rewrite Z.shiftl_spec_low by done. apply andb_false_r.
    - destruct (Z.eq_dec a 0) as [->|Hne]; [by rewrite Z.bits_0|].
      rewrite (Z.bits_above_log2 a i); [reflexivity | lia |].
      assert (Z.log2 a < n) by (apply Z.log2_lt_pow2; lia). lia. }
  rewrite <- Z.lxor_lor, <- Z.add_nocarry_lxor by done.
  rewrite Z.shiftl_mul_pow2 by done. reflexivity.
Qed.

Lemma lor_128 x : Z.lor (Z.land x 127) 128 = x mod 128 + 128.
Proof.
  rewrite land_127.
  change (Z.lor (x mod 128) 128) with (Z.lor (x mod 128) (Z.shiftl 1 7)).
  rewrite lor_shiftl_add; [reflexivity | lia |].
  apply Z.mod_pos_bound. lia.
Qed.

(** *** The size of a varint *)

Lemma sovTx_small v : 0 <= v < 128 -> sovTx v = 1.
Proof.
  intros Hv. unfold sovTx, Len64.
  assert (0 < Z.lor v 1 < 128) as Hl.
  { split.
    - assert (Z.lor v 1 <> 0) by (rewrite Z.lor_eq_0_iff; lia).
      pose proof (Z.lor_nonneg v 1). lia.
    - apply Z.log2_lt_cancel. rewrite Z.log2_lor by lia.
      destruct (Z.eq_dec v 0) as [->|Hne]; [reflexivity|].
      assert (Z.log2 v < 7) by (apply Z.log2_lt_pow2; lia).
      change (Z.log2 128) with 7. change (Z.log2 1) with 0. lia. }
  destruct (Z.eqb_spec (Z.lor v 1) 0); [lia|].
  assert (Z.log2 (Z.lor v 1) < 7) by (apply Z.log2_lt_pow2; lia).
  pose proof (Z.log2_nonneg (Z.lor v 1)).
  symmetry. apply Z.div_unique with (r := Z.log2 (Z.lor v 1)); lia.
Qed.

Lemma sovTx_shiftr v : 128 <= v -> sovTx v = sovTx (Z.shiftr v 7) + 1.
Proof.
  intros Hv. unfold sovTx, Len64.
  assert (7 <= Z.log2 v) as Hlog by (apply Z.log2_le_pow2; lia).
  assert (0 < Z.shiftr v 7) as Hs.
  { rewrite Z.shiftr_div_pow2 by lia. apply Z.div_str_pos. lia. }
  assert (Z.log2 (Z.lor v 1) = Z.log2 v) as ->.
  { rewrite Z.log2_lor by lia. change (Z.log2 1) with 0. lia. }
  assert (Z.log2 (Z.lor (Z.shiftr v 7) 1) = Z.log2 v - 7) as ->.
  { rewrite Z.log2_lor by lia. rewrite Z.log2_shiftr by lia.
    change (Z.log2 1) with 0. lia. }
  assert (Z.lor v 1 <> 0) by (rewrite Z.lor_eq_0_iff; lia).
  assert (Z.lor (Z.shiftr v 7) 1 <> 0) by (rewrite Z.lor_eq_0_iff; lia).
  destruct (Z.eqb_spec (Z.lor v 1) 0); [lia|].
  destruct (Z.eqb_spec (Z.lor (Z.shiftr v 7) 1) 0); [lia|].
  replace (Z.log2 v + 1 + 6) with ((Z.log2 v - 7 + 1 + 6) + 1 * 7) by lia.
  rewrite Z.div_add by lia. reflexivity.
Qed.

(** [sovTx v] is the number of seven-bit groups of [v]. *)
Lemma sovTx_bounds v :
  0 <= v ->
  1 <= sovTx v /\
  v < 2 ^ (7 * sovTx v) /\
  (1 < sovTx v -> 2 ^ (7 * (sovTx v - 1)) <= v) /\
  (v < 2 ^ 64 -> sovTx v <= 10).
Proof.
  intros Hv. unfold sovTx, Len64.
  assert (Z.lor v 1 <> 0) by (rewrite Z.lor_eq_0_iff; lia).
  destruct (Z.eqb_spec (Z.lor v 1) 0); [lia|].
  assert (Z.log2 (Z.lor v 1) = Z.log2 v) as ->.
  { rewrite Z.log2_lor by lia. change (Z.log2 1) with 0.
    pose proof (Z.log2_nonneg v). lia. }
  pose proof (Z.log2_nonneg v) as Hl.
  set (k := (Z.log2 v + 1 + 6) / 7).
  assert (7 * k <= Z.log2 v + 7 < 7 * k + 7) as Hk.
  { pose proof (Z.div_mod (Z.log2 v + 1 + 6) 7 ltac:(lia)).
    pose proof (Z.mod_pos_bound (Z.log2 v + 1 + 6) 7 ltac:(lia)). subst k. lia. }
  split; [lia|]. split; [|split].
  - destruct (Z.eq_dec v 0) as [->|Hne]; [apply Z.pow_pos_nonneg; lia|].
    apply Z.log2_lt_pow2; lia.
  - intros Hk1. destruct (Z.eq_dec v 0) as [->|Hne]; [change (Z.log2 0) with 0 in Hk; lia|].
    apply Z.log2_le_pow2; lia.
  - intros H64. destruct (Z.eq_dec v 0) as [->|Hne]; [change (Z.log2 0) with 0 in Hk; lia|].
    assert (Z.log2 v < 64) by (apply Z.log2_lt_pow2; lia). lia.
Qed.

Lemma sovTx_pos v : 0 <= v -> 1 <= sovTx v.
Proof. intros Hv. apply (sovTx_bounds v Hv). Qed.

Lemma shiftr_7 v : Z.shiftr v 7 = v / 128.
Proof. rewrite Z.shiftr_div_pow2 by lia. reflexivity. Qed.

Lemma varint_small v : 0 <= v < 128 -> varint v = [uint8 v].
Proof. intros Hv. unfold varint. rewrite sovTx_small by done. reflexivity. Qed.

Lemma varint_large v :
  128 <= v -> varint v = uint8 (v mod 128 + 128) :: varint (v / 128).
Proof.
  intros Hv. unfold varint at 1. rewrite sovTx_shiftr by done.
  pose proof (sovTx_pos (Z.shiftr v 7) ltac:(rewrite shiftr_7; apply Z.div_pos; lia)).
  replace (Z.to_nat (sovTx (Z.shiftr v 7) + 1 - 1))
    with (S (Z.to_nat (sovTx (Z.shiftr v 7) - 1))) by lia.
  simpl. rewrite shiftr_7. reflexivity.
Qed.

Lemma length_varint v : 0 <= v -> len (varint v) = sovTx v.
Proof.
  intros Hv. unfold varint, len. pose proof (sovTx_pos v Hv).
  assert (forall n w, length (varintBytes n w) = S n) as Hlen.
  { induction n as [|n IH]; intros w; simpl; [reflexivity | by rewrite IH]. }
  rewrite Hlen. lia.
Qed.

(** The loop writes the varint of [v] over the bytes from [offset] on. *)
Lemma encodeVarintLoop_writes fuel : forall dAtA offset v,
  0 <= v -> sovTx v <= Z.of_nat fuel ->
  0 <= offset -> offset + sovTx v <= len dAtA ->
  encodeVarintLoop fuel dAtA offset v
  = Done (take (Z.to_nat offset) dAtA ++ varint v
          ++ drop (Z.to_nat (offset + sovTx v)) dAtA).
Proof.
  induction fuel as [|fuel IH]; intros dAtA offset v Hv Hfuel Hoff Hfit.
  - pose proof (sovTx_pos v Hv). lia.
  - pose proof (sovTx_pos v Hv) as Hpos. unfold len in Hfit. simpl encodeVarintLoop.
    destruct (Z.leb_spec 128 v) as [Hbig|Hsmall].
    + rewrite lor_128. unfold setByte, len.
      rewrite (proj2 (Z.leb_le 0 offset)) by lia.
      rewrite (proj2 (Z.ltb_lt offset (Z.of_nat (length dAtA)))) by lia. cbn [andb].
      pose proof (sovTx_shiftr v Hbig) as Hs. rewrite shiftr_7 in Hs |- *.
      rewrite IH; [| apply Z.div_pos; lia | lia | lia
                   | unfold len; rewrite length_insert; lia].
      rewrite (varint_large v) by lia. f_equal.
      replace (Z.to_nat (offset + 1)) with (S (Z.to_nat offset)) by lia.
      rewrite (take_S_r _ _ (uint8 (v mod 128 + 128)))
        by (apply list_lookup_insert_eq; lia).
      rewrite take_insert_ge by lia.
      rewrite drop_insert_lt by lia.
      rewrite <- app_assoc. simpl.
      replace (offset + 1 + sovTx (v / 128)) with (offset + sovTx v) by lia.
      reflexivity.
    + rewrite sovTx_small in * by lia. rewrite varint_small by lia.
      unfold setByte, len.
      rewrite (proj2 (Z.leb_le 0 offset)) by lia.
      rewrite (proj2 (Z.ltb_lt offset (Z.of_nat (length dAtA)))) by lia. cbn [andb]. f_equal.
      rewrite insert_take_drop by lia. do 3 f_equal. lia.
Qed.

Lemma encodeVarintTx_eq dAtA offset v :
  0 <= v < 2 ^ 64 ->
  sovTx v <= offset <= len dAtA ->
  encodeVarintTx dAtA offset v
  = Done (take (Z.to_nat (offset - sovTx v)) dAtA ++ varint v
          ++ drop (Z.to_nat offset) dAtA,
          offset - sovTx v).
Proof.
  intros Hv Hoff. unfold encodeVarintTx.
  pose proof (sovTx_bounds v ltac:(lia)) as (_ & _ & _ & H10).
  rewrite encodeVarintLoop_writes by lia.
  do 5 f_equal. lia.
Qed.

Lemma len_app {A} (xs ys : list A) : len (xs ++ ys) = len xs + len ys.
Proof. unfold len. rewrite length_app. lia. Qed.

Lemma len_cons {A} (x : A) (xs : list A) : len (x :: xs) = 1 + len xs.
Proof. unfold len. simpl length. lia. Qed.

Lemma len_nonneg {A} (xs : list A) : 0 <= len xs.
Proof. unfold len. lia. Qed.

Lemma index_middle pre b post : index (pre ++ b :: post) (len pre) = Some b.
Proof.
  unfold index, len. destruct (Z.ltb_spec (Z.of_nat (length pre)) 0); [lia|].
  rewrite Nat2Z.id. apply list_lookup_middle. reflexivity.
Qed.

Lemma uint64_small x : 0 <= x < 2 ^ 64 -> uint64 x = x.
Proof. intros Hx. unfold uint64. apply Z.mod_small. exact Hx. Qed.

Lemma int_small x : - 2 ^ 63 <= x < 2 ^ 63 -> int x = x.
Proof. intros Hx. unfold int. rewrite Z.mod_small; lia. Qed.

Lemma length_varintBytes n v : length (varintBytes n v) = S n.
Proof. revert v. induction n as [|n IH]; intros v; simpl; [reflexivity | by rewrite IH]. Qed.

Lemma lor_mul_add a b n :
  0 <= n -> 0 <= a < 2 ^ n -> Z.lor a (b * 2 ^ n) = a + b * 2 ^ n.
Proof.
  intros Hn Ha. rewrite <- (lor_shiftl_add a b n) by done.
  rewrite Z.shiftl_mul_pow2 by done. reflexivity.
Qed.

(** Reading back the groups of a varint. *)
Lemma readUvarint_varintBytes n : forall v pre post l shift acc fuel,
  0 <= v < 2 ^ (7 * (Z.of_nat n + 1)) ->
  0 <= shift -> shift + 7 * Z.of_nat n < 64 ->
  v * 2 ^ shift < 2 ^ 64 ->
  0 <= acc < 2 ^ shift ->
  (n < fuel)%nat ->
  len pre + Z.of_nat n + 1 <= l ->
  readUvarint fuel (pre ++ varintBytes n v ++ post) l (len pre) shift acc
  = Done (acc + v * 2 ^ shift, len pre + Z.of_nat n + 1).
Proof.
  induction n as [|n IH]; intros v pre post l shift acc fuel Hv Hs Hs64 Hv64 Hacc Hfuel Hl.
  - destruct fuel as [|fuel]; [lia|]. simpl varintBytes. simpl readUvarint.
    change (7 * (Z.of_nat 0 + 1)) with 7 in Hv. change (2 ^ 7) with 128 in Hv.
    destruct (Z.leb_spec 64 shift); [lia|].
    pose proof (len_nonneg pre).
    destruct (Z.leb_spec l (len pre)); [lia|].
    rewrite index_middle. rewrite byteZ_uint8, (Z.mod_small v 256) by lia.
    destruct (Z.ltb_spec v 128); [|lia].
    rewrite land_127, Z.mod_small by lia.
    rewrite Z.shiftl_mul_pow2 by lia. rewrite uint64_small by nia.
    rewrite lor_mul_add by lia.
    do 2 f_equal. lia.
  - destruct fuel as [|fuel]; [lia|]. simpl varintBytes. simpl readUvarint.
    destruct (Z.leb_spec 64 shift); [lia|].
    pose proof (len_nonneg pre).
    destruct (Z.leb_spec l (len pre)); [lia|].
    rewrite index_middle.
    pose proof (Z.mod_pos_bound v 128 ltac:(lia)) as Hm.
    rewrite byteZ_uint8, (Z.mod_small (v mod 128 + 128) 256) by lia.
    destruct (Z.ltb_spec (v mod 128 + 128) 128); [lia|].
    rewrite land_127.
    replace ((v mod 128 + 128) mod 128) with (v mod 128)
      by (apply Z.mod_unique with (q := 1); lia).
    pose proof (Z.div_mod v 128 ltac:(lia)) as Hdm.
    assert (0 <= v / 128) as Hq by (apply Z.div_pos; lia).
    assert (0 < 2 ^ shift) as Hp by (apply Z.pow_pos_nonneg; lia).
    assert (2 ^ (shift + 7) = 128 * 2 ^ shift) as Hp7
      by (rewrite Z.pow_add_r by lia; change (2 ^ 7) with 128; lia).
    rewrite Z.shiftl_mul_pow2 by lia. rewrite uint64_small by nia.
    rewrite lor_mul_add by lia.
    replace (pre ++ uint8 (v mod 128 + 128) :: varintBytes n (v / 128) ++ post)
      with ((pre ++ [uint8 (v mod 128 + 128)]) ++ varintBytes n (v / 128) ++ post)
      by (rewrite <- app_assoc; reflexivity).
    replace (len pre + 1) with (len (pre ++ [uint8 (v mod 128 + 128)]))
      by (rewrite len_app; reflexivity).
    rewrite IH.
    + rewrite len_app. change (len [uint8 (v mod 128 + 128)]) with 1.
      f_equal. f_equal; nia.
    + split; [lia|]. apply Z.div_lt_upper_bound; [lia|].
      replace (7 * (Z.of_nat (S n) + 1)) with (7 + 7 * (Z.of_nat n + 1)) in Hv by lia.
      rewrite Z.pow_add_r in Hv by lia. change (2 ^ 7) with 128 in Hv. lia.
    + lia.
    + lia.
    + nia.
    + nia.
    + lia.
    + rewrite len_app. change (len [uint8 (v mod 128 + 128)]) with 1. lia.
Qed.

(** Reading back a varint. *)
Lemma readUvarint_varint v pre post l :
  0 <= v < 2 ^ 64 ->
  len pre + sovTx v <= l ->
  readUvarint 11 (pre ++ varint v ++ post) l (len pre) 0 0
  = Done (v, len pre + sovTx v).
Proof.
  intros Hv Hl. unfold varint.
  pose proof (sovTx_bounds v ltac:(lia)) as (H1 & Hlt & Hge & H10).
  specialize (H10 ltac:(lia)).
  rewrite readUvarint_varintBytes.
  - change (2 ^ 0) with 1. do 2 f_equal; lia.
  - replace (Z.of_nat (Z.to_nat (sovTx v - 1)) + 1) with (sovTx v) by lia. lia.
  - lia.
  - destruct (Z.eq_dec (sovTx v) 10) as [E|E]; [|lia].
    (* ten groups: the shift of the last one is 63 *) lia.
  - change (2 ^ 0) with 1. lia.
  - change (2 ^ 0) with 1. lia.
  - lia.
  - lia.
Qed.

Lemma lenString_bytes s : len (String.list_byte_of_string s) = lenString s.
Proof. unfold len, lenString. by rewrite length_list_byte_of_string. Qed.

Lemma lenString_pos s : s <> ""%string -> 0 < lenString s.
Proof. unfold lenString. destruct s; [done | simpl; lia]. Qed.

Lemma eqb_empty s : String.eqb s "" = false <-> 0 < lenString s.
Proof.
  unfold lenString. destruct s as [|c s]; simpl; [split; [done | lia]|].
  split; [lia | done].
Qed.

Lemma lenString_nonneg s : 0 <= lenString s.
Proof. unfold lenString. lia. Qed.

Lemma sovTx_nonneg x : 0 <= sovTx x.
Proof.
  unfold sovTx, Len64. pose proof (Z.log2_nonneg (Z.lor x 1)).
  apply Z.div_pos; [|lia]. destruct (Z.lor x 1 =? 0); lia.
Qed.

(** The length of a field on the wire is the term [Size] adds for it. *)
Lemma len_stringField tag s :
  lenString s < 2 ^ 64 -> len (stringField tag s) = sizeStringField s.
Proof.
  intros Hs. unfold stringField, sizeStringField. pose proof (lenString_nonneg s).
  destruct (String.eqb s "") eqn:E.
  - assert (lenString s = 0) as ->.
    { destruct s; [reflexivity | discriminate]. }
    reflexivity.
  - apply eqb_empty in E. destruct (Z.ltb_spec 0 (lenString s)); [|lia].
    rewrite len_cons, len_app, length_varint, lenString_bytes by lia.
    rewrite uint64_small by lia. lia.
Qed.

Lemma sizeStringField_bounds s :
  lenString s < 2 ^ 64 -> lenString s <= sizeStringField s <= lenString s + 11.
Proof.
  intros Hs. unfold sizeStringField. pose proof (lenString_nonneg s).
  destruct (Z.ltb_spec 0 (lenString s)); [|lia].
  rewrite uint64_small by lia.
  pose proof (sovTx_bounds (lenString s) ltac:(lia)) as (? & _ & _ & H10).
  specialize (H10 ltac:(lia)). lia.
Qed.

(** Writing [xs] and then, just before it, [ys] is writing [ys ++ xs]. *)
Lemma splice_splice {A} (d xs ys : list A) (j i : nat) :
  (j + length xs = i)%nat -> (i + length ys <= length d)%nat ->
  splice (splice d i ys) j xs = splice d j (xs ++ ys).
Proof.
  intros Hj Hi. unfold splice.
  rewrite take_app_le by (rewrite length_take; lia).
  rewrite take_take. replace (j `min` i)%nat with j by lia.
  rewrite Hj. rewrite drop_app_length' by (rewrite length_take; lia).
  rewrite length_app, <- app_assoc.
  replace (j + (length xs + length ys))%nat with (i + length ys)%nat by lia.
  reflexivity.
Qed.

Lemma length_splice {A} (d xs : list A) (j : nat) :
  (j + length xs <= length d)%nat -> length (splice d j xs) = length d.
Proof.
  intros Hj. unfold splice. rewrite !length_app, length_take, length_drop. lia.
Qed.

Lemma length_varint_nat v : 0 <= v -> length (varint v) = Z.to_nat (sovTx v).
Proof. intros Hv. pose proof (length_varint v Hv) as H. unfold len in H. lia. Qed.

(** A field written backwards from [i] lands just before [i]. *)
Lemma writeStringField_writes dAtA i s tag :
  0 < lenString s ->
  sizeStringField s <= i <= len dAtA ->
  len dAtA < 2 ^ 63 ->
  writeStringField dAtA i s tag
  = Done (splice dAtA (Z.to_nat (i - sizeStringField s)) (stringField tag s),
          i - sizeStringField s).
Proof.
  intros Hs Hi Hlen.
  assert (lenString s < 2 ^ 64) as Hs64.
  { pose proof (sovTx_nonneg (uint64 (lenString s))). unfold sizeStringField in Hi.
    destruct (Z.ltb_spec 0 (lenString s)); lia. }
  assert (sizeStringField s = 1 + lenString s + sovTx (lenString s)) as Hsize.
  { unfold sizeStringField. destruct (Z.ltb_spec 0 (lenString s)); [|lia].
    by rewrite uint64_small by lia. }
  pose proof (sovTx_pos (lenString s) ltac:(lia)) as Hsov.
  assert (stringField tag s
          = [tag] ++ varint (lenString s) ++ String.list_byte_of_string s) as Hfield.
  { unfold stringField. rewrite (proj2 (eqb_empty s)) by done. reflexivity. }
  set (bytes := String.list_byte_of_string s) in *.
  assert (length bytes = Z.to_nat (lenString s)) as Hbytes.
  { subst bytes. rewrite length_list_byte_of_string. unfold lenString. lia. }
  pose proof (length_varint_nat (lenString s) ltac:(lia)) as Hvar.
  unfold writeStringField.
  rewrite (int_small (i - lenString s)) by lia.
  unfold copyAt.
  rewrite (proj2 (Z.leb_le 0 (i - lenString s))) by lia.
  rewrite (proj2 (Z.leb_le (i - lenString s) (len dAtA))) by lia. cbn [andb].
  fold bytes. unfold len in Hi, Hlen.
  replace (length bytes `min` (length dAtA - Z.to_nat (i - lenString s)))%nat
    with (length bytes) by lia.
  rewrite firstn_all.
  change (take ?j dAtA ++ bytes ++ drop (?j + length bytes) dAtA)
    with (splice dAtA j bytes).
  rewrite uint64_small by lia.
  rewrite encodeVarintTx_eq;
    [| lia | unfold len; rewrite length_splice; lia].
  replace (Z.to_nat (i - lenString s))
    with (Z.to_nat (i - lenString s - sovTx (lenString s))
          + length (varint (lenString s)))%nat at 2 by lia.
  change (take ?j ?d ++ varint ?v ++ drop (?j + length (varint ?v)) ?d)
    with (splice d j (varint v)).
  rewrite splice_splice by lia.
  rewrite (int_small (i - lenString s - sovTx (lenString s) - 1)) by lia.
  unfold setByte.
  rewrite (proj2 (Z.leb_le 0 _)) by lia.
  rewrite (proj2 (Z.ltb_lt _ _))
    by (unfold len; rewrite length_splice; rewrite ?length_app; lia).
  cbn [andb]. rewrite insert_take_drop by (rewrite length_splice; rewrite ?length_app; lia).
  replace (S (Z.to_nat (i - lenString s - sovTx (lenString s) - 1)))
    with (Z.to_nat (i - lenString s - sovTx (lenString s) - 1) + length [tag])%nat
    by (simpl; lia).
  change (take ?j ?d ++ tag :: drop (?j + length [tag]) ?d)
    with (splice d j [tag]).
  rewrite splice_splice by (simpl; rewrite ?length_app; lia).
  rewrite Hfield, Hsize. do 2 f_equal; [f_equal|]; lia.
Qed.

Lemma splice_nil {A} (d : list A) (j : nat) : splice d j [] = d.
Proof. unfold splice. simpl. rewrite Nat.add_0_r. apply take_drop. Qed.

(** One [if len(field) > 0 { ... }] block of [MarshalToSizedBuffer]. *)
Lemma stringField_block dAtA i s tag :
  sizeStringField s <= i <= len dAtA ->
  len dAtA < 2 ^ 63 ->
  (if 0 <? lenString s then writeStringField dAtA i s tag else Done (dAtA, i))
  = Done (splice dAtA (Z.to_nat (i - sizeStringField s)) (stringField tag s),
          i - sizeStringField s).
Proof.
  intros Hi Hlen. destruct (Z.ltb_spec 0 (lenString s)) as [Hpos|Hzero].
  - by apply writeStringField_writes.
  - assert (s = ""%string) as ->.
    { destruct s; [reflexivity | unfold lenString in Hzero; simpl in Hzero; lia]. }
    change (stringField tag "") with (@nil Byte.byte).
    change (sizeStringField "") with 0.
    rewrite splice_nil. do 2 f_equal. lia.
Qed.

(** [MarshalToSizedBuffer] fills the last [Size] bytes of the buffer with
    the wire format, leaves the bytes before them as they were, and
    returns [Size]. *)
Lemma MsgClaim_MarshalToSizedBuffer_writes m dAtA :
  len dAtA < 2 ^ 63 ->
  MsgClaim_Size (Some m) <= len dAtA ->
  lenString (Sender m) + lenString (Address m) < 2 ^ 62 ->
  MsgClaim_MarshalToSizedBuffer m dAtA
  = Done (take (Z.to_nat (len dAtA - MsgClaim_Size (Some m))) dAtA ++ MsgClaim_wire m,
          MsgClaim_Size (Some m)).
Proof.
  intros Hlen Hsize Hm.
  pose proof (lenString_nonneg (Sender m)). pose proof (lenString_nonneg (Address m)).
  pose proof (sizeStringField_bounds (Sender m) ltac:(lia)) as HS.
  pose proof (sizeStringField_bounds (Address m) ltac:(lia)) as HA.
  pose proof (len_stringField Byte.x0a (Sender m) ltac:(lia)) as HlS.
  pose proof (len_stringField Byte.x12 (Address m) ltac:(lia)) as HlA.
  unfold MsgClaim_Size in *. rewrite Z.add_0_l in *.
  rewrite (int_small (sizeStringField (Sender m))) in * by lia.
  rewrite (int_small (_ + _)) in * by lia.
  unfold MsgClaim_MarshalToSizedBuffer.
  rewrite stringField_block by lia.
  rewrite stringField_block by (unfold len in *; rewrite length_splice; lia).
  unfold len in *.
  rewrite splice_splice by lia.
  unfold splice, MsgClaim_wire. rewrite drop_ge by (rewrite length_app; lia).
  rewrite app_nil_r. f_equal. f_equal; [|lia].
  f_equal. f_equal. lia.
Qed.

Lemma len_MsgClaim_wire m :
  lenString (Sender m) + lenString (Address m) < 2 ^ 62 ->
  len (MsgClaim_wire m) = MsgClaim_Size (Some m).
Proof.
  intros Hm.
  pose proof (lenString_nonneg (Sender m)). pose proof (lenString_nonneg (Address m)).
  pose proof (sizeStringField_bounds (Sender m) ltac:(lia)) as HS.
  pose proof (sizeStringField_bounds (Address m) ltac:(lia)) as HA.
  unfold MsgClaim_wire, MsgClaim_Size. rewrite len_app, !len_stringField by lia.
  rewrite Z.add_0_l. rewrite (int_small (sizeStringField (Sender m))) by lia.
  rewrite int_small by lia. reflexivity.
Qed.

Lemma MsgClaim_Marshal_eq m :
  lenString (Sender m) + lenString (Address m) < 2 ^ 62 ->
  MsgClaim_Marshal m = Done (MsgClaim_wire m).
Proof.
  intros Hm.
  pose proof (len_MsgClaim_wire m Hm) as Hlen.
  pose proof (lenString_nonneg (Sender m)). pose proof (lenString_nonneg (Address m)).
  pose proof (sizeStringField_bounds (Sender m) ltac:(lia)) as HS.
  pose proof (sizeStringField_bounds (Address m) ltac:(lia)) as HA.
  assert (0 <= MsgClaim_Size (Some m) < 2 ^ 63) as Hsize.
  { unfold MsgClaim_Size. rewrite Z.add_0_l.
    rewrite (int_small (sizeStringField (Sender m))) by lia.
    rewrite int_small by lia. lia. }
  unfold MsgClaim_Marshal.
  set (size := MsgClaim_Size (Some m)) in *.
  assert (len (make size) = size) as Hmake.
  { unfold make, len. rewrite length_replicate. lia. }
  assert (slice (make size) 0 size = Done (make size)) as ->.
  { unfold slice. rewrite Hmake.
    rewrite (proj2 (Z.leb_le 0 0)), (proj2 (Z.leb_le 0 size)),
      (proj2 (Z.leb_le size size)) by lia.
    cbn [andb]. rewrite Z.sub_0_r, drop_0. rewrite firstn_all2; [done|].
    unfold len in Hmake. lia. }
  rewrite MsgClaim_MarshalToSizedBuffer_writes by (fold size; lia).
  fold size. rewrite Hmake, Z.sub_diag. simpl take. rewrite app_nil_l.
  unfold slice. rewrite Hlen.
  rewrite (proj2 (Z.leb_le 0 0)), (proj2 (Z.leb_le 0 size)),
    (proj2 (Z.leb_le size size)) by lia.
  cbn [andb]. rewrite Z.sub_0_r, drop_0. rewrite firstn_all2; [done|].
  unfold len in Hlen. lia.
Qed.

Lemma slice_middle (pre mid post : list Byte.byte) :
  slice (pre ++ mid ++ post) (len pre) (len pre + len mid) = Done mid.
Proof.
  unfold slice. pose proof (len_nonneg pre). pose proof (len_nonneg mid).
  pose proof (len_nonneg post).
  rewrite (proj2 (Z.leb_le 0 (len pre))) by lia.
  rewrite (proj2 (Z.leb_le (len pre) (len pre + len mid))) by lia.
  rewrite (proj2 (Z.leb_le _ _)) by (rewrite !len_app; lia).
  cbn [andb]. unfold len. rewrite Nat2Z.id, drop_app_length.
  replace (Z.to_nat (_ + _ - _)) with (length mid) by lia.
  by rewrite take_app_length.
Qed.

(** Reading a one-byte tag. *)
Lemma readUvarint_tag tag pre post l :
  byteZ tag < 128 -> len pre < l ->
  readUvarint 11 (pre ++ tag :: post) l (len pre) 0 0 = Done (byteZ tag, len pre + 1).
Proof.
  intros Htag Hl. pose proof (byteZ_range tag).
  pose proof (readUvarint_varintBytes 0 (byteZ tag) pre post l 0 0 11) as Hread.
  simpl varintBytes in Hread. rewrite uint8_byteZ in Hread. simpl app in Hread.
  rewrite Hread; [| simpl; lia | lia | simpl; lia | simpl; lia | simpl; lia | lia | simpl; lia].
  change (2 ^ 0) with 1. do 2 f_equal; simpl; lia.
Qed.

(** Reading the length and the bytes of a string field. *)
Lemma readStringField_reads s pre post :
  len (pre ++ varint (lenString s) ++ String.list_byte_of_string s ++ post) < 2 ^ 63 ->
  readStringField (pre ++ varint (lenString s) ++ String.list_byte_of_string s ++ post)
    (len (pre ++ varint (lenString s) ++ String.list_byte_of_string s ++ post))
    (len pre)
  = Done (s, len pre + sovTx (lenString s) + lenString s).
Proof.
  intros Hlen. pose proof (lenString_nonneg s) as Hs.
  pose proof (len_nonneg pre). pose proof (len_nonneg post).
  rewrite !len_app, length_varint, lenString_bytes in Hlen by done.
  pose proof (sovTx_pos (lenString s) Hs).
  unfold readStringField.
  rewrite readUvarint_varint
    by (rewrite ?len_app, ?length_varint, ?lenString_bytes by done; lia).
  rewrite (int_small (lenString s)) by lia.
  rewrite (proj2 (Z.ltb_ge (lenString s) 0)) by lia.
  rewrite int_small by lia.
  rewrite (proj2 (Z.ltb_ge (len pre + sovTx (lenString s) + lenString s) 0)) by lia.
  rewrite (proj2 (Z.ltb_ge _ (len pre + sovTx (lenString s) + lenString s)))
    by (rewrite !len_app, length_varint, lenString_bytes by done; lia).
  replace (pre ++ varint (lenString s) ++ String.list_byte_of_string s ++ post)
    with ((pre ++ varint (lenString s)) ++ String.list_byte_of_string s ++ post)
    by (by rewrite <- app_assoc).
  replace (len pre + sovTx (lenString s)) with (len (pre ++ varint (lenString s)))
    by (rewrite len_app, length_varint by done; reflexivity).
  rewrite <- lenString_bytes. rewrite slice_middle.
  by rewrite String.string_of_list_byte_of_string.
Qed.

Lemma MsgClaim_unmarshalLoop_eq fuel dAtA l iNdEx m :
  MsgClaim_unmarshalLoop fuel dAtA l iNdEx m
  = if negb (iNdEx <? l) then
      if l <? iNdEx then (m, Fail ErrUnexpectedEOF) else (m, Done tt)
    else
      match fuel with
      | O => (m, OutOfFuel)
      | S fuel' =>
          let preIndex := iNdEx in
          match readUvarint 11 dAtA l iNdEx 0 0 with
          | Done (wire, iNdEx) =>
              let fieldNum := int32 (Z.shiftr wire 3) in
              let wireType := int (Z.land wire 7) in
              if wireType =? 4 then (m, Fail (ErrWiretypeEndGroup "MsgClaim"))
              else if fieldNum <=? 0 then (m, Fail (ErrIllegalTag "MsgClaim" fieldNum wire))
              else if fieldNum =? 1 then
                if negb (wireType =? 2) then (m, Fail (ErrWrongWireType wireType "Sender"))
                else
                  match readStringField dAtA l iNdEx with
                  | Done (s, postIndex) =>
                      MsgClaim_unmarshalLoop fuel' dAtA l postIndex
                        {| Sender := s; Address := Address m |}
                  | Fail e => (m, Fail e)
                  | Crash msg => (m, Crash msg)
                  | OutOfFuel => (m, OutOfFuel)
                  end
              else if fieldNum =? 2 then
                if negb (wireType =? 2) then (m, Fail (ErrWrongWireType wireType "Address"))
                else
                  match readStringField dAtA l iNdEx with
                  | Done (s, postIndex) =>
                      MsgClaim_unmarshalLoop fuel' dAtA l postIndex
                        {| Sender := Sender m; Address := s |}
                  | Fail e => (m, Fail e)
                  | Crash msg => (m, Crash msg)
                  | OutOfFuel => (m, OutOfFuel)
                  end
              else
                match skipUnknown dAtA l preIndex with
                | Done iNdEx => MsgClaim_unmarshalLoop fuel' dAtA l iNdEx m
                | Fail e => (m, Fail e)
                | Crash msg => (m, Crash msg)
                | OutOfFuel => (m, OutOfFuel)
                end
          | Fail e => (m, Fail e)
          | Crash msg => (m, Crash msg)
          | OutOfFuel => (m, OutOfFuel)
          end
      end.
Proof. destruct fuel; reflexivity. Qed.

(** After the tag of a string field, the loop reads the field. *)
Lemma readStringField_after_tag tag s pre post :
  0 < lenString s ->
  len (pre ++ stringField tag s ++ post) < 2 ^ 63 ->
  readStringField (pre ++ stringField tag s ++ post)
    (len (pre ++ stringField tag s ++ post)) (len pre + 1)
  = Done (s, len pre + len (stringField tag s)).
Proof.
  intros Hs Hlen.
  assert (stringField tag s
          = tag :: varint (lenString s) ++ String.list_byte_of_string s) as Hfield.
  { unfold stringField. rewrite (proj2 (eqb_empty s)) by done. reflexivity. }
  rewrite Hfield in *. rewrite <- app_comm_cons in *.
  assert (pre ++ tag :: (varint (lenString s) ++ String.list_byte_of_string s) ++ post
          = (pre ++ [tag]) ++ varint (lenString s)
              ++ String.list_byte_of_string s ++ post) as HdAtA.
  { by rewrite <- !app_assoc. }
  rewrite HdAtA in *.
  replace (len pre + 1) with (len (pre ++ [tag])) by (by rewrite len_app).
  rewrite readStringField_reads by done.
  do 2 f_equal. rewrite len_cons, !len_app, length_varint, lenString_bytes by lia.
  change (len [tag]) with 1. lia.
Qed.

Lemma len_stringField_pos tag s : 0 < lenString s -> 0 < len (stringField tag s).
Proof.
  intros Hs. unfold stringField. rewrite (proj2 (eqb_empty s)) by done.
  rewrite len_cons. pose proof (len_nonneg (varint (lenString s) ++ String.list_byte_of_string s)).
  lia.
Qed.

Lemma stringField_cons tag s :
  0 < lenString s -> exists rest, stringField tag s = tag :: rest.
Proof.
  intros Hs. unfold stringField. rewrite (proj2 (eqb_empty s)) by done. by eexists.
Qed.

Ltac field_step tagValue s pre post :=
  intros Hs Hlen;
  pose proof (len_nonneg pre); pose proof (len_nonneg post);
  pose proof (len_stringField_pos tagValue s Hs);
  pose proof (readStringField_after_tag tagValue s pre post Hs Hlen) as Hread;
  rewrite MsgClaim_unmarshalLoop_eq;
  destruct (Z.ltb_spec (len pre) (len (pre ++ stringField tagValue s ++ post)))
    as [_|Hbad]; [|rewrite !len_app in Hbad; lia];
  cbn [negb]; cbv zeta;
  destruct (stringField_cons tagValue s Hs) as [rest Hrest];
  rewrite Hrest in *; rewrite <- app_comm_cons in *;
  rewrite readUvarint_tag
    by (first [ vm_compute; reflexivity
              | rewrite len_app, len_cons;
                pose proof (len_nonneg (rest ++ post)); lia ]);
  rewrite Hread; reflexivity.

Lemma unmarshal_Sender s pre post m fuel :
  0 < lenString s ->
  len (pre ++ stringField Byte.x0a s ++ post) < 2 ^ 63 ->
  MsgClaim_unmarshalLoop (S fuel) (pre ++ stringField Byte.x0a s ++ post)
    (len (pre ++ stringField Byte.x0a s ++ post)) (len pre) m
  = MsgClaim_unmarshalLoop fuel (pre ++ stringField Byte.x0a s ++ post)
      (len (pre ++ stringField Byte.x0a s ++ post))
      (len pre + len (stringField Byte.x0a s))
      {| Sender := s; Address := Address m |}.
Proof. field_step Byte.x0a s pre post. Qed.

Lemma unmarshal_Address s pre post m fuel :
  0 < lenString s ->
  len (pre ++ stringField Byte.x12 s ++ post) < 2 ^ 63 ->
  MsgClaim_unmarshalLoop (S fuel) (pre ++ stringField Byte.x12 s ++ post)
    (len (pre ++ stringField Byte.x12 s ++ post)) (len pre) m
  = MsgClaim_unmarshalLoop fuel (pre ++ stringField Byte.x12 s ++ post)
      (len (pre ++ stringField Byte.x12 s ++ post))
      (len pre + len (stringField Byte.x12 s))
      {| Sender := Sender m; Address := s |}.
Proof. field_step Byte.x12 s pre post. Qed.

Lemma overString_nonempty s old : 0 < lenString s -> overString s old = s.
Proof. intros Hs. unfold overString. by rewrite (proj2 (eqb_empty s)). Qed.

Lemma lenString_zero s : ~ 0 < lenString s -> s = ""%string.
Proof. destruct s; [done | unfold lenString; simpl; lia]. Qed.

(** A field that may be absent: the loop goes over it and sets it if it
    is there. *)
Lemma unmarshal_Sender_opt s pre post m fuel :
  len (pre ++ stringField Byte.x0a s ++ post) < 2 ^ 63 ->
  len (stringField Byte.x0a s ++ post) <= Z.of_nat fuel ->
  exists fuel',
    len post <= Z.of_nat fuel' /\
    MsgClaim_unmarshalLoop fuel (pre ++ stringField Byte.x0a s ++ post)
      (len (pre ++ stringField Byte.x0a s ++ post)) (len pre) m
    = MsgClaim_unmarshalLoop fuel' (pre ++ stringField Byte.x0a s ++ post)
        (len (pre ++ stringField Byte.x0a s ++ post))
        (len pre + len (stringField Byte.x0a s))
        {| Sender := overString s (Sender m); Address := Address m |}.
Proof.
  intros Hlen Hfuel. destruct (Z.lt_ge_cases 0 (lenString s)) as [Hs|Hs].
  - pose proof (len_stringField_pos Byte.x0a s Hs). rewrite len_app in Hfuel.
    pose proof (len_nonneg post).
    destruct fuel as [|fuel]; [lia|]. exists fuel. split; [lia|].
    rewrite overString_nonempty by done. by apply unmarshal_Sender.
  - assert (s = ""%string) as -> by (apply lenString_zero; lia). exists fuel.
    change (stringField Byte.x0a "") with (@nil Byte.byte) in *.
    split; [exact Hfuel|].
    change (len (@nil Byte.byte)) with 0. rewrite Z.add_0_r.
    destruct m; reflexivity.
Qed.

Lemma unmarshal_Address_opt s pre post m fuel :
  len (pre ++ stringField Byte.x12 s ++ post) < 2 ^ 63 ->
  len (stringField Byte.x12 s ++ post) <= Z.of_nat fuel ->
  exists fuel',
    len post <= Z.of_nat fuel' /\
    MsgClaim_unmarshalLoop fuel (pre ++ stringField Byte.x12 s ++ post)
      (len (pre ++ stringField Byte.x12 s ++ post)) (len pre) m
    = MsgClaim_unmarshalLoop fuel' (pre ++ stringField Byte.x12 s ++ post)
        (len (pre ++ stringField Byte.x12 s ++ post))
        (len pre + len (stringField Byte.x12 s))
        {| Sender := Sender m; Address := overString s (Address m) |}.
Proof.
  intros Hlen Hfuel. destruct (Z.lt_ge_cases 0 (lenString s)) as [Hs|Hs].
  - pose proof (len_stringField_pos Byte.x12 s Hs). rewrite len_app in Hfuel.
    pose proof (len_nonneg post).
    destruct fuel as [|fuel]; [lia|]. exists fuel. split; [lia|].
    rewrite overString_nonempty by done. by apply unmarshal_Address.
  - assert (s = ""%string) as -> by (apply lenString_zero; lia). exists fuel.
    change (stringField Byte.x12 "") with (@nil Byte.byte) in *.
    split; [exact Hfuel|].
    change (len (@nil Byte.byte)) with 0. rewrite Z.add_0_r.
    destruct m; reflexivity.
Qed.

(** The loop goes over the encoding of a message and leaves its fields
    in the receiver. *)
Lemma unmarshal_message m pre post old fuel :
  len (pre ++ MsgClaim_wire m ++ post) < 2 ^ 63 ->
  len (MsgClaim_wire m ++ post) <= Z.of_nat fuel ->
  exists fuel',
    len post <= Z.of_nat fuel' /\
    MsgClaim_unmarshalLoop fuel (pre ++ MsgClaim_wire m ++ post)
      (len (pre ++ MsgClaim_wire m ++ post)) (len pre) old
    = MsgClaim_unmarshalLoop fuel' (pre ++ MsgClaim_wire m ++ post)
        (len (pre ++ MsgClaim_wire m ++ post))
        (len pre + len (MsgClaim_wire m))
        (MsgClaim_over m old).
Proof.
  unfold MsgClaim_wire. rewrite <- !app_assoc. intros Hlen Hfuel.
  destruct (unmarshal_Sender_opt (Sender m) pre
              (stringField Byte.x12 (Address m) ++ post) old fuel Hlen Hfuel)
    as (fuel1 & Hfuel1 & ->).
  assert (pre ++ stringField Byte.x0a (Sender m) ++ stringField Byte.x12 (Address m) ++ post
          = (pre ++ stringField Byte.x0a (Sender m))
              ++ stringField Byte.x12 (Address m) ++ post) as Hassoc
    by (by rewrite <- app_assoc).
  rewrite <- (len_app pre). rewrite Hassoc in *.
  destruct (unmarshal_Address_opt (Address m) (pre ++ stringField Byte.x0a (Sender m))
              post {| Sender := overString (Sender m) (Sender old);
                      Address := Address old |} fuel1 Hlen Hfuel1)
    as (fuel2 & Hfuel2 & ->).
  exists fuel2. split; [done|]. rewrite !len_app. f_equal; lia.
Qed.

(** The loop over the encodings of messages one after the other. *)
Lemma unmarshal_messages ms : forall pre old fuel,
  len (pre ++ MsgClaim_wires ms) < 2 ^ 63 ->
  len (MsgClaim_wires ms) <= Z.of_nat fuel ->
  MsgClaim_unmarshalLoop fuel (pre ++ MsgClaim_wires ms)
    (len (pre ++ MsgClaim_wires ms)) (len pre) old
  = (MsgClaim_merge old ms, Done tt).
Proof.
  induction ms as [|m ms IH]; intros pre old fuel Hlen Hfuel.
  - change (MsgClaim_wires []) with (@nil Byte.byte). rewrite app_nil_r.
    rewrite MsgClaim_unmarshalLoop_eq. rewrite Z.ltb_irrefl. reflexivity.
  - change (MsgClaim_wires (m :: ms)) with (MsgClaim_wire m ++ MsgClaim_wires ms) in *.
    destruct (unmarshal_message m pre (MsgClaim_wires ms) old fuel Hlen Hfuel)
      as (fuel' & Hfuel' & ->).
    rewrite <- len_app. rewrite app_assoc in *.
    rewrite IH by done. reflexivity.
Qed.

Lemma MsgClaim_Unmarshal_wires ms old :
  len (MsgClaim_wires ms) < 2 ^ 63 ->
  MsgClaim_Unmarshal old (MsgClaim_wires ms) = (MsgClaim_merge old ms, Done tt).
Proof.
  intros Hlen. unfold MsgClaim_Unmarshal.
  apply (unmarshal_messages ms [] old); [done | unfold len; lia].
Qed.

Lemma MsgClaim_over_empty m : MsgClaim_over m (mkMsgClaim "" "") = m.
Proof.
  destruct m as [s a]. unfold MsgClaim_over, overString. simpl.
  destruct s, a; reflexivity.
Qed.

Lemma int_range x : - 2 ^ 63 <= int x < 2 ^ 63.
Proof. unfold int. pose proof (Z.mod_pos_bound (x + 2 ^ 63) (2 ^ 64) ltac:(lia)). lia. Qed.

(** An [int] sum of two values that are not negative is exact or
    negative. *)
Lemma int_add_cases x : 0 <= x < 2 ^ 64 -> int x = x \/ int x < 0.
Proof.
  intros Hx. destruct (Z.lt_ge_cases x (2 ^ 63)) as [Hlt|Hge].
  - left. apply int_small. lia.
  - right. unfold int.
    replace ((x + 2 ^ 63) mod 2 ^ 64) with (x - 2 ^ 63); [lia|].
    apply Z.mod_unique with (q := 1); lia.
Qed.

Lemma log2_lt_pow2_nonneg a n : 0 < n -> 0 <= a < 2 ^ n -> Z.log2 a < n.
Proof.
  intros Hn Ha. destruct (Z.eq_dec a 0) as [->|Hne]; [exact Hn|].
  apply Z.log2_lt_pow2; lia.
Qed.

Lemma lor_lt_pow2 a b n : 0 <= n -> a < 2 ^ n -> b < 2 ^ n -> Z.lor a b < 2 ^ n.
Proof.
  intros Hn Ha Hb. assert (0 < 2 ^ n) by (apply Z.pow_pos_nonneg; lia).
  destruct (Z.lt_ge_cases (Z.lor a b) 0) as [Hneg|Hpos]; [lia|].
  pose proof Hpos as Hpos'. apply Z.lor_nonneg in Hpos' as [Ha0 Hb0].
  destruct (Z.eq_dec (Z.lor a b) 0) as [->|Hne]; [done|].
  destruct (Z.eq_dec n 0) as [->|Hn0].
  { change (2 ^ 0) with 1 in *. assert (a = 0) as -> by lia. assert (b = 0) as -> by lia.
    done. }
  apply Z.log2_lt_pow2; [lia|]. rewrite Z.log2_lor by done.
  pose proof (log2_lt_pow2_nonneg a n ltac:(lia) ltac:(lia)).
  pose proof (log2_lt_pow2_nonneg b n ltac:(lia) ltac:(lia)). lia.
Qed.

Lemma index_in_range dAtA i :
  0 <= i < len dAtA -> exists b, index dAtA i = Some b.
Proof.
  intros Hi. unfold index, len in *. destruct (Z.ltb_spec i 0); [lia|].
  apply lookup_lt_is_Some. lia.
Qed.

(** *** The loops that read a varint stay inside the buffer *)

Lemma readUvarint_safe fuel : forall dAtA l iNdEx shift acc,
  0 <= iNdEx -> l <= len dAtA -> shift < 71 -> 71 <= 7 * Z.of_nat fuel + shift ->
  match readUvarint fuel dAtA l iNdEx shift acc with
  | Done (_, iNdEx') => iNdEx < iNdEx' <= l
  | Fail _ => True
  | Crash _ | OutOfFuel => False
  end.
Proof.
  induction fuel as [|fuel IH]; intros dAtA l iNdEx shift acc Hi Hl Hs Hfuel; [lia|].
  simpl readUvarint.
  destruct (Z.leb_spec 64 shift); [done|].
  destruct (Z.leb_spec l iNdEx); [done|].
  destruct (index_in_range dAtA iNdEx ltac:(lia)) as [b ->].
  destruct (Z.ltb_spec (byteZ b) 128); [lia|].
  specialize (IH dAtA l (iNdEx + 1) (shift + 7)
                (Z.lor acc (uint64 (Z.shiftl (Z.land (byteZ b) 127) shift)))
                ltac:(lia) Hl ltac:(lia) ltac:(lia)).
  destruct (readUvarint fuel _ _ _ _ _) as [[v i']| | |]; try done. lia.
Qed.

Lemma skipVarint_safe fuel : forall dAtA l iNdEx shift,
  0 <= iNdEx -> l <= len dAtA -> shift < 71 -> 71 <= 7 * Z.of_nat fuel + shift ->
  match skipVarint fuel dAtA l iNdEx shift with
  | Done iNdEx' => iNdEx < iNdEx' <= l
  | Fail _ => True
  | Crash _ | OutOfFuel => False
  end.
Proof.
  induction fuel as [|fuel IH]; intros dAtA l iNdEx shift Hi Hl Hs Hfuel; [lia|].
  simpl skipVarint.
  destruct (Z.leb_spec 64 shift); [done|].
  destruct (Z.leb_spec l iNdEx); [done|].
  replace (iNdEx + 1 - 1) with iNdEx by lia.
  destruct (index_in_range dAtA iNdEx ltac:(lia)) as [b ->].
  destruct (Z.ltb_spec (byteZ b) 128); [lia|].
  specialize (IH dAtA l (iNdEx + 1) (shift + 7) ltac:(lia) Hl ltac:(lia) ltac:(lia)).
  destruct (skipVarint fuel _ _ _ _) as [i'| | |]; try done. lia.
Qed.

Lemma readLength_safe fuel : forall dAtA l iNdEx shift length,
  0 <= iNdEx -> l <= len dAtA -> shift < 71 -> 71 <= 7 * Z.of_nat fuel + shift ->
  length < 2 ^ 63 ->
  match readLength fuel dAtA l iNdEx shift length with
  | Done (length', iNdEx') => iNdEx < iNdEx' <= l /\ length' < 2 ^ 63
  | Fail _ => True
  | Crash _ | OutOfFuel => False
  end.
Proof.
  induction fuel as [|fuel IH]; intros dAtA l iNdEx shift length Hi Hl Hs Hfuel Hlength;
    [lia|].
  simpl readLength.
  destruct (Z.leb_spec 64 shift); [done|].
  destruct (Z.leb_spec l iNdEx); [done|].
  destruct (index_in_range dAtA iNdEx ltac:(lia)) as [b ->].
  assert (Z.lor length (int (Z.shiftl (Z.land (byteZ b) 127) shift)) < 2 ^ 63) as Hacc.
  { apply lor_lt_pow2; [lia | done | apply int_range]. }
  destruct (Z.ltb_spec (byteZ b) 128); [lia|].
  specialize (IH dAtA l (iNdEx + 1) (shift + 7) _ ltac:(lia) Hl ltac:(lia) ltac:(lia) Hacc).
  destruct (readLength fuel _ _ _ _ _) as [[v i']| | |]; try done. lia.
Qed.

(** *** [skipTx] *)

Lemma skipField_safe dAtA l iNdEx depth wireType :
  0 <= iNdEx <= l -> l <= len dAtA -> l < 2 ^ 63 ->
  match skipField dAtA l iNdEx depth wireType with
  | Done (iNdEx', _) => (iNdEx' < 0 \/ iNdEx <= iNdEx') /\ iNdEx' < 2 ^ 63
  | Fail _ => True
  | Crash _ | OutOfFuel => False
  end.
Proof.
  intros Hi Hl H63. unfold skipField.
  destruct (wireType =? 0).
  { pose proof (skipVarint_safe 11 dAtA l iNdEx 0 ltac:(lia) Hl ltac:(lia) ltac:(lia)) as H.
    destruct (skipVarint 11 dAtA l iNdEx 0); try done. lia. }
  destruct (wireType =? 1).
  { pose proof (int_add_cases (iNdEx + 8) ltac:(lia)). pose proof (int_range (iNdEx + 8)). lia. }
  destruct (wireType =? 2).
  { pose proof (readLength_safe 11 dAtA l iNdEx 0 0 ltac:(lia) Hl ltac:(lia) ltac:(lia)
                  ltac:(lia)) as H.
    destruct (readLength 11 dAtA l iNdEx 0 0) as [[length i']| | |]; try done.
    destruct (Z.ltb_spec length 0); [done|].
    pose proof (int_add_cases (i' + length) ltac:(lia)).
    pose proof (int_range (i' + length)). lia. }
  destruct (wireType =? 3); [lia|].
  destruct (wireType =? 4).
  { destruct (depth =? 0); [done | lia]. }
  destruct (wireType =? 5).
  { pose proof (int_add_cases (iNdEx + 4) ltac:(lia)). pose proof (int_range (iNdEx + 4)). lia. }
  done.
Qed.

Lemma skipLoop_eq fuel dAtA l iNdEx depth :
  skipLoop fuel dAtA l iNdEx depth
  = if negb (iNdEx <? l) then Fail ErrUnexpectedEOF
    else
      match fuel with
      | O => OutOfFuel
      | S fuel' =>
          match readUvarint 11 dAtA l iNdEx 0 0 with
          | Done (wire, iNdEx) =>
              let wireType := int (Z.land wire 7) in
              match skipField dAtA l iNdEx depth wireType with
              | Done (iNdEx, depth) =>
                  if iNdEx <? 0 then Fail ErrInvalidLengthTx
                  else if depth =? 0 then Done iNdEx
                  else skipLoop fuel' dAtA l iNdEx depth
              | Fail e => Fail e
              | Crash msg => Crash msg
              | OutOfFuel => OutOfFuel
              end
          | Fail e => Fail e
          | Crash msg => Crash msg
          | OutOfFuel => OutOfFuel
          end
      end.
Proof. destruct fuel; reflexivity. Qed.

Lemma skipLoop_safe fuel : forall dAtA l iNdEx depth,
  0 <= iNdEx -> l <= len dAtA -> l < 2 ^ 63 -> l - iNdEx <= Z.of_nat fuel ->
  match skipLoop fuel dAtA l iNdEx depth with
  | Done n => iNdEx < n < 2 ^ 63
  | Fail _ => True
  | Crash _ | OutOfFuel => False
  end.
Proof.
  induction fuel as [|fuel IH]; intros dAtA l iNdEx depth Hi Hl H63 Hfuel;
    rewrite skipLoop_eq; destruct (Z.ltb_spec iNdEx l); cbn [negb]; try done; [lia|].
  pose proof (readUvarint_safe 11 dAtA l iNdEx 0 0 Hi Hl ltac:(lia) ltac:(lia)) as Hread.
  destruct (readUvarint 11 dAtA l iNdEx 0 0) as [[wire i1]| | |]; try done.
  cbv zeta.
  pose proof (skipField_safe dAtA l i1 depth (int (Z.land wire 7)) ltac:(lia) Hl H63) as Hskip.
  destruct (skipField dAtA l i1 depth _) as [[i2 depth2]| | |]; try done.
  destruct (Z.ltb_spec i2 0); [done|].
  destruct (depth2 =? 0); [lia|].
  specialize (IH dAtA l i2 depth2 ltac:(lia) Hl H63 ltac:(lia)).
  destruct (skipLoop fuel dAtA l i2 depth2); try done. lia.
Qed.

Lemma skipTx_safe dAtA :
  len dAtA < 2 ^ 63 ->
  match skipTx dAtA with
  | Done n => 0 < n < 2 ^ 63
  | Fail _ => True
  | Crash _ | OutOfFuel => False
  end.
Proof.
  intros H63. unfold skipTx.
  apply (skipLoop_safe (length dAtA) dAtA (len dAtA) 0 0); unfold len in *; lia.
Qed.

(** *** The blocks of [Unmarshal] *)

Lemma slice_in_range dAtA lo hi :
  0 <= lo <= hi -> hi <= len dAtA ->
  slice dAtA lo hi = Done (take (Z.to_nat (hi - lo)) (drop (Z.to_nat lo) dAtA)).
Proof.
  intros Hlo Hhi. unfold slice.
  rewrite (proj2 (Z.leb_le 0 lo)), (proj2 (Z.leb_le lo hi)),
    (proj2 (Z.leb_le hi (len dAtA))) by lia.
  reflexivity.
Qed.

Lemma readStringField_safe dAtA l iNdEx :
  0 <= iNdEx -> l <= len dAtA -> l < 2 ^ 63 ->
  match readStringField dAtA l iNdEx with
  | Done (_, postIndex) => iNdEx < postIndex <= l
  | Fail _ => True
  | Crash _ | OutOfFuel => False
  end.
Proof.
  intros Hi Hl H63. unfold readStringField.
  pose proof (readUvarint_safe 11 dAtA l iNdEx 0 0 Hi Hl ltac:(lia) ltac:(lia)) as Hread.
  destruct (readUvarint 11 dAtA l iNdEx 0 0) as [[stringLen i1]| | |]; try done.
  cbv zeta. pose proof (int_range stringLen).
  destruct (Z.ltb_spec (int stringLen) 0); [done|].
  pose proof (int_add_cases (i1 + int stringLen) ltac:(lia)).
  destruct (Z.ltb_spec (int (i1 + int stringLen)) 0); [done|].
  destruct (Z.ltb_spec l (int (i1 + int stringLen))); [done|].
  rewrite slice_in_range by lia. lia.
Qed.

Lemma skipUnknown_safe dAtA l preIndex :
  0 <= preIndex <= len dAtA -> len dAtA < 2 ^ 63 ->
  match skipUnknown dAtA l preIndex with
  | Done iNdEx => preIndex < iNdEx <= l
  | Fail _ => True
  | Crash _ | OutOfFuel => False
  end.
Proof.
  intros Hpre H63. unfold skipUnknown. cbv zeta.
  rewrite slice_in_range by lia.
  set (rest := take _ _).
  assert (len rest < 2 ^ 63) as Hrest.
  { subst rest. unfold len in *. rewrite length_take, length_drop. lia. }
  pose proof (skipTx_safe rest Hrest) as Hskip.
  destruct (skipTx rest) as [skippy| | |]; try done.
  pose proof (int_add_cases (preIndex + skippy) ltac:(lia)).
  destruct (Z.ltb_spec skippy 0); [lia|]. cbn [orb].
  destruct (Z.ltb_spec (int (preIndex + skippy)) 0); [done|].
  destruct (Z.ltb_spec l (int (preIndex + skippy))); [done|]. lia.
Qed.

(** *** [Unmarshal] *)

Lemma MsgClaim_unmarshalLoop_safe fuel : forall dAtA iNdEx m,
  0 <= iNdEx -> len dAtA < 2 ^ 63 -> len dAtA - iNdEx <= Z.of_nat fuel ->
  returns (MsgClaim_unmarshalLoop fuel dAtA (len dAtA) iNdEx m).2 = true.
Proof.
  induction fuel as [|fuel IH]; intros dAtA iNdEx m Hi H63 Hfuel;
    rewrite MsgClaim_unmarshalLoop_eq; destruct (Z.ltb_spec iNdEx (len dAtA)); cbn [negb];
    try (by destruct (len dAtA <? iNdEx)); [lia|].
  cbv zeta.
  pose proof (readUvarint_safe 11 dAtA (len dAtA) iNdEx 0 0 Hi ltac:(lia) ltac:(lia)
                ltac:(lia)) as Hread.
  destruct (readUvarint 11 dAtA (len dAtA) iNdEx 0 0) as [[wire i1]| | |]; try done.
  destruct (_ =? 4); [done|].
  destruct (_ <=? 0); [done|].
  pose proof (readStringField_safe dAtA (len dAtA) i1 ltac:(lia) ltac:(lia) H63) as Hstring.
  pose proof (skipUnknown_safe dAtA (len dAtA) iNdEx ltac:(lia) H63) as Hskip.
  destruct (_ =? 1).
  { destruct (negb _); [done|].
    destruct (readStringField dAtA (len dAtA) i1) as [[s postIndex]| | |]; try done.
    apply IH; lia. }
  destruct (_ =? 2).
  { destruct (negb _); [done|].
    destruct (readStringField dAtA (len dAtA) i1) as [[s postIndex]| | |]; try done.
    apply IH; lia. }
  destruct (skipUnknown dAtA (len dAtA) iNdEx) as [i2| | |]; try done.
  apply IH; lia.
Qed.

(** *** Going over a field the message does not have *)

Lemma skipVarint_varintBytes n : forall v pre post l shift fuel,
  0 <= v < 2 ^ (7 * (Z.of_nat n + 1)) ->
  0 <= shift -> shift + 7 * Z.of_nat n < 64 ->
  (n < fuel)%nat ->
  len pre + Z.of_nat n + 1 <= l ->
  skipVarint fuel (pre ++ varintBytes n v ++ post) l (len pre) shift
  = Done (len pre + Z.of_nat n + 1).
Proof.
  induction n as [|n IH]; intros v pre post l shift fuel Hv Hs Hs64 Hfuel Hl.
  - destruct fuel as [|fuel]; [lia|]. simpl varintBytes. simpl skipVarint.
    change (7 * (Z.of_nat 0 + 1)) with 7 in Hv. change (2 ^ 7) with 128 in Hv.
    rewrite (proj2 (Z.leb_gt 64 shift)) by lia.
    pose proof (len_nonneg pre).
    rewrite (proj2 (Z.leb_gt l (len pre))) by lia.
    replace (len pre + 1 - 1) with (len pre) by lia.
    rewrite index_middle. rewrite byteZ_uint8, (Z.mod_small v 256) by lia.
    rewrite (proj2 (Z.ltb_lt v 128)) by lia. f_equal. lia.
  - destruct fuel as [|fuel]; [lia|]. simpl varintBytes. simpl skipVarint.
    rewrite (proj2 (Z.leb_gt 64 shift)) by lia.
    pose proof (len_nonneg pre).
    rewrite (proj2 (Z.leb_gt l (len pre))) by lia.
    replace (len pre + 1 - 1) with (len pre) by lia.
    rewrite index_middle.
    pose proof (Z.mod_pos_bound v 128 ltac:(lia)) as Hm.
    rewrite byteZ_uint8, (Z.mod_small (v mod 128 + 128) 256) by lia.
    rewrite (proj2 (Z.ltb_ge (v mod 128 + 128) 128)) by lia.
    replace (pre ++ uint8 (v mod 128 + 128) :: varintBytes n (v / 128) ++ post)
      with ((pre ++ [uint8 (v mod 128 + 128)]) ++ varintBytes n (v / 128) ++ post)
      by (rewrite <- app_assoc; reflexivity).
    replace (len pre + 1) with (len (pre ++ [uint8 (v mod 128 + 128)]))
      by (rewrite len_app; reflexivity).
    rewrite IH.
    + rewrite len_app. change (len [uint8 (v mod 128 + 128)]) with 1. f_equal. lia.
    + split; [apply Z.div_pos; lia|]. apply Z.div_lt_upper_bound; [lia|].
      replace (7 * (Z.of_nat (S n) + 1)) with (7 + 7 * (Z.of_nat n + 1)) in Hv by lia.
      rewrite Z.pow_add_r in Hv by lia. change (2 ^ 7) with 128 in Hv. lia.
    + lia.
    + lia.
    + lia.
    + rewrite len_app. change (len [uint8 (v mod 128 + 128)]) with 1. lia.
Qed.

Lemma skipVarint_varint v pre post l :
  0 <= v < 2 ^ 64 ->
  len pre + sovTx v <= l ->
  skipVarint 11 (pre ++ varint v ++ post) l (len pre) 0 = Done (len pre + sovTx v).
Proof.
  intros Hv Hl. unfold varint.
  pose proof (sovTx_bounds v ltac:(lia)) as (H1 & Hlt & Hge & H10).
  specialize (H10 ltac:(lia)).
  rewrite skipVarint_varintBytes.
  - f_equal. lia.
  - replace (Z.of_nat (Z.to_nat (sovTx v - 1)) + 1) with (sovTx v) by lia. lia.
  - lia.
  - lia.
  - lia.
  - lia.
Qed.

Lemma readLength_varintBytes n : forall v pre post l shift acc fuel,
  0 <= v < 2 ^ (7 * (Z.of_nat n + 1)) ->
  0 <= shift -> shift + 7 * Z.of_nat n < 64 ->
  v * 2 ^ shift < 2 ^ 63 ->
  0 <= acc < 2 ^ shift ->
  (n < fuel)%nat ->
  len pre + Z.of_nat n + 1 <= l ->
  readLength fuel (pre ++ varintBytes n v ++ post) l (len pre) shift acc
  = Done (acc + v * 2 ^ shift, len pre + Z.of_nat n + 1).
Proof.
  induction n as [|n IH]; intros v pre post l shift acc fuel Hv Hs Hs64 Hv64 Hacc Hfuel Hl.
  - destruct fuel as [|fuel]; [lia|]. simpl varintBytes. simpl readLength.
    change (7 * (Z.of_nat 0 + 1)) with 7 in Hv. change (2 ^ 7) with 128 in Hv.
    rewrite (proj2 (Z.leb_gt 64 shift)) by lia.
    pose proof (len_nonneg pre).
    rewrite (proj2 (Z.leb_gt l (len pre))) by lia.
    rewrite index_middle. rewrite byteZ_uint8, (Z.mod_small v 256) by lia.
    rewrite (proj2 (Z.ltb_lt v 128)) by lia.
    rewrite land_127, Z.mod_small by lia.
    rewrite Z.shiftl_mul_pow2 by lia. rewrite int_small by nia.
    rewrite lor_mul_add by lia.
    do 2 f_equal. lia.
  - destruct fuel as [|fuel]; [lia|]. simpl varintBytes. simpl readLength.
    rewrite (proj2 (Z.leb_gt 64 shift)) by lia.
    pose proof (len_nonneg pre).
    rewrite (proj2 (Z.leb_gt l (len pre))) by lia.
    rewrite index_middle.
    pose proof (Z.mod_pos_bound v 128 ltac:(lia)) as Hm.
    rewrite byteZ_uint8, (Z.mod_small (v mod 128 + 128) 256) by lia.
    rewrite (proj2 (Z.ltb_ge (v mod 128 + 128) 128)) by lia.
    rewrite land_127.
    replace ((v mod 128 + 128) mod 128) with (v mod 128)
      by (apply Z.mod_unique with (q := 1); lia).
    pose proof (Z.div_mod v 128 ltac:(lia)) as Hdm.
    assert (0 <= v / 128) as Hq by (apply Z.div_pos; lia).
    assert (0 < 2 ^ shift) as Hp by (apply Z.pow_pos_nonneg; lia).
    assert (2 ^ (shift + 7) = 128 * 2 ^ shift) as Hp7
      by (rewrite Z.pow_add_r by lia; change (2 ^ 7) with 128; lia).
    rewrite Z.shiftl_mul_pow2 by lia. rewrite int_small by nia.
    rewrite lor_mul_add by lia.
    replace (pre ++ uint8 (v mod 128 + 128) :: varintBytes n (v / 128) ++ post)
      with ((pre ++ [uint8 (v mod 128 + 128)]) ++ varintBytes n (v / 128) ++ post)
      by (rewrite <- app_assoc; reflexivity).
    replace (len pre + 1) with (len (pre ++ [uint8 (v mod 128 + 128)]))
      by (rewrite len_app; reflexivity).
    rewrite IH.
    + rewrite len_app. change (len [uint8 (v mod 128 + 128)]) with 1.
      f_equal. f_equal; nia.
    + split; [lia|]. apply Z.div_lt_upper_bound; [lia|].
      replace (7 * (Z.of_nat (S n) + 1)) with (7 + 7 * (Z.of_nat n + 1)) in Hv by lia.
      rewrite Z.pow_add_r in Hv by lia. change (2 ^ 7) with 128 in Hv. lia.
    + lia.
    + lia.
    + nia.
    + nia.
    + lia.
    + rewrite len_app. change (len [uint8 (v mod 128 + 128)]) with 1. lia.
Qed.

Lemma readLength_varint v pre post l :
  0 <= v < 2 ^ 63 ->
  len pre + sovTx v <= l ->
  readLength 11 (pre ++ varint v ++ post) l (len pre) 0 0
  = Done (v, len pre + sovTx v).
Proof.
  intros Hv Hl. unfold varint.
  pose proof (sovTx_bounds v ltac:(lia)) as (H1 & Hlt & Hge & H10).
  specialize (H10 ltac:(lia)).
  rewrite readLength_varintBytes.
  - change (2 ^ 0) with 1. do 2 f_equal; lia.
  - replace (Z.of_nat (Z.to_nat (sovTx v - 1)) + 1) with (sovTx v) by lia. lia.
  - lia.
  - lia.
  - change (2 ^ 0) with 1. lia.
  - change (2 ^ 0) with 1. lia.
  - lia.
  - lia.
Qed.

Lemma wireTypeOf_range p : 0 <= wireTypeOf p < 8.
Proof. destruct p; simpl; lia. Qed.

Lemma tag_wireType fieldNum p :
  0 <= fieldNum -> int (Z.land (fieldNum * 8 + wireTypeOf p) 7) = wireTypeOf p.
Proof.
  intros Hf. pose proof (wireTypeOf_range p). rewrite land_7.
  replace ((fieldNum * 8 + wireTypeOf p) mod 8) with (wireTypeOf p)
    by (apply Z.mod_unique with (q := fieldNum); lia).
  apply int_small. lia.
Qed.

Lemma tag_fieldNum fieldNum p :
  0 <= fieldNum < 2 ^ 31 ->
  int32 (Z.shiftr (fieldNum * 8 + wireTypeOf p) 3) = fieldNum.
Proof.
  intros Hf. pose proof (wireTypeOf_range p).
  rewrite Z.shiftr_div_pow2 by lia. change (2 ^ 3) with 8.
  replace ((fieldNum * 8 + wireTypeOf p) / 8) with fieldNum
    by (apply Z.div_unique with (r := wireTypeOf p); lia).
  unfold int32. rewrite Z.mod_small; lia.
Qed.

Lemma len_payloadBytes p :
  wellFormed p ->
  len (payloadBytes p)
  = match p with
    | Varint v => sovTx v
    | Fixed64 _ => 8
    | Bytes bytes => sovTx (len bytes) + len bytes
    | Fixed32 _ => 4
    end.
Proof.
  destruct p as [v|bytes|bytes|bytes]; simpl; intros Hp.
  - apply length_varint. lia.
  - unfold len. lia.
  - rewrite len_app, length_varint by apply len_nonneg. reflexivity.
  - unfold len. lia.
Qed.

(** One round of [skipTx] goes over a whole field. *)
Lemma skipLoop_field fieldNum p rest fuel :
  0 <= fieldNum < 2 ^ 60 ->
  wellFormed p ->
  len (field fieldNum p ++ rest) < 2 ^ 63 ->
  skipLoop (S fuel) (field fieldNum p ++ rest) (len (field fieldNum p ++ rest)) 0 0
  = Done (len (field fieldNum p)).
Proof.
  intros Hf Hp H63. pose proof (wireTypeOf_range p) as Hwt.
  set (w := fieldNum * 8 + wireTypeOf p).
  assert (0 <= w < 2 ^ 64) as Hw by (subst w; lia).
  pose proof (sovTx_pos w ltac:(lia)) as Hsov.
  pose proof (len_payloadBytes p Hp) as Hpay.
  pose proof (len_nonneg rest) as Hrest.
  pose proof (len_nonneg (payloadBytes p)) as Hpay0.
  assert (len (field fieldNum p) = sovTx w + len (payloadBytes p)) as Hfield.
  { unfold field. fold w. rewrite len_app, length_varint by lia. reflexivity. }
  rewrite len_app, Hfield in H63. rewrite Hfield.
  assert (field fieldNum p ++ rest = varint w ++ payloadBytes p ++ rest) as ->
    by (unfold field; rewrite <- app_assoc; reflexivity).
  rewrite skipLoop_eq.
  rewrite (proj2 (Z.ltb_lt 0 _)) by (rewrite len_app, length_varint by lia;
                                     pose proof (len_nonneg (payloadBytes p ++ rest)); lia).
  cbn [negb].
  pose proof (readUvarint_varint w [] (payloadBytes p ++ rest)
                (len (varint w ++ payloadBytes p ++ rest)) Hw) as Hread.
  change (len (@nil Byte.byte)) with 0 in Hread. rewrite !Z.add_0_l in Hread.
  simpl app in Hread.
  rewrite Hread by (rewrite len_app, length_varint by lia; pose proof (len_nonneg (payloadBytes p ++ rest)); lia).
  cbv zeta. subst w. rewrite tag_wireType by lia.
  set (w := fieldNum * 8 + wireTypeOf p) in *.
  assert (len (varint w ++ payloadBytes p ++ rest)
          = sovTx w + len (payloadBytes p) + len rest) as Hall.
  { rewrite !len_app, length_varint by lia. lia. }
  unfold skipField.
  destruct p as [v|bytes|bytes|bytes]; cbn [wireTypeOf Z.eqb Pos.eqb payloadBytes wellFormed] in *.
  - pose proof (skipVarint_varint v (varint w) rest
                  (len (varint w ++ varint v ++ rest)) Hp) as Hskip.
    rewrite length_varint in Hskip by lia. rewrite Hskip by lia.
    rewrite (proj2 (Z.ltb_ge _ 0)) by lia. cbn [Z.eqb]. rewrite length_varint by lia. reflexivity.
  - rewrite int_small by lia.
    rewrite (proj2 (Z.ltb_ge _ 0)) by lia. cbn [Z.eqb]. f_equal. lia.
  - pose proof (len_nonneg bytes).
    pose proof (sovTx_pos (len bytes) ltac:(lia)).
    rewrite <- app_assoc in *.
    pose proof (readLength_varint (len bytes) (varint w) (bytes ++ rest)
                  (len (varint w ++ varint (len bytes) ++ bytes ++ rest))) as Hread'.
    rewrite length_varint in Hread' by lia.
    rewrite Hpay in *.
    rewrite Hread' by lia.
    rewrite (proj2 (Z.ltb_ge (len bytes) 0)) by lia.
    rewrite int_small by lia.
    rewrite (proj2 (Z.ltb_ge _ 0)) by lia. cbn [Z.eqb]. f_equal. lia.
  - rewrite int_small by lia.
    rewrite (proj2 (Z.ltb_ge _ 0)) by lia. cbn [Z.eqb]. f_equal. lia.
Qed.

Lemma field_nonempty fieldNum p :
  0 <= fieldNum < 2 ^ 60 -> 0 < len (field fieldNum p).
Proof.
  intros Hf. pose proof (wireTypeOf_range p). unfold field.
  rewrite len_app, length_varint by lia.
  pose proof (sovTx_pos (fieldNum * 8 + wireTypeOf p) ltac:(lia)).
  pose proof (len_nonneg (payloadBytes p)). lia.
Qed.

Lemma skipTx_field fieldNum p rest :
  0 <= fieldNum < 2 ^ 60 ->
  wellFormed p ->
  len (field fieldNum p ++ rest) < 2 ^ 63 ->
  skipTx (field fieldNum p ++ rest) = Done (len (field fieldNum p)).
Proof.
  intros Hf Hp H63. unfold skipTx.
  pose proof (field_nonempty fieldNum p Hf) as Hne.
  destruct (length (field fieldNum p ++ rest)) as [|fuel] eqn:E.
  { unfold len in Hne. rewrite length_app in E. lia. }
  by apply skipLoop_field.
Qed.

(** The [default] case of [Unmarshal] goes over a whole field. *)
Lemma skipUnknown_field fieldNum p pre post :
  0 <= fieldNum < 2 ^ 60 ->
  wellFormed p ->
  len (pre ++ field fieldNum p ++ post) < 2 ^ 63 ->
  skipUnknown (pre ++ field fieldNum p ++ post)
    (len (pre ++ field fieldNum p ++ post)) (len pre)
  = Done (len pre + len (field fieldNum p)).
Proof.
  intros Hf Hp H63. unfold skipUnknown. cbv zeta.
  pose proof (len_nonneg pre). pose proof (len_nonneg post).
  pose proof (field_nonempty fieldNum p Hf).
  rewrite !len_app in H63.
  assert (slice (pre ++ field fieldNum p ++ post) (len pre)
            (len (pre ++ field fieldNum p ++ post))
          = Done (field fieldNum p ++ post)) as ->.
  { pose proof (slice_middle pre (field fieldNum p ++ post) []) as Hslice.
    rewrite app_nil_r in Hslice. rewrite <- Hslice. f_equal. by rewrite len_app. }
  rewrite skipTx_field by (rewrite ?len_app; done || lia).
  rewrite (proj2 (Z.ltb_ge (len (field fieldNum p)) 0)) by lia.
  rewrite int_small by lia.
  rewrite (proj2 (Z.ltb_ge _ 0)) by lia. cbn [orb].
  rewrite (proj2 (Z.ltb_ge _ _)) by (rewrite !len_app; lia).
  reflexivity.
Qed.

Lemma readUvarint_field_tag fieldNum p pre post :
  0 <= fieldNum < 2 ^ 60 ->
  readUvarint 11 (pre ++ field fieldNum p ++ post)
    (len (pre ++ field fieldNum p ++ post)) (len pre) 0 0
  = Done (fieldNum * 8 + wireTypeOf p, len pre + sovTx (fieldNum * 8 + wireTypeOf p)).
Proof.
  intros Hf. pose proof (wireTypeOf_range p). unfold field. rewrite <- app_assoc.
  apply readUvarint_varint; [lia|].
  rewrite !len_app, length_varint by lia.
  pose proof (len_nonneg (payloadBytes p)). pose proof (len_nonneg post). lia.
Qed.

Lemma wireTypeOf_cases p :
  wireTypeOf p = 0 \/ wireTypeOf p = 1 \/ wireTypeOf p = 2 \/ wireTypeOf p = 5.
Proof. destruct p; simpl; lia. Qed.

(** The loop of [MsgClaim.Unmarshal] goes over a field it does not know
    and leaves the message as it is. *)
Lemma MsgClaim_unmarshal_unknown fieldNum p pre post m fuel :
  3 <= fieldNum < 2 ^ 31 ->
  wellFormed p ->
  len (pre ++ field fieldNum p ++ post) < 2 ^ 63 ->
  MsgClaim_unmarshalLoop (S fuel) (pre ++ field fieldNum p ++ post)
    (len (pre ++ field fieldNum p ++ post)) (len pre) m
  = MsgClaim_unmarshalLoop fuel (pre ++ field fieldNum p ++ post)
      (len (pre ++ field fieldNum p ++ post)) (len pre + len (field fieldNum p)) m.
Proof.
  intros Hf Hp H63.
  pose proof (len_nonneg pre). pose proof (len_nonneg post).
  pose proof (field_nonempty fieldNum p ltac:(lia)).
  rewrite MsgClaim_unmarshalLoop_eq.
  rewrite (proj2 (Z.ltb_lt (len pre) _)) by (rewrite !len_app; lia). cbn [negb].
  cbv zeta. rewrite readUvarint_field_tag by lia.
  rewrite tag_wireType, tag_fieldNum by lia.
  rewrite skipUnknown_field by (done || lia).
  rewrite (proj2 (Z.eqb_neq (wireTypeOf p) 4)) by (pose proof (wireTypeOf_cases p); lia).
  rewrite (proj2 (Z.leb_gt fieldNum 0)) by lia.
  rewrite (proj2 (Z.eqb_neq fieldNum 1)) by lia.
  rewrite (proj2 (Z.eqb_neq fieldNum 2)) by lia.
  reflexivity.
Qed.

(** The loop over the encodings of messages, with more bytes after
    them. *)
Lemma MsgClaim_unmarshal_messages_step ms : forall pre post old fuel,
  len (pre ++ MsgClaim_wires ms ++ post) < 2 ^ 63 ->
  len (MsgClaim_wires ms ++ post) <= Z.of_nat fuel ->
  exists fuel',
    len post <= Z.of_nat fuel' /\
    MsgClaim_unmarshalLoop fuel (pre ++ MsgClaim_wires ms ++ post)
      (len (pre ++ MsgClaim_wires ms ++ post)) (len pre) old
    = MsgClaim_unmarshalLoop fuel' (pre ++ MsgClaim_wires ms ++ post)
        (len (pre ++ MsgClaim_wires ms ++ post))
        (len pre + len (MsgClaim_wires ms)) (MsgClaim_merge old ms).
Proof.
  induction ms as [|m ms IH]; intros pre post old fuel Hlen Hfuel.
  - exists fuel. change (MsgClaim_wires []) with (@nil Byte.byte) in *.
    split; [exact Hfuel|]. change (len (@nil Byte.byte)) with 0. rewrite Z.add_0_r.
    reflexivity.
  - change (MsgClaim_wires (m :: ms)) with (MsgClaim_wire m ++ MsgClaim_wires ms) in *.
    rewrite <- !app_assoc in *.
    destruct (unmarshal_message m pre (MsgClaim_wires ms ++ post) old fuel Hlen Hfuel)
      as (fuel1 & Hfuel1 & ->).
    rewrite <- (len_app pre).
    assert (pre ++ MsgClaim_wire m ++ MsgClaim_wires ms ++ post
            = (pre ++ MsgClaim_wire m) ++ MsgClaim_wires ms ++ post) as Hassoc
      by (by rewrite <- app_assoc).
    rewrite Hassoc in *.
    destruct (IH (pre ++ MsgClaim_wire m) post (MsgClaim_over m old) fuel1 Hlen Hfuel1)
      as (fuel2 & Hfuel2 & ->).
    exists fuel2. split; [done|]. rewrite !len_app. f_equal. lia.
Qed.

Lemma MsgClaim_Unmarshal_over_unknown ms1 fieldNum p ms2 old :
  3 <= fieldNum < 2 ^ 31 ->
  wellFormed p ->
  len (MsgClaim_wires ms1 ++ field fieldNum p ++ MsgClaim_wires ms2) < 2 ^ 63 ->
  MsgClaim_Unmarshal old (MsgClaim_wires ms1 ++ field fieldNum p ++ MsgClaim_wires ms2)
  = (MsgClaim_merge (MsgClaim_merge old ms1) ms2, Done tt).
Proof.
  intros Hf Hp H63. unfold MsgClaim_Unmarshal.
  set (dAtA := MsgClaim_wires ms1 ++ field fieldNum p ++ MsgClaim_wires ms2) in *.
  destruct (MsgClaim_unmarshal_messages_step ms1 [] (field fieldNum p ++ MsgClaim_wires ms2)
              old (length dAtA)) as (fuel1 & Hfuel1 & Hstep1).
  { exact H63. }
  { fold dAtA. unfold len. lia. }
  change (len (@nil Byte.byte)) with 0 in Hstep1. rewrite Z.add_0_l in Hstep1.
  change ([] ++ ?x) with x in Hstep1. fold dAtA in Hstep1. rewrite Hstep1.
  pose proof (field_nonempty fieldNum p ltac:(lia)) as Hne.
  rewrite len_app in Hfuel1. pose proof (len_nonneg (MsgClaim_wires ms2)).
  destruct fuel1 as [|fuel1]; [lia|].
  subst dAtA. rewrite MsgClaim_unmarshal_unknown by done.
  rewrite <- len_app.
  assert (MsgClaim_wires ms1 ++ field fieldNum p ++ MsgClaim_wires ms2
          = (MsgClaim_wires ms1 ++ field fieldNum p) ++ MsgClaim_wires ms2) as Hassoc
    by (by rewrite <- app_assoc).
  rewrite Hassoc in *.
  apply unmarshal_messages; [done | lia].
Qed.

(** *** [MsgInitialClaim] *)

Lemma MsgInitialClaim_unmarshalLoop_eq fuel dAtA l iNdEx m :
  MsgInitialClaim_unmarshalLoop fuel dAtA l iNdEx m
  = if negb (iNdEx <? l) then
      if l <? iNdEx then (m, Fail ErrUnexpectedEOF) else (m, Done tt)
    else
      match fuel with
      | O => (m, OutOfFuel)
      | S fuel' =>
          let preIndex := iNdEx in
          match readUvarint 11 dAtA l iNdEx 0 0 with
          | Done (wire, iNdEx) =>
              let fieldNum := int32 (Z.shiftr wire 3) in
              let wireType := int (Z.land wire 7) in
              if wireType =? 4 then (m, Fail (ErrWiretypeEndGroup "MsgInitialClaim"))
              else if fieldNum <=? 0
              then (m, Fail (ErrIllegalTag "MsgInitialClaim" fieldNum wire))
              else if fieldNum =? 1 then
                if negb (wireType =? 2) then (m, Fail (ErrWrongWireType wireType "Sender"))
                else
                  match readStringField dAtA l iNdEx with
                  | Done (s, postIndex) =>
                      MsgInitialClaim_unmarshalLoop fuel' dAtA l postIndex
                        {| InitialSender := s |}
                  | Fail e => (m, Fail e)
                  | Crash msg => (m, Crash msg)
                  | OutOfFuel => (m, OutOfFuel)
                  end
              else
                match skipUnknown dAtA l preIndex with
                | Done iNdEx => MsgInitialClaim_unmarshalLoop fuel' dAtA l iNdEx m
                | Fail e => (m, Fail e)
                | Crash msg => (m, Crash msg)
                | OutOfFuel => (m, OutOfFuel)
                end
          | Fail e => (m, Fail e)
          | Crash msg => (m, Crash msg)
          | OutOfFuel => (m, OutOfFuel)
          end
      end.
Proof. destruct fuel; reflexivity. Qed.

Lemma MsgInitialClaim_unmarshal_Sender s pre post m fuel :
  0 < lenString s ->
  len (pre ++ stringField Byte.x0a s ++ post) < 2 ^ 63 ->
  MsgInitialClaim_unmarshalLoop (S fuel) (pre ++ stringField Byte.x0a s ++ post)
    (len (pre ++ stringField Byte.x0a s ++ post)) (len pre) m
  = MsgInitialClaim_unmarshalLoop fuel (pre ++ stringField Byte.x0a s ++ post)
      (len (pre ++ stringField Byte.x0a s ++ post))
      (len pre + len (stringField Byte.x0a s))
      {| InitialSender := s |}.
Proof.
  intros Hs Hlen.
  pose proof (len_nonneg pre). pose proof (len_nonneg post).
  pose proof (len_stringField_pos Byte.x0a s Hs).
  pose proof (readStringField_after_tag Byte.x0a s pre post Hs Hlen) as Hread.
  rewrite MsgInitialClaim_unmarshalLoop_eq.
  rewrite (proj2 (Z.ltb_lt (len pre) _)) by (rewrite !len_app; lia).
  cbn [negb]. cbv zeta.
  destruct (stringField_cons Byte.x0a s Hs) as [rest Hrest].
  rewrite Hrest in *. rewrite <- app_comm_cons in *.
  rewrite readUvarint_tag
    by (first [ vm_compute; reflexivity
              | rewrite len_app, len_cons; pose proof (len_nonneg (rest ++ post)); lia ]).
  rewrite Hread. reflexivity.
Qed.

Lemma MsgInitialClaim_unmarshal_Sender_opt s pre post m fuel :
  len (pre ++ stringField Byte.x0a s ++ post) < 2 ^ 63 ->
  len (stringField Byte.x0a s ++ post) <= Z.of_nat fuel ->
  exists fuel',
    len post <= Z.of_nat fuel' /\
    MsgInitialClaim_unmarshalLoop fuel (pre ++ stringField Byte.x0a s ++ post)
      (len (pre ++ stringField Byte.x0a s ++ post)) (len pre) m
    = MsgInitialClaim_unmarshalLoop fuel' (pre ++ stringField Byte.x0a s ++ post)
        (len (pre ++ stringField Byte.x0a s ++ post))
        (len pre + len (stringField Byte.x0a s))
        {| InitialSender := overString s (InitialSender m) |}.
Proof.
  intros Hlen Hfuel. destruct (Z.lt_ge_cases 0 (lenString s)) as [Hs|Hs].
  - pose proof (len_stringField_pos Byte.x0a s Hs). rewrite len_app in Hfuel.
    pose proof (len_nonneg post).
    destruct fuel as [|fuel]; [lia|]. exists fuel. split; [lia|].
    rewrite overString_nonempty by done. by apply MsgInitialClaim_unmarshal_Sender.
  - assert (s = ""%string) as -> by (apply lenString_zero; lia). exists fuel.
    change (stringField Byte.x0a "") with (@nil Byte.byte) in *.
    split; [exact Hfuel|].
    change (len (@nil Byte.byte)) with 0. rewrite Z.add_0_r.
    destruct m; reflexivity.
Qed.

(** The loop of [MsgInitialClaim.Unmarshal] goes over a field it does not
    know. *)
Lemma MsgInitialClaim_unmarshal_unknown fieldNum p pre post m fuel :
  2 <= fieldNum < 2 ^ 31 ->
  wellFormed p ->
  len (pre ++ field fieldNum p ++ post) < 2 ^ 63 ->
  MsgInitialClaim_unmarshalLoop (S fuel) (pre ++ field fieldNum p ++ post)
    (len (pre ++ field fieldNum p ++ post)) (len pre) m
  = MsgInitialClaim_unmarshalLoop fuel (pre ++ field fieldNum p ++ post)
      (len (pre ++ field fieldNum p ++ post)) (len pre + len (field fieldNum p)) m.
Proof.
  intros Hf Hp H63.
  pose proof (len_nonneg pre). pose proof (len_nonneg post).
  pose proof (field_nonempty fieldNum p ltac:(lia)).
  rewrite MsgInitialClaim_unmarshalLoop_eq.
  rewrite (proj2 (Z.ltb_lt (len pre) _)) by (rewrite !len_app; lia). cbn [negb].
  cbv zeta. rewrite readUvarint_field_tag by lia.
  rewrite tag_wireType, tag_fieldNum by lia.
  rewrite skipUnknown_field by (done || lia).
  rewrite (proj2 (Z.eqb_neq (wireTypeOf p) 4)) by (pose proof (wireTypeOf_cases p); lia).
  rewrite (proj2 (Z.leb_gt fieldNum 0)) by lia.
  rewrite (proj2 (Z.eqb_neq fieldNum 1)) by lia.
  reflexivity.
Qed.

(** The field [Address] of a [MsgClaim] on the wire is field 2 with the
    bytes of the string as its value. *)
Lemma stringField_Address_field s :
  0 < lenString s ->
  stringField Byte.x12 s = field 2 (Bytes (String.list_byte_of_string s)).
Proof.
  intros Hs. unfold stringField, field. rewrite (proj2 (eqb_empty s)) by done.
  cbn [wireTypeOf payloadBytes]. rewrite lenString_bytes. reflexivity.
Qed.

Lemma MsgInitialClaim_unmarshal_Address_opt s pre post m fuel :
  len (pre ++ stringField Byte.x12 s ++ post) < 2 ^ 63 ->
  len (stringField Byte.x12 s ++ post) <= Z.of_nat fuel ->
  exists fuel',
    len post <= Z.of_nat fuel' /\
    MsgInitialClaim_unmarshalLoop fuel (pre ++ stringField Byte.x12 s ++ post)
      (len (pre ++ stringField Byte.x12 s ++ post)) (len pre) m
    = MsgInitialClaim_unmarshalLoop fuel' (pre ++ stringField Byte.x12 s ++ post)
        (len (pre ++ stringField Byte.x12 s ++ post))
        (len pre + len (stringField Byte.x12 s)) m.
Proof.
  intros Hlen Hfuel. destruct (Z.lt_ge_cases 0 (lenString s)) as [Hs|Hs].
  - pose proof (len_stringField_pos Byte.x12 s Hs). rewrite len_app in Hfuel.
    pose proof (len_nonneg post).
    destruct fuel as [|fuel]; [lia|]. exists fuel. split; [lia|].
    rewrite stringField_Address_field in * by done.
    by apply MsgInitialClaim_unmarshal_unknown.
  - assert (s = ""%string) as -> by (apply lenString_zero; lia). exists fuel.
    change (stringField Byte.x12 "") with (@nil Byte.byte) in *.
    split; [exact Hfuel|].
    change (len (@nil Byte.byte)) with 0. rewrite Z.add_0_r. reflexivity.
Qed.

Lemma MsgInitialClaim_unmarshalLoop_end fuel dAtA m :
  MsgInitialClaim_unmarshalLoop fuel dAtA (len dAtA) (len dAtA) m = (m, Done tt).
Proof. rewrite MsgInitialClaim_unmarshalLoop_eq, Z.ltb_irrefl. reflexivity. Qed.

Lemma MsgInitialClaim_Unmarshal_MsgClaim_wire m old :
  len (MsgClaim_wire m) < 2 ^ 63 ->
  MsgInitialClaim_Unmarshal old (MsgClaim_wire m)
  = ({| InitialSender := overString (Sender m) (InitialSender old) |}, Done tt).
Proof.
  intros H63. unfold MsgInitialClaim_Unmarshal, MsgClaim_wire in *.
  set (fS := stringField Byte.x0a (Sender m)) in *.
  set (fA := stringField Byte.x12 (Address m)) in *.
  destruct (MsgInitialClaim_unmarshal_Sender_opt (Sender m) [] fA old (length (fS ++ fA)))
    as (fuel1 & Hfuel1 & Hstep1).
  { exact H63. }
  { fold fS. unfold len. lia. }
  change ([] ++ ?x) with x in Hstep1. change (len (@nil Byte.byte)) with 0 in Hstep1.
  rewrite Z.add_0_l in Hstep1. fold fS in Hstep1. rewrite Hstep1.
  destruct (MsgInitialClaim_unmarshal_Address_opt (Address m) fS []
              {| InitialSender := overString (Sender m) (InitialSender old) |} fuel1)
    as (fuel2 & Hfuel2 & Hstep2).
  { fold fA. by rewrite app_nil_r. }
  { fold fA. by rewrite app_nil_r. }
  fold fA in Hstep2. rewrite app_nil_r in Hstep2. rewrite Hstep2.
  rewrite <- len_app. apply MsgInitialClaim_unmarshalLoop_end.
Qed.

Lemma MsgInitialClaim_Unmarshal_own_wire m old :
  len (MsgInitialClaim_wire m) < 2 ^ 63 ->
  MsgInitialClaim_Unmarshal old (MsgInitialClaim_wire m)
  = ({| InitialSender := overString (InitialSender m) (InitialSender old) |}, Done tt).
Proof.
  intros H63.
  pose proof (MsgInitialClaim_Unmarshal_MsgClaim_wire
                {| Sender := InitialSender m; Address := "" |} old) as H.
  unfold MsgClaim_wire in H. cbn [Sender Address] in H.
  change (stringField Byte.x12 "") with (@nil Byte.byte) in H.
  rewrite app_nil_r in H. by apply H.
Qed.

Lemma MsgInitialClaim_Marshal_eq m :
  lenString (InitialSender m) < 2 ^ 62 ->
  MsgInitialClaim_Marshal m = Done (MsgInitialClaim_wire m).
Proof.
  intros Hm. pose proof (lenString_nonneg (InitialSender m)).
  pose proof (sizeStringField_bounds (InitialSender m) ltac:(lia)) as HS.
  pose proof (len_stringField Byte.x0a (InitialSender m) ltac:(lia)) as HlS.
  unfold MsgInitialClaim_Marshal, MsgInitialClaim_Size. rewrite Z.add_0_l.
  rewrite int_small by lia.
  set (size := sizeStringField (InitialSender m)) in *.
  assert (len (make size) = size) as Hmake.
  { unfold make, len. rewrite length_replicate. lia. }
  assert (slice (make size) 0 size = Done (make size)) as ->.
  { rewrite slice_in_range by lia. rewrite Z.sub_0_r, drop_0.
    rewrite firstn_all2; [done|]. unfold len in Hmake. lia. }
  unfold MsgInitialClaim_MarshalToSizedBuffer.
  rewrite stringField_block by (fold size; lia).
  fold size. rewrite Hmake, Z.sub_diag.
  unfold splice. simpl take. rewrite app_nil_l.
  rewrite drop_ge by (unfold len in *; simpl; lia). rewrite app_nil_r.
  rewrite Z.sub_0_r. rewrite slice_in_range by lia.
  rewrite Z.sub_0_r, drop_0. rewrite firstn_all2; [done|]. unfold len in HlS. lia.
Qed.

Lemma MsgInitialClaim_unmarshalLoop_safe fuel : forall dAtA iNdEx m,
  0 <= iNdEx -> len dAtA < 2 ^ 63 -> len dAtA - iNdEx <= Z.of_nat fuel ->
  returns (MsgInitialClaim_unmarshalLoop fuel dAtA (len dAtA) iNdEx m).2 = true.
Proof.
  induction fuel as [|fuel IH]; intros dAtA iNdEx m Hi H63 Hfuel;
    rewrite MsgInitialClaim_unmarshalLoop_eq;
    destruct (Z.ltb_spec iNdEx (len dAtA)); cbn [negb];
    try (by destruct (len dAtA <? iNdEx)); [lia|].
  cbv zeta.
  pose proof (readUvarint_safe 11 dAtA (len dAtA) iNdEx 0 0 Hi ltac:(lia) ltac:(lia)
                ltac:(lia)) as Hread.
  destruct (readUvarint 11 dAtA (len dAtA) iNdEx 0 0) as [[wire i1]| | |]; try done.
  destruct (_ =? 4); [done|].
  destruct (_ <=? 0); [done|].
  pose proof (readStringField_safe dAtA (len dAtA) i1 ltac:(lia) ltac:(lia) H63) as Hstring.
  pose proof (skipUnknown_safe dAtA (len dAtA) iNdEx ltac:(lia) H63) as Hskip.
  destruct (_ =? 1).
  { destruct (negb _); [done|].
    destruct (readStringField dAtA (len dAtA) i1) as [[s postIndex]| | |]; try done.
    apply IH; lia. }
  destruct (skipUnknown dAtA (len dAtA) iNdEx) as [i2| | |]; try done.
  apply IH; lia.
Qed.

Lemma int32_wraps fieldNum k :
  fieldNum mod 2 ^ 32 = k -> 0 <= k < 2 ^ 31 -> int32 fieldNum = k.
Proof.
  intros Hmod Hk. unfold int32. rewrite <- Z.add_mod_idemp_l by lia. rewrite Hmod.
  rewrite Z.mod_small; lia.
Qed.

Lemma tag_fieldNum_wraps fieldNum p k :
  0 <= fieldNum -> fieldNum mod 2 ^ 32 = k -> 0 <= k < 2 ^ 31 ->
  int32 (Z.shiftr (fieldNum * 8 + wireTypeOf p) 3) = k.
Proof.
  intros Hf Hmod Hk. pose proof (wireTypeOf_range p).
  rewrite Z.shiftr_div_pow2 by lia. change (2 ^ 3) with 8.
  replace ((fieldNum * 8 + wireTypeOf p) / 8) with fieldNum
    by (apply Z.div_unique with (r := wireTypeOf p); lia).
  by apply int32_wraps.
Qed.

Lemma MsgClaim_unmarshalLoop_end fuel dAtA m :
  MsgClaim_unmarshalLoop fuel dAtA (len dAtA) (len dAtA) m = (m, Done tt).
Proof. rewrite MsgClaim_unmarshalLoop_eq, Z.ltb_irrefl. reflexivity. Qed.

Lemma MsgClaim_Unmarshal_wrapped_Sender fieldNum s old :
  0 <= fieldNum < 2 ^ 60 ->
  fieldNum mod 2 ^ 32 = 1 ->
  lenString s < 2 ^ 62 ->
  MsgClaim_Unmarshal old (field fieldNum (Bytes (String.list_byte_of_string s)))
  = ({| Sender := s; Address := Address old |}, Done tt).
Proof.
  intros Hf Hmod Hs. unfold MsgClaim_Unmarshal.
  set (p := Bytes (String.list_byte_of_string s)).
  set (w := fieldNum * 8 + wireTypeOf p).
  pose proof (lenString_nonneg s) as Hs0.
  pose proof (sovTx_bounds w ltac:(subst w; simpl; lia)) as (Hw1 & _ & _ & Hw10).
  specialize (Hw10 ltac:(subst w; simpl; lia)).
  pose proof (sovTx_bounds (lenString s) Hs0) as (Hl1 & _ & _ & Hl10).
  specialize (Hl10 ltac:(lia)).
  assert (field fieldNum p
          = varint w ++ varint (lenString s) ++ String.list_byte_of_string s ++ [])
    as Hshape.
  { unfold field. fold w. subst p. cbn [payloadBytes].
    by rewrite lenString_bytes, app_nil_r. }
  assert (len (field fieldNum p) = sovTx w + sovTx (lenString s) + lenString s) as Hlen.
  { rewrite Hshape, !len_app, !length_varint, lenString_bytes by (subst w; simpl; lia).
    change (len (@nil Byte.byte)) with 0. lia. }
  destruct (length (field fieldNum p)) as [|fuel] eqn:E.
  { unfold len in Hlen. lia. }
  rewrite MsgClaim_unmarshalLoop_eq.
  rewrite (proj2 (Z.ltb_lt 0 _)) by lia. cbn [negb]. cbv zeta.
  pose proof (readUvarint_field_tag fieldNum p [] [] Hf) as Htag.
  rewrite app_nil_r in Htag. change ([] ++ ?x) with x in Htag.
  change (len (@nil Byte.byte)) with 0 in Htag. rewrite Z.add_0_l in Htag.
  rewrite Htag.
  rewrite tag_wireType by lia.
  rewrite (tag_fieldNum_wraps fieldNum p 1) by (done || lia).
  change (wireTypeOf p) with 2. cbn [Z.eqb Z.leb Z.compare Pos.eqb negb].
  pose proof (readStringField_reads s (varint w) []) as Hread.
  rewrite <- Hshape in Hread. rewrite length_varint in Hread by (subst w; simpl; lia).
  change (fieldNum * 8 + 2) with w. rewrite Hread by lia.
  replace (sovTx w + sovTx (lenString s) + lenString s) with (len (field fieldNum p))
    by lia.
  apply MsgClaim_unmarshalLoop_end.
Qed.

End ClaimTxFacts.

(* ===================================================================== *)
(** ** Properties of the claim messages on the wire *)
(* ===================================================================== *)

Module ClaimTxProperties.
Import ClaimTx ClaimTxFacts.

(** X15: [sovTx v] is the number of seven-bit groups of [v]: at least 1,
    the least [k] with [v < 2^(7k)], and at most 10 for a [uint64]. *)
Theorem sovTx_groups v :
  0 <= v ->
  1 <= sovTx v /\
  v < 2 ^ (7 * sovTx v) /\
  (1 < sovTx v -> 2 ^ (7 * (sovTx v - 1)) <= v) /\
  (v < 2 ^ 64 -> sovTx v <= 10).
Proof. apply sovTx_bounds. Qed.

Lemma sovTx_groups_witness :
  1 <= sovTx 300 /\
  300 < 2 ^ (7 * sovTx 300) /\
  (1 < sovTx 300 -> 2 ^ (7 * (sovTx 300 - 1)) <= 300) /\
  (300 < 2 ^ 64 -> sovTx 300 <= 10).
Proof. apply (sovTx_groups 300). lia. Defined.

(** X16: [encodeVarintTx] writes the varint of [v] into the [sovTx v]
    bytes that end at [offset], leaves every other byte of the buffer as
    it was, and returns the index where the varint starts. *)
Theorem encodeVarintTx_writes dAtA offset v :
  0 <= v < 2 ^ 64 ->
  sovTx v <= offset <= len dAtA ->
  encodeVarintTx dAtA offset v
  = Done (take (Z.to_nat (offset - sovTx v)) dAtA ++ varint v
          ++ drop (Z.to_nat offset) dAtA,
          offset - sovTx v).
Proof. apply encodeVarintTx_eq. Qed.

Lemma encodeVarintTx_writes_witness :
  encodeVarintTx [Byte.x01; Byte.x02; Byte.x03; Byte.x04] 3 300
  = Done ([Byte.x01; Byte.xac; Byte.x02; Byte.x04], 1).
Proof.
  apply (encodeVarintTx_writes [Byte.x01; Byte.x02; Byte.x03; Byte.x04] 3 300);
    [lia | vm_compute; split; discriminate].
Defined.

(** X17: [Marshal] returns the message in wire format (for each string
    that is not empty: the tag, the length as a varint, the bytes; [Sender]
    before [Address]), and that is [Size] bytes. *)
Theorem MsgClaim_Marshal_wire m :
  lenString (Sender m) + lenString (Address m) < 2 ^ 62 ->
  MsgClaim_Marshal m = Done (MsgClaim_wire m) /\
  len (MsgClaim_wire m) = MsgClaim_Size (Some m).
Proof.
  intros Hm. split; [by apply MsgClaim_Marshal_eq | by apply len_MsgClaim_wire].
Qed.

Lemma MsgClaim_Marshal_wire_witness :
  MsgClaim_Marshal sampleClaim = Done (MsgClaim_wire sampleClaim) /\
  len (MsgClaim_wire sampleClaim) = MsgClaim_Size (Some sampleClaim).
Proof. apply (MsgClaim_Marshal_wire sampleClaim). vm_compute. reflexivity. Defined.

(** X18: what [Marshal] returns, [Unmarshal] decodes into an empty
    message as the message that was encoded. *)
Theorem MsgClaim_Marshal_Unmarshal m :
  lenString (Sender m) + lenString (Address m) < 2 ^ 62 ->
  exists dAtA,
    MsgClaim_Marshal m = Done dAtA /\
    MsgClaim_Unmarshal (mkMsgClaim "" "") dAtA = (m, Done tt).
Proof.
  intros Hm. exists (MsgClaim_wire m).
  pose proof (len_MsgClaim_wire m Hm) as Hlen.
  pose proof (lenString_nonneg (Sender m)). pose proof (lenString_nonneg (Address m)).
  pose proof (sizeStringField_bounds (Sender m) ltac:(lia)) as HS.
  pose proof (sizeStringField_bounds (Address m) ltac:(lia)) as HA.
  pose proof (len_stringField Byte.x0a (Sender m) ltac:(lia)) as HlS.
  pose proof (len_stringField Byte.x12 (Address m) ltac:(lia)) as HlA.
  split; [by apply MsgClaim_Marshal_eq|].
  pose proof (MsgClaim_Unmarshal_wires [m] (mkMsgClaim "" "")) as Hun.
  unfold MsgClaim_wires in Hun. simpl in Hun. rewrite app_nil_r in Hun.
  rewrite Hun; [by rewrite MsgClaim_over_empty|].
  unfold MsgClaim_wire. rewrite len_app. lia.
Qed.

Lemma MsgClaim_Marshal_Unmarshal_witness :
  exists dAtA,
    MsgClaim_Marshal sampleClaim = Done dAtA /\
    MsgClaim_Unmarshal (mkMsgClaim "" "") dAtA = (sampleClaim, Done tt).
Proof. apply (MsgClaim_Marshal_Unmarshal sampleClaim). vm_compute. reflexivity. Defined.

(** X19: [Unmarshal] on encodings written one after the other leaves in
    every field the last value that is not empty, and keeps what the
    receiver held where no encoding sets the field. *)
Theorem MsgClaim_Unmarshal_merges ms old :
  len (MsgClaim_wires ms) < 2 ^ 63 ->
  MsgClaim_Unmarshal old (MsgClaim_wires ms) = (MsgClaim_merge old ms, Done tt).
Proof. apply MsgClaim_Unmarshal_wires. Qed.

Lemma MsgClaim_Unmarshal_merges_witness :
  MsgClaim_Unmarshal (mkMsgClaim "old" "old") (MsgClaim_wires [sampleClaim; sampleSender])
  = (mkMsgClaim "eve1def" "cosmos1xyz", Done tt).
Proof.
  apply (MsgClaim_Unmarshal_merges [sampleClaim; sampleSender] (mkMsgClaim "old" "old")).
  vm_compute. reflexivity.
Defined.

(** X20: on any input [Unmarshal] returns, with or without an error: no
    index leaves the buffer, and the loop ends within as many rounds as
    the buffer has bytes. *)
Theorem MsgClaim_Unmarshal_returns m dAtA :
  len dAtA < 2 ^ 63 ->
  returns (MsgClaim_Unmarshal m dAtA).2 = true.
Proof.
  intros H63. unfold MsgClaim_Unmarshal.
  apply MsgClaim_unmarshalLoop_safe; unfold len in *; lia.
Qed.

Lemma MsgClaim_Unmarshal_returns_witness :
  returns (MsgClaim_Unmarshal sampleClaim [Byte.x0a; Byte.x05; Byte.x65]).2 = true.
Proof.
  apply (MsgClaim_Unmarshal_returns sampleClaim [Byte.x0a; Byte.x05; Byte.x65]).
  vm_compute. reflexivity.
Defined.

(** X21: on any input [skipTx] returns, with or without an error; a
    length it returns is at least 1. *)
Theorem skipTx_returns dAtA :
  len dAtA < 2 ^ 63 ->
  returns (skipTx dAtA) = true /\
  forall n, skipTx dAtA = Done n -> 1 <= n.
Proof.
  intros H63. pose proof (skipTx_safe dAtA H63) as H.
  destruct (skipTx dAtA) as [n| | |]; try done.
  split; [done|]. intros ? [= <-]. lia.
Qed.

Lemma skipTx_returns_witness :
  returns (skipTx [Byte.x0a; Byte.x05; Byte.x65]) = true /\
  forall n, skipTx [Byte.x0a; Byte.x05; Byte.x65] = Done n -> 1 <= n.
Proof. apply (skipTx_returns [Byte.x0a; Byte.x05; Byte.x65]). vm_compute. reflexivity. Defined.

(** X22: [skipTx] returns the length of the first field of its input,
    for a field of wire type 0, 1, 2 or 5, whatever follows it. *)
Theorem skipTx_skips_one_field fieldNum p rest :
  0 <= fieldNum < 2 ^ 60 ->
  wellFormed p ->
  len (field fieldNum p ++ rest) < 2 ^ 63 ->
  skipTx (field fieldNum p ++ rest) = Done (len (field fieldNum p)).
Proof. apply skipTx_field. Qed.

Lemma skipTx_skips_one_field_witness :
  skipTx (field 700 (Bytes [Byte.x01; Byte.x02; Byte.x03]) ++ [Byte.x0a; Byte.x05])
  = Done 6.
Proof.
  apply (skipTx_skips_one_field 700 (Bytes [Byte.x01; Byte.x02; Byte.x03])
           [Byte.x0a; Byte.x05]);
    [lia | exact I | vm_compute; reflexivity].
Defined.

(** X23: [Unmarshal] goes over a field whose number is neither 1 nor 2
    and does not keep it: the message it leaves is the one the encodings
    before and after the field give. *)
Theorem MsgClaim_Unmarshal_ignores_unknown_field ms1 fieldNum p ms2 old :
  3 <= fieldNum < 2 ^ 31 ->
  wellFormed p ->
  len (MsgClaim_wires ms1 ++ field fieldNum p ++ MsgClaim_wires ms2) < 2 ^ 63 ->
  MsgClaim_Unmarshal old (MsgClaim_wires ms1 ++ field fieldNum p ++ MsgClaim_wires ms2)
  = (MsgClaim_merge (MsgClaim_merge old ms1) ms2, Done tt).
Proof. apply MsgClaim_Unmarshal_over_unknown. Qed.

Lemma MsgClaim_Unmarshal_ignores_unknown_field_witness :
  MsgClaim_Unmarshal (mkMsgClaim "" "")
    (MsgClaim_wires [sampleClaim] ++ field 7 (Varint 300) ++ MsgClaim_wires [sampleSender])
  = (mkMsgClaim "eve1def" "cosmos1xyz", Done tt).
Proof.
  apply (MsgClaim_Unmarshal_ignores_unknown_field [sampleClaim] 7 (Varint 300)
           [sampleSender] (mkMsgClaim "" ""));
    [lia | simpl; lia | vm_compute; reflexivity].
Defined.

(** X24: [MsgInitialClaim.Marshal] returns [Size] bytes, and
    [MsgInitialClaim.Unmarshal] decodes them into an empty message as the
    message that was encoded. *)
Theorem MsgInitialClaim_Marshal_Unmarshal m :
  lenString (InitialSender m) < 2 ^ 62 ->
  exists dAtA,
    MsgInitialClaim_Marshal m = Done dAtA /\
    len dAtA = MsgInitialClaim_Size (Some m) /\
    MsgInitialClaim_Unmarshal (mkMsgInitialClaim "") dAtA = (m, Done tt).
Proof.
  intros Hm. exists (MsgInitialClaim_wire m).
  pose proof (lenString_nonneg (InitialSender m)).
  pose proof (sizeStringField_bounds (InitialSender m) ltac:(lia)) as HS.
  pose proof (len_stringField Byte.x0a (InitialSender m) ltac:(lia)) as HlS.
  split; [by apply MsgInitialClaim_Marshal_eq|]. split.
  - unfold MsgInitialClaim_wire, MsgInitialClaim_Size. rewrite HlS, Z.add_0_l.
    rewrite int_small by lia. reflexivity.
  - rewrite MsgInitialClaim_Unmarshal_own_wire by (unfold MsgInitialClaim_wire; lia).
    destruct m as [s]. unfold overString. simpl. by destruct s.
Qed.

Lemma MsgInitialClaim_Marshal_Unmarshal_witness :
  exists dAtA,
    MsgInitialClaim_Marshal sampleInitialClaim = Done dAtA /\
    len dAtA = MsgInitialClaim_Size (Some sampleInitialClaim) /\
    MsgInitialClaim_Unmarshal (mkMsgInitialClaim "") dAtA = (sampleInitialClaim, Done tt).
Proof.
  apply (MsgInitialClaim_Marshal_Unmarshal sampleInitialClaim). vm_compute. reflexivity.
Defined.

(** X25: on any input [MsgInitialClaim.Unmarshal] returns, with or
    without an error. *)
Theorem MsgInitialClaim_Unmarshal_returns m dAtA :
  len dAtA < 2 ^ 63 ->
  returns (MsgInitialClaim_Unmarshal m dAtA).2 = true.
Proof.
  intros H63. unfold MsgInitialClaim_Unmarshal.
  apply MsgInitialClaim_unmarshalLoop_safe; unfold len in *; lia.
Qed.

Lemma MsgInitialClaim_Unmarshal_returns_witness :
  returns (MsgInitialClaim_Unmarshal sampleInitialClaim [Byte.x0a; Byte.x05; Byte.x65]).2
  = true.
Proof.
  apply (MsgInitialClaim_Unmarshal_returns sampleInitialClaim
           [Byte.x0a; Byte.x05; Byte.x65]).
  vm_compute. reflexivity.
Defined.

(** X26: [MsgInitialClaim.Unmarshal] accepts what [MsgClaim.Marshal]
    returns: it takes the sender, if there is one, and goes over the
    address. *)
Theorem MsgInitialClaim_Unmarshal_of_MsgClaim m old :
  lenString (Sender m) + lenString (Address m) < 2 ^ 62 ->
  exists dAtA,
    MsgClaim_Marshal m = Done dAtA /\
    MsgInitialClaim_Unmarshal old dAtA
    = ({| InitialSender := overString (Sender m) (InitialSender old) |}, Done tt).
Proof.
  intros Hm. exists (MsgClaim_wire m).
  pose proof (len_MsgClaim_wire m Hm) as Hlen.
  pose proof (lenString_nonneg (Sender m)). pose proof (lenString_nonneg (Address m)).
  pose proof (sizeStringField_bounds (Sender m) ltac:(lia)) as HS.
  pose proof (sizeStringField_bounds (Address m) ltac:(lia)) as HA.
  pose proof (len_stringField Byte.x0a (Sender m) ltac:(lia)) as HlS.
  pose proof (len_stringField Byte.x12 (Address m) ltac:(lia)) as HlA.
  split; [by apply MsgClaim_Marshal_eq|].
  apply MsgInitialClaim_Unmarshal_MsgClaim_wire.
  unfold MsgClaim_wire. rewrite len_app. lia.
Qed.

Lemma MsgInitialClaim_Unmarshal_of_MsgClaim_witness :
  exists dAtA,
    MsgClaim_Marshal sampleClaim = Done dAtA /\
    MsgInitialClaim_Unmarshal (mkMsgInitialClaim "old") dAtA
    = (mkMsgInitialClaim "eve1abc", Done tt).
Proof.
  apply (MsgInitialClaim_Unmarshal_of_MsgClaim sampleClaim (mkMsgInitialClaim "old")).
  vm_compute. reflexivity.
Defined.

(** X27: [Unmarshal] takes the field number modulo 2^32: a field of wire
    type 2 whose number is 1 modulo 2^32 sets [Sender], also to the empty
    string. *)
Theorem MsgClaim_Unmarshal_field_number_wraps fieldNum s old :
  0 <= fieldNum < 2 ^ 60 ->
  fieldNum mod 2 ^ 32 = 1 ->
  lenString s < 2 ^ 62 ->
  MsgClaim_Unmarshal old (field fieldNum (Bytes (String.list_byte_of_string s)))
  = ({| Sender := s; Address := Address old |}, Done tt).
Proof. apply MsgClaim_Unmarshal_wrapped_Sender. Qed.

Lemma MsgClaim_Unmarshal_field_number_wraps_witness :
  MsgClaim_Unmarshal sampleClaim
    (field 4294967297 (Bytes (String.list_byte_of_string "eve1def")))
  = (mkMsgClaim "eve1def" "cosmos1xyz", Done tt).
Proof.
  apply (MsgClaim_Unmarshal_field_number_wraps 4294967297 "eve1def" sampleClaim);
    [lia | reflexivity | vm_compute; reflexivity].
Defined.

End ClaimTxProperties.
